(** * IndexedDBShim: object store façade and transaction scheduler

    A shallow embedding of [src/IDBObjectStore.js] (the object store
    façade) and of the [IDBTransaction] scheduler that follows it in the
    same file.  JavaScript values are a small inductive type, the WebSQL
    backend is a finite map of tables, and the callback-driven scheduler
    is a state-and-exception monad run by an explicit event loop. *)

From stdpp Require Import gmap strings list.
From Stdlib Require Import ZArith Ascii Lia.

Set Warnings "-register-all".

Open Scope string_scope.
Open Scope Z_scope.
Open Scope list_scope.

(** ** JavaScript values *)

(** Numbers are modelled as integers: the code only adds one to a
    sequence number and compares against [undefined]. *)
Inductive Value : Type :=
| VUndefined
| VNull
| VBool (b : bool)
| VNum (n : Z)
| VStr (s : string)
| VObj (fields : list (string * Value))
| VArr (items : list Value).

(** The result of [typeof v]. *)
Definition typeof (v : Value) : string :=
  match v with
  | VUndefined => "undefined"
  | VNull => "object"
  | VBool _ => "boolean"
  | VNum _ => "number"
  | VStr _ => "string"
  | VObj _ => "object"
  | VArr _ => "object"
  end.

(** JavaScript truthiness, as used by [if (v)] and [v && ...]. *)
Definition truthy (v : Value) : bool :=
  match v with
  | VUndefined => false
  | VNull => false
  | VBool b => b
  | VNum n => negb (n =? 0)
  | VStr s => negb (String.eqb s "")
  | VObj _ => true
  | VArr _ => true
  end.

(** [typeof v === "undefined"]. *)
Definition is_undefined (v : Value) : bool :=
  match v with VUndefined => true | _ => false end.

(** [v && typeof v === "object"]. *)
Definition is_object (v : Value) : bool :=
  truthy v && String.eqb (typeof v) "object".

(** Values that can be thrown or handed to an error continuation. *)
Inductive Exn : Type :=
| DOMException (name : string)
| DOMError (name : string)
| TypeError
| SqlError (message : string)
| Thrown (v : Value).

(** Truthiness of an error value, for [err || "DOMError"]. *)
Definition exn_truthy (e : Exn) : bool :=
  match e with
  | Thrown v => truthy v
  | _ => true
  end.

(** The outcome of evaluating a piece of JavaScript: a value or a throw. *)
Inductive Res (A : Type) : Type :=
| Ok (a : A)
| Throw (e : Exn).
Arguments Ok {A} a.
Arguments Throw {A} e.

(** ** Collaborators that are not in the source file

    [idbModules.Key] and [idbModules.Sca] live in other files of the
    repository.  Their functions are taken as parameters. *)
Class Collaborators : Type := {
  (** [Key.getValue(value, keyPath)]: [undefined] when the path is absent. *)
  Key_getValue : Value -> Value -> Value;
  (** [Key.setValue(value, keyPath, key)]: the updated record, or a throw. *)
  Key_setValue : Value -> Value -> Value -> Res Value;
  (** Whether [Key.validate(key)] accepts the key. *)
  Key_valid : Value -> bool;
  (** [Key.encode(key, multiEntry)]. *)
  Key_encode : Value -> bool -> string;
  (** [Sca.encode(value, callback)], calling back synchronously. *)
  Sca_encode : Value -> string;
  (** [Sca.decode(encoded)]. *)
  Sca_decode : string -> Res Value
}.

(** Modelled from the spec: [idbModules.Key.validate] is not in the source
    file; the spec says it "fails with DataError if the value is not an
    allowed key type". *)
Definition Key_validate `{Collaborators} (key : Value) : Res unit :=
  if Key_valid key then Ok tt else Throw (DOMException "DataError").

(** ** The WebSQL backend

    The statements the façade issues are modelled on a database made of
    the store tables and of SQLite's [sqlite_sequence] table.  A row maps
    column names to stored strings; the [key] column is unique (the
    [CREATE TABLE] statement in [__createObjectStore] declares it
    [PRIMARY KEY], or [UNIQUE] for auto-increment stores). *)

Record Table : Type := mkTable {
  (** created with [inc INTEGER PRIMARY KEY AUTOINCREMENT] *)
  t_autoinc : bool;
  t_rows : list (gmap string string)
}.

Record Backend : Type := mkBackend {
  tables : gmap string Table;
  (** rows [(name, seq)]; [None] while no auto-increment table exists *)
  sqlite_sequence : option (list (string * Z))
}.

(** The result of one statement. *)
Inductive SqlResult (A : Type) : Type :=
| SqlOk (a : A) (db : Backend)
| SqlFail (e : Exn).
Arguments SqlOk {A} a db.
Arguments SqlFail {A} e.

(** ASCII case folding, as SQLite's [LIKE] does by default. *)
Definition ascii_lower (c : ascii) : ascii :=
  let n := N_of_ascii c in
  if ((65 <=? n) && (n <=? 90))%N then ascii_of_N (n + 32) else c.

(** SQLite's [LIKE]: [%] matches any run of characters and [_] any single
    character; other characters match without regard to ASCII case. *)
Fixpoint sql_like (pattern s : string) : bool :=
  match pattern with
  | EmptyString => match s with EmptyString => true | _ => false end
  | String p pattern' =>
      if Ascii.eqb p "%"%char then
        (fix skip (t : string) : bool :=
           sql_like pattern' t
           || match t with
              | EmptyString => false
              | String _ t' => skip t'
              end) s
      else
        match s with
        | EmptyString => false
        | String c s' =>
            (Ascii.eqb p "_"%char || Ascii.eqb (ascii_lower p) (ascii_lower c))
            && sql_like pattern' s'
        end
  end.

(** [SELECT * FROM sqlite_sequence where name like ?] *)
Definition select_sequence_like (db : Backend) (name : string)
  : SqlResult (list (string * Z)) :=
  match sqlite_sequence db with
  | None => SqlFail (SqlError "no such table: sqlite_sequence")
  | Some rows => SqlOk (filter (fun r => sql_like name r.1 = true) rows) db
  end.

(** Whether a row's [key] column holds [k]. *)
Definition row_has_key (k : string) (row : gmap string string) : bool :=
  match row !! "key" with
  | Some k' => String.eqb k' k
  | None => false
  end.

(** [SELECT * FROM <store> where key = ?] *)
Definition select_by_key (db : Backend) (store : string) (k : string)
  : SqlResult (list (gmap string string)) :=
  match tables db !! store with
  | None => SqlFail (SqlError "no such table")
  | Some t => SqlOk (filter (fun r => row_has_key k r = true) (t_rows t)) db
  end.

(** [SELECT * FROM <store>] *)
Definition select_all (db : Backend) (store : string)
  : SqlResult (list (gmap string string)) :=
  match tables db !! store with
  | None => SqlFail (SqlError "no such table")
  | Some t => SqlOk (t_rows t) db
  end.

Definition set_rows (db : Backend) (store : string) (t : Table)
    (rows : list (gmap string string)) : Backend :=
  {| tables := <[store := {| t_autoinc := t_autoinc t; t_rows := rows |}]> (tables db);
     sqlite_sequence := sqlite_sequence db |}.

(** [DELETE FROM <store> where key = ?]; the result is [rowsAffected]. *)
Definition delete_by_key (db : Backend) (store : string) (k : string)
  : SqlResult nat :=
  match tables db !! store with
  | None => SqlFail (SqlError "no such table")
  | Some t =>
      let kept := filter (fun r => row_has_key k r = false) (t_rows t) in
      SqlOk (length (t_rows t) - length kept)%nat (set_rows db store t kept)
  end.

(** [DELETE FROM <store>] *)
Definition delete_all (db : Backend) (store : string) : SqlResult nat :=
  match tables db !! store with
  | None => SqlFail (SqlError "no such table")
  | Some t => SqlOk (length (t_rows t)) (set_rows db store t [])
  end.

(** The sequence number SQLite records after an insert into an
    [AUTOINCREMENT] table: one more than the recorded one, or 1. *)
Fixpoint bump_sequence (name : string) (rows : list (string * Z))
  : list (string * Z) :=
  match rows with
  | [] => [(name, 1)]
  | (n, seq) :: rest =>
      if String.eqb n name then (n, seq + 1) :: rest
      else (n, seq) :: bump_sequence name rest
  end.

(** [INSERT INTO <store> (<columns>, value) VALUES (...)] with the columns
    of [row].  It fails on a missing table and on a second row with the
    same [key]. *)
Definition insert_row (db : Backend) (store : string)
    (row : gmap string string) : SqlResult unit :=
  match tables db !! store with
  | None => SqlFail (SqlError "no such table")
  | Some t =>
      match row !! "key" with
      | Some k =>
          if existsb (row_has_key k) (t_rows t)
          then SqlFail (SqlError "UNIQUE constraint failed")
          else SqlOk tt
                 {| tables := <[store := {| t_autoinc := t_autoinc t;
                                            t_rows := t_rows t ++ [row] |}]> (tables db);
                    sqlite_sequence :=
                      if t_autoinc t
                      then Some (bump_sequence store (default [] (sqlite_sequence db)))
                      else sqlite_sequence db |}
      | None =>
          SqlOk tt
            {| tables := <[store := {| t_autoinc := t_autoinc t;
                                       t_rows := t_rows t ++ [row] |}]> (tables db);
               sqlite_sequence :=
                 if t_autoinc t
                 then Some (bump_sequence store (default [] (sqlite_sequence db)))
                 else sqlite_sequence db |}
      end
  end.

(** ** Object stores *)

(** One entry of [this.__indexes], for a name listed in [this.indexNames]. *)
Record Index : Type := mkIndex {
  idx_name : string;
  idx_keyPath : Value;
  idx_multiEntry : bool
}.

Record Store : Type := mkStore {
  name : string;
  (** the parsed [keyPath]: [null] when the store has no key path *)
  keyPath : Value;
  autoIncrement : bool;
  (** [__indexes[indexNames[i]]], in the order of [indexNames] *)
  indexes : list Index
}.

(** What a callback-taking helper passed on: the argument of its
    [callback], or the error of its [failure]. *)
Inductive Called (A : Type) : Type :=
| CallSuccess (a : A)
| CallFailure (e : Exn).
Arguments CallSuccess {A} a.
Arguments CallFailure {A} e.

(** [getNextAutoIncKey], inside [__deriveKey]: the number passed to
    [callback], or the error passed to [failure]. *)
Definition getNextAutoIncKey (st : Store) (db : Backend) : Called Z :=
  match select_sequence_like db (name st) with
  | SqlOk rows _ =>
      match rows with
      | [row] => CallSuccess (row.2 + 1)
      | _ => CallSuccess 1
      end
  | SqlFail e => CallFailure (DOMException "DataError")
  end.

(** What the last backend callback of a queued procedure does with the
    scheduler's continuations. *)
Inductive Completion : Type :=
| CSuccess (result : Value) (req : option nat)   (* [success(result, req)] *)
| CError (e : Exn)                               (* [error(e)] *)
| CThrow (e : Exn)                               (* [throw e] *)
| CTry (body handler : Completion).              (* [try { body } catch (e) { handler }] *)

(** What a queued procedure does while it is being called.  No procedure
    of the source calls [success] outside a statement callback. *)
Inductive SyncOutcome : Type :=
| SThrow (e : Exn)         (* it throws *)
| SError (e : Exn)         (* it calls [error(e)] and returns *)
| SIssued (c : Completion) (* it issues statements; the last callback does [c] *)
| SIdle.                   (* it returns and no continuation is ever called *)

(** A queued procedure [op(tx, args, success, error)], run against the
    backend. *)
Definition Proc : Type := Backend -> Backend * SyncOutcome.

(** A piece of a procedure ends without issuing a statement, by calling
    [error] or by throwing, or it issues a statement whose last callback
    does [c]. *)
Inductive Fault : Type :=
| FError (e : Exn)
| FThrow (e : Exn).

Inductive Step : Type :=
| Now (f : Fault)
| Later (db : Backend) (c : Completion).

Definition fault_completion (f : Fault) : Completion :=
  match f with
  | FError e => CError e
  | FThrow e => CThrow e
  end.

(** The three places a piece of code can run in: directly in the
    procedure; in a statement callback; in the sequence-lookup callback of
    [__deriveKey], whose [try] turns a throw into
    [failure(DataError)]. *)
Definition sync_ctx (f : Fault) : SyncOutcome :=
  match f with
  | FError e => SError e
  | FThrow e => SThrow e
  end.

Definition callback_ctx (f : Fault) : SyncOutcome :=
  SIssued (fault_completion f).

Definition guarded_ctx (f : Fault) : SyncOutcome :=
  SIssued (CTry (fault_completion f) (CError (DOMException "DataError"))).

Definition run_step (db : Backend) (ctx : Fault -> SyncOutcome) (s : Step)
  : Backend * SyncOutcome :=
  match s with
  | Now f => (db, ctx f)
  | Later db' c => (db', SIssued c)
  end.

Section Facade.
Context `{Collaborators}.

(** [IDBObjectStore.prototype.__validateKey] *)
Definition validateKey (st : Store) (value key : Value) : Res unit :=
  if truthy (keyPath st) then
    if negb (is_undefined key) then
      Throw (DOMException "DataError")
    else if is_object value then
      let key := Key_getValue value (keyPath st) in
      if is_undefined key then
        if autoIncrement st then Ok tt
        else Throw (DOMException "DataError")
      else Key_validate key
    else
      Throw (DOMException "DataError")
  else
    if is_undefined key then
      if autoIncrement st then Ok tt
      else Throw (DOMException "DataError")
    else Key_validate key.

(** [IDBObjectStore.prototype.__deriveKey], with [failure] the scheduler's
    [error].  [success] receives the primary key and the record, which
    [Key.setValue] updates in place when a key is generated. *)
Definition deriveKey (st : Store) (db : Backend) (value key : Value)
    (success : Value -> Value -> Step) : Backend * SyncOutcome :=
  if truthy (keyPath st) then
    let primaryKey := Key_getValue value (keyPath st) in
    if is_undefined primaryKey && autoIncrement st then
      match getNextAutoIncKey st db with
      | CallSuccess n =>
          match Key_setValue value (keyPath st) (VNum n) with
          | Ok value' => run_step db guarded_ctx (success (VNum n) value')
          | Throw e => (db, SIssued (CError (DOMException "DataError")))
          end
      | CallFailure e => (db, SIssued (CError e))
      end
    else run_step db sync_ctx (success primaryKey value)
  else
    if is_undefined key && autoIncrement st then
      match getNextAutoIncKey st db with
      | CallSuccess n => run_step db callback_ctx (success (VNum n) value)
      | CallFailure e => (db, SIssued (CError e))
      end
    else run_step db sync_ctx (success key value).

(** The [paramMap] of [__insertData]: the encoded primary key under
    ["key"], then one entry per index, later entries overwriting. *)
Definition paramMap (st : Store) (value primaryKey : Value) : gmap string string :=
  fold_left
    (fun m ix => <[idx_name ix := Key_encode (Key_getValue value (idx_keyPath ix))
                                     (idx_multiEntry ix)]> m)
    (indexes st)
    (if is_undefined primaryKey then ∅
     else {["key" := Key_encode primaryKey false]}).

(** [IDBObjectStore.prototype.__insertData] *)
Definition insertData (st : Store) (db : Backend)
    (encoded : string) (value primaryKey : Value) : Step :=
  match (if is_undefined primaryKey then Ok tt else Key_validate primaryKey) with
  | Throw e => Now (FError e)
  | Ok _ =>
      let row := <["value" := encoded]> (paramMap st value primaryKey) in
      match insert_row db (name st) row with
      | SqlOk _ db' =>
          match Sca_decode (Sca_encode primaryKey) with
          | Ok primaryKey' => Later db' (CSuccess primaryKey' None)
          | Throw e => Later db' (CThrow e)
          end
      | SqlFail err => Later db (CError (DOMError "ConstraintError"))
      end
  end.

(** The procedure [objectStoreAdd] queued by [add]. *)
Definition objectStoreAdd (st : Store) (value key : Value) : Proc :=
  fun db =>
    deriveKey st db value key (fun primaryKey value' =>
      insertData st db (Sca_encode value') value' primaryKey).

(** The procedure [objectStorePut] queued by [put]. *)
Definition objectStorePut (st : Store) (value key : Value) : Proc :=
  fun db =>
    deriveKey st db value key (fun primaryKey value' =>
      let encoded := Sca_encode value' in
      match Key_validate primaryKey with
      | Throw e => Now (FThrow e)
      | Ok _ =>
          match delete_by_key db (name st) (Key_encode primaryKey false) with
          | SqlOk _ db' =>
              match insertData st db' encoded value' primaryKey with
              | Now f => Later db' (fault_completion f)
              | Later db'' c => Later db'' c
              end
          | SqlFail err => Later db (CError err)
          end
      end).

(** The procedure [objectStoreGet] queued by [get], for the encoded key. *)
Definition objectStoreGet (st : Store) (primaryKey : string) : Proc :=
  fun db =>
    match select_by_key db (name st) primaryKey with
    | SqlOk rows _ =>
        match rows with
        | [] => (db, SIssued (CTry (CSuccess VUndefined None) (CSuccess VUndefined None)))
        | row :: _ =>
            match Sca_decode (default "" (row !! "value")) with
            | Ok value => (db, SIssued (CSuccess value None))
            | Throw e => (db, SIssued (CSuccess VUndefined None))
            end
        end
    | SqlFail err => (db, SIssued (CError err))
    end.

(** The procedure [objectStoreDelete] queued by [delete]. *)
Definition objectStoreDelete (st : Store) (primaryKey : string) : Proc :=
  fun db =>
    match delete_by_key db (name st) primaryKey with
    | SqlOk _ db' => (db', SIssued (CSuccess VUndefined None))
    | SqlFail err => (db, SIssued (CError err))
    end.

(** The procedure [objectStoreClear] queued by [clear]. *)
Definition objectStoreClear (st : Store) : Proc :=
  fun db =>
    match delete_all db (name st) with
    | SqlOk _ db' => (db', SIssued (CSuccess VUndefined None))
    | SqlFail err => (db, SIssued (CError err))
    end.

(** The procedure [objectStoreCount] queued by [count] for a key that is
    not a key range. *)
Definition objectStoreCount (st : Store) (key : Value) : Proc :=
  fun db =>
    match (if is_undefined key then select_all db (name st)
           else select_by_key db (name st) (Key_encode key false)) with
    | SqlOk rows _ => (db, SIssued (CSuccess (VNum (Z.of_nat (length rows))) None))
    | SqlFail err => (db, SIssued (CError err))
    end.

End Facade.

(** ** The transaction and its scheduler *)

Inductive Mode : Type := READ_ONLY | READ_WRITE | VERSION_CHANGE.

(** One element of [__requests]: [{op, args, req}], the request given by
    its identifier. *)
Record Entry : Type := mkEntry {
  e_op : Proc;
  e_args : Value;
  e_req : nat
}.

(** A call of the façade on a store of the transaction, or of
    [__addToTransactionQueue] with a procedure of another module. *)
Inductive Call : Type :=
| MAdd (st : Store) (args : list Value)
| MPut (st : Store) (args : list Value)
| MGet (st : Store) (args : list Value)
| MDelete (st : Store) (args : list Value)
| MClear (st : Store)
| MCount (st : Store) (args : list Value)
| MRaw (op : Proc).

(** What the code of a caller or of an event handler does to the
    transaction: it makes a call and installs handlers on the request it
    gets back, it calls [abort()], or it throws. *)
Inductive Action : Type :=
| ARequest (c : Call) (onsuccess onerror : list Action)
| AAbort
| AThrow (e : Exn).

Inductive ReadyState : Type := Pending | Done.

(** An [IDBRequest]. [rq_error] is [None] when the property is unset. *)
Record Request : Type := mkRequest {
  readyState : ReadyState;
  result : Value;
  rq_error : option Exn;
  onsuccess : list Action;
  onerror : list Action
}.

(** What the transaction lets its environment observe. *)
Inductive Event : Type :=
| EvEnqueue (req : nat)              (* a request entered [__requests] *)
| EvOp (i : nat) (req : nat)         (* [q.op] was called for [__requests[i]] *)
| EvRebind (req : nat)               (* [q.req = req] *)
| EvSuccess (req : nat) (v : Value)  (* "success" fired on a request *)
| EvError (req : nat) (e : Exn)      (* "error" fired on a request *)
| EvLogError (e : Exn)               (* [util.logError] in [transactionError] *)
| EvTxError (e : Exn)                (* "error" fired on the transaction *)
| EvDbError (e : Exn)                (* "error" fired on the database *)
| EvComplete                         (* "complete" fired: [oncomplete] *)
| EvInternalComplete                 (* "complete" fired: [__oncomplete] *)
| EvAbort                            (* "abort" fired *)
| EvUncaught (e : Exn).              (* an exception left a timer or caller turn *)

(** The start of a transaction: the constructor's timer is pending;
    [__executeRequests] has asked for the WebSQL transaction; the
    transaction callback has run; a callback threw [e], so that WebSQL
    stops and will call the error callback; the error callback has run. *)
Inductive Phase : Type :=
| Scheduled
| Opening
| Open
| Faulted (e : Exn)
| Failed.

Record State : Type := mkState {
  (** [__active] *)
  tx_active : bool;
  (** [__running] *)
  tx_running : bool;
  (** [__errored] *)
  tx_errored : bool;
  (** [__requests] *)
  tx_requests : list Entry;
  (** [mode] *)
  tx_mode : Mode;
  (** [error] *)
  tx_error : option Exn;
  (** the handlers installed on the transaction and on its database *)
  tx_onabort : list Action;
  tx_onerror : list Action;
  tx_oncomplete : list Action;
  tx_internal_oncomplete : list Action;
  db_onerror : list Action;
  (** the variables [q] and [i] of the closure [executeRequests] *)
  cl_q : option Entry;
  cl_i : nat;
  (** every request object created so far, by identifier *)
  heap : list Request;
  (** the database behind the WebSQL transaction *)
  backend : Backend;
  (** the pending statement callback of the running procedure *)
  inflight : option Completion;
  (** [setTimeout] callbacks scheduled by [abort] and not yet run *)
  abort_timers : nat;
  (** how far the start of the transaction has come *)
  phase : Phase;
  (** what has been observed so far, oldest first *)
  trace : list Event
}.

Definition set_tx_active (x : bool) (s : State) : State :=
  {| tx_active := x;
     tx_running := tx_running s;
     tx_errored := tx_errored s;
     tx_requests := tx_requests s;
     tx_mode := tx_mode s;
     tx_error := tx_error s;
     tx_onabort := tx_onabort s;
     tx_onerror := tx_onerror s;
     tx_oncomplete := tx_oncomplete s;
     tx_internal_oncomplete := tx_internal_oncomplete s;
     db_onerror := db_onerror s;
     cl_q := cl_q s;
     cl_i := cl_i s;
     heap := heap s;
     backend := backend s;
     inflight := inflight s;
     abort_timers := abort_timers s;
     phase := phase s;
     trace := trace s |}.

Definition set_tx_running (x : bool) (s : State) : State :=
  {| tx_active := tx_active s;
     tx_running := x;
     tx_errored := tx_errored s;
     tx_requests := tx_requests s;
     tx_mode := tx_mode s;
     tx_error := tx_error s;
     tx_onabort := tx_onabort s;
     tx_onerror := tx_onerror s;
     tx_oncomplete := tx_oncomplete s;
     tx_internal_oncomplete := tx_internal_oncomplete s;
     db_onerror := db_onerror s;
     cl_q := cl_q s;
     cl_i := cl_i s;
     heap := heap s;
     backend := backend s;
     inflight := inflight s;
     abort_timers := abort_timers s;
     phase := phase s;
     trace := trace s |}.

Definition set_tx_errored (x : bool) (s : State) : State :=
  {| tx_active := tx_active s;
     tx_running := tx_running s;
     tx_errored := x;
     tx_requests := tx_requests s;
     tx_mode := tx_mode s;
     tx_error := tx_error s;
     tx_onabort := tx_onabort s;
     tx_onerror := tx_onerror s;
     tx_oncomplete := tx_oncomplete s;
     tx_internal_oncomplete := tx_internal_oncomplete s;
     db_onerror := db_onerror s;
     cl_q := cl_q s;
     cl_i := cl_i s;
     heap := heap s;
     backend := backend s;
     inflight := inflight s;
     abort_timers := abort_timers s;
     phase := phase s;
     trace := trace s |}.

Definition set_tx_requests (x : list Entry) (s : State) : State :=
  {| tx_active := tx_active s;
     tx_running := tx_running s;
     tx_errored := tx_errored s;
     tx_requests := x;
     tx_mode := tx_mode s;
     tx_error := tx_error s;
     tx_onabort := tx_onabort s;
     tx_onerror := tx_onerror s;
     tx_oncomplete := tx_oncomplete s;
     tx_internal_oncomplete := tx_internal_oncomplete s;
     db_onerror := db_onerror s;
     cl_q := cl_q s;
     cl_i := cl_i s;
     heap := heap s;
     backend := backend s;
     inflight := inflight s;
     abort_timers := abort_timers s;
     phase := phase s;
     trace := trace s |}.

Definition set_tx_error (x : option Exn) (s : State) : State :=
  {| tx_active := tx_active s;
     tx_running := tx_running s;
     tx_errored := tx_errored s;
     tx_requests := tx_requests s;
     tx_mode := tx_mode s;
     tx_error := x;
     tx_onabort := tx_onabort s;
     tx_onerror := tx_onerror s;
     tx_oncomplete := tx_oncomplete s;
     tx_internal_oncomplete := tx_internal_oncomplete s;
     db_onerror := db_onerror s;
     cl_q := cl_q s;
     cl_i := cl_i s;
     heap := heap s;
     backend := backend s;
     inflight := inflight s;
     abort_timers := abort_timers s;
     phase := phase s;
     trace := trace s |}.

Definition set_cl_q (x : option Entry) (s : State) : State :=
  {| tx_active := tx_active s;
     tx_running := tx_running s;
     tx_errored := tx_errored s;
     tx_requests := tx_requests s;
     tx_mode := tx_mode s;
     tx_error := tx_error s;
     tx_onabort := tx_onabort s;
     tx_onerror := tx_onerror s;
     tx_oncomplete := tx_oncomplete s;
     tx_internal_oncomplete := tx_internal_oncomplete s;
     db_onerror := db_onerror s;
     cl_q := x;
     cl_i := cl_i s;
     heap := heap s;
     backend := backend s;
     inflight := inflight s;
     abort_timers := abort_timers s;
     phase := phase s;
     trace := trace s |}.

Definition set_cl_i (x : nat) (s : State) : State :=
  {| tx_active := tx_active s;
     tx_running := tx_running s;
     tx_errored := tx_errored s;
     tx_requests := tx_requests s;
     tx_mode := tx_mode s;
     tx_error := tx_error s;
     tx_onabort := tx_onabort s;
     tx_onerror := tx_onerror s;
     tx_oncomplete := tx_oncomplete s;
     tx_internal_oncomplete := tx_internal_oncomplete s;
     db_onerror := db_onerror s;
     cl_q := cl_q s;
     cl_i := x;
     heap := heap s;
     backend := backend s;
     inflight := inflight s;
     abort_timers := abort_timers s;
     phase := phase s;
     trace := trace s |}.

Definition set_heap (x : list Request) (s : State) : State :=
  {| tx_active := tx_active s;
     tx_running := tx_running s;
     tx_errored := tx_errored s;
     tx_requests := tx_requests s;
     tx_mode := tx_mode s;
     tx_error := tx_error s;
     tx_onabort := tx_onabort s;
     tx_onerror := tx_onerror s;
     tx_oncomplete := tx_oncomplete s;
     tx_internal_oncomplete := tx_internal_oncomplete s;
     db_onerror := db_onerror s;
     cl_q := cl_q s;
     cl_i := cl_i s;
     heap := x;
     backend := backend s;
     inflight := inflight s;
     abort_timers := abort_timers s;
     phase := phase s;
     trace := trace s |}.

Definition set_backend (x : Backend) (s : State) : State :=
  {| tx_active := tx_active s;
     tx_running := tx_running s;
     tx_errored := tx_errored s;
     tx_requests := tx_requests s;
     tx_mode := tx_mode s;
     tx_error := tx_error s;
     tx_onabort := tx_onabort s;
     tx_onerror := tx_onerror s;
     tx_oncomplete := tx_oncomplete s;
     tx_internal_oncomplete := tx_internal_oncomplete s;
     db_onerror := db_onerror s;
     cl_q := cl_q s;
     cl_i := cl_i s;
     heap := heap s;
     backend := x;
     inflight := inflight s;
     abort_timers := abort_timers s;
     phase := phase s;
     trace := trace s |}.

Definition set_inflight (x : option Completion) (s : State) : State :=
  {| tx_active := tx_active s;
     tx_running := tx_running s;
     tx_errored := tx_errored s;
     tx_requests := tx_requests s;
     tx_mode := tx_mode s;
     tx_error := tx_error s;
     tx_onabort := tx_onabort s;
     tx_onerror := tx_onerror s;
     tx_oncomplete := tx_oncomplete s;
     tx_internal_oncomplete := tx_internal_oncomplete s;
     db_onerror := db_onerror s;
     cl_q := cl_q s;
     cl_i := cl_i s;
     heap := heap s;
     backend := backend s;
     inflight := x;
     abort_timers := abort_timers s;
     phase := phase s;
     trace := trace s |}.

Definition set_abort_timers (x : nat) (s : State) : State :=
  {| tx_active := tx_active s;
     tx_running := tx_running s;
     tx_errored := tx_errored s;
     tx_requests := tx_requests s;
     tx_mode := tx_mode s;
     tx_error := tx_error s;
     tx_onabort := tx_onabort s;
     tx_onerror := tx_onerror s;
     tx_oncomplete := tx_oncomplete s;
     tx_internal_oncomplete := tx_internal_oncomplete s;
     db_onerror := db_onerror s;
     cl_q := cl_q s;
     cl_i := cl_i s;
     heap := heap s;
     backend := backend s;
     inflight := inflight s;
     abort_timers := x;
     phase := phase s;
     trace := trace s |}.

Definition set_phase (x : Phase) (s : State) : State :=
  {| tx_active := tx_active s;
     tx_running := tx_running s;
     tx_errored := tx_errored s;
     tx_requests := tx_requests s;
     tx_mode := tx_mode s;
     tx_error := tx_error s;
     tx_onabort := tx_onabort s;
     tx_onerror := tx_onerror s;
     tx_oncomplete := tx_oncomplete s;
     tx_internal_oncomplete := tx_internal_oncomplete s;
     db_onerror := db_onerror s;
     cl_q := cl_q s;
     cl_i := cl_i s;
     heap := heap s;
     backend := backend s;
     inflight := inflight s;
     abort_timers := abort_timers s;
     phase := x;
     trace := trace s |}.

Definition set_trace (x : list Event) (s : State) : State :=
  {| tx_active := tx_active s;
     tx_running := tx_running s;
     tx_errored := tx_errored s;
     tx_requests := tx_requests s;
     tx_mode := tx_mode s;
     tx_error := tx_error s;
     tx_onabort := tx_onabort s;
     tx_onerror := tx_onerror s;
     tx_oncomplete := tx_oncomplete s;
     tx_internal_oncomplete := tx_internal_oncomplete s;
     db_onerror := db_onerror s;
     cl_q := cl_q s;
     cl_i := cl_i s;
     heap := heap s;
     backend := backend s;
     inflight := inflight s;
     abort_timers := abort_timers s;
     phase := phase s;
     trace := x |}.

(** ** The state-and-exception monad

    A JavaScript function becomes a computation that transforms the state
    and either returns or throws; what it did before a throw stays done. *)

Definition M (A : Type) : Type := State -> Res A * State.

Definition ret {A : Type} (a : A) : M A := fun s => (Ok a, s).

Definition bind {A B : Type} (m : M A) (f : A -> M B) : M B :=
  fun s =>
    match m s with
    | (Ok a, s') => f a s'
    | (Throw e, s') => (Throw e, s')
    end.

Definition throw {A : Type} (e : Exn) : M A := fun s => (Throw e, s).

Definition lift {A : Type} (r : Res A) : M A := fun s => (r, s).

Definition get : M State := fun s => (Ok s, s).

Definition modify (f : State -> State) : M unit := fun s => (Ok tt, f s).

(** [try { m } catch (e) { h e }] *)
Definition try_catch {A : Type} (m : M A) (h : Exn -> M A) : M A :=
  fun s =>
    match m s with
    | (Ok a, s') => (Ok a, s')
    | (Throw e, s') => h e s'
    end.

(** [try { m } finally { f }]: a throw of [f] replaces the outcome of [m]. *)
Definition try_finally {A : Type} (m : M A) (f : M unit) : M A :=
  fun s =>
    match m s with
    | (r, s1) =>
        match f s1 with
        | (Ok _, s2) => (r, s2)
        | (Throw e, s2) => (Throw e, s2)
        end
    end.

Notation "'let*' x ':=' m 'in' k" := (bind m (fun x => k))
  (at level 10, x name, m at level 100, k at level 200).
Notation "m >> k" := (bind m (fun _ => k))
  (at level 90, right associativity).

Section Scheduler.
Context `{Collaborators}.

Definition emit (e : Event) : M unit :=
  modify (fun s => set_trace (trace s ++ [e]) s).

(** A fresh [IDBRequest]. *)
Definition new_request : Request :=
  {| readyState := Pending; result := VUndefined; rq_error := None;
     onsuccess := []; onerror := [] |}.

(** [IDBTransaction.prototype.__createRequest] *)
Definition createRequest : M nat :=
  fun s => (Ok (length (heap s)), set_heap (heap s ++ [new_request]) s).

(** [IDBTransaction.prototype.__assertActive] *)
Definition assertActive : M unit :=
  let* s := get in
  if tx_active s then ret tt
  else throw (DOMException "TransactionInactiveError").

(** [IDBTransaction.prototype.__pushToQueue] *)
Definition pushToQueue (request : nat) (callback : Proc) (args : Value) : M unit :=
  assertActive >>
  modify (fun s => set_tx_requests (tx_requests s ++ [mkEntry callback args request]) s) >>
  emit (EvEnqueue request).

(** [IDBTransaction.prototype.__addToTransactionQueue] *)
Definition addToTransactionQueue (callback : Proc) (args : Value) : M nat :=
  let* request := createRequest in
  pushToQueue request callback args >>
  ret request.

(** [IDBTransaction.prototype.__assertWritable] *)
Definition assertWritable : M unit :=
  let* s := get in
  match tx_mode s with
  | READ_ONLY => throw (DOMException "ReadOnlyError")
  | _ => ret tt
  end.

(** [IDBTransaction.prototype.abort]: the event is fired from a timer. *)
Definition abort : M unit :=
  modify (set_tx_active false) >>
  modify (fun s => set_abort_timers (S (abort_timers s)) s).

(** The [n]-th argument of a call, [undefined] when it is not passed. *)
Definition arg (n : nat) (args : list Value) : Value :=
  default VUndefined (args !! n).

(** [IDBObjectStore.prototype.add] *)
Definition add (st : Store) (args : list Value) : M nat :=
  let value := arg 0 args in
  let key := arg 1 args in
  if (length args =? 0)%nat then throw TypeError
  else
    lift (validateKey st value key) >>
    assertWritable >>
    let* request := createRequest in
    pushToQueue request (objectStoreAdd st value key) VUndefined >>
    ret request.

(** [IDBObjectStore.prototype.put] *)
Definition put (st : Store) (args : list Value) : M nat :=
  let value := arg 0 args in
  let key := arg 1 args in
  if (length args =? 0)%nat then throw TypeError
  else
    lift (validateKey st value key) >>
    assertWritable >>
    let* request := createRequest in
    pushToQueue request (objectStorePut st value key) VUndefined >>
    ret request.

(** [IDBObjectStore.prototype.get] *)
Definition get_ (st : Store) (args : list Value) : M nat :=
  let key := arg 0 args in
  if (length args =? 0)%nat then throw TypeError
  else
    lift (Key_validate key) >>
    let primaryKey := Key_encode key false in
    addToTransactionQueue (objectStoreGet st primaryKey) VUndefined.

(** [IDBObjectStore.prototype["delete"]] *)
Definition delete_ (st : Store) (args : list Value) : M nat :=
  let key := arg 0 args in
  if (length args =? 0)%nat then throw TypeError
  else
    assertWritable >>
    lift (Key_validate key) >>
    let primaryKey := Key_encode key false in
    addToTransactionQueue (objectStoreDelete st primaryKey) VUndefined.

(** [IDBObjectStore.prototype.clear] *)
Definition clear (st : Store) : M nat :=
  assertWritable >>
  addToTransactionQueue (objectStoreClear st) VUndefined.

(** [IDBObjectStore.prototype.count], for a key that is not a key range
    (a range goes to the cursor module, which is not in the source file). *)
Definition count (st : Store) (args : list Value) : M nat :=
  let key := arg 0 args in
  (if is_undefined key then ret tt else lift (Key_validate key)) >>
  addToTransactionQueue (objectStoreCount st key) VUndefined.

Definition run_call (c : Call) : M nat :=
  match c with
  | MAdd st args => add st args
  | MPut st args => put st args
  | MGet st args => get_ st args
  | MDelete st args => delete_ st args
  | MClear st => clear st
  | MCount st args => count st args
  | MRaw op => addToTransactionQueue op VUndefined
  end.

(** [request.onsuccess = ...; request.onerror = ...] *)
Definition install (r : nat) (hs he : list Action) : M unit :=
  modify (fun s =>
    set_heap (alter (fun rq => {| readyState := readyState rq; result := result rq;
                                  rq_error := rq_error rq;
                                  onsuccess := hs; onerror := he |}) r (heap s)) s).

Definition run_action (a : Action) : M unit :=
  match a with
  | ARequest c hs he => let* r := run_call c in install r hs he
  | AAbort => abort
  | AThrow e => throw e
  end.

Fixpoint run_actions (l : list Action) : M unit :=
  match l with
  | [] => ret tt
  | a :: l' => run_action a >> run_actions l'
  end.

(** Modelled from the spec: [idbModules.util.callback] is not in the source
    file; it "fires the notification", calling the handler installed under
    that name, whose throw reaches the caller. *)
Definition callback (ev : Event) (handler : list Action) : M unit :=
  emit ev >> run_actions handler.

(** [transactionFinished], inside [__executeRequests] *)
Definition transactionFinished : M unit :=
  try_catch
    (let* s := get in
     callback EvComplete (tx_oncomplete s) >>
     callback EvInternalComplete (tx_internal_oncomplete s))
    (fun e => modify (set_tx_errored true) >> throw e).

(** [transactionError], inside [__executeRequests] *)
Definition transactionError (err : Exn) : M unit :=
  emit (EvLogError err) >>
  let* s := get in
  if tx_errored s then ret tt
  else
    modify (set_tx_errored true) >>
    if negb (tx_active s) then throw err
    else
      try_finally
        (modify (set_tx_error (Some err)) >>
         callback (EvTxError err) (tx_onerror s) >>
         callback (EvDbError err) (db_onerror s))
        abort.

(** The entry [q] of the closure; reading a property of [null] throws. *)
Definition current_q : M Entry :=
  let* s := get in
  match cl_q s with
  | Some q => ret q
  | None => throw TypeError
  end.

Definition update_request (r : nat) (f : Request -> Request) : M unit :=
  modify (fun s => set_heap (alter f r (heap s)) s).

Definition handler_of (r : nat) (sel : Request -> list Action) : M (list Action) :=
  let* s := get in
  ret (match heap s !! r with Some rq => sel rq | None => [] end).

(** [error], inside [executeRequests]; [err] is what [util.findError]
    picks among the arguments. *)
Definition error (err : Exn) : M unit :=
  try_finally
    (let* q := current_q in
     update_request (e_req q) (fun rq =>
       {| readyState := Done;
          result := VUndefined;
          rq_error := Some (if exn_truthy err then err else Thrown (VStr "DOMError"));
          onsuccess := onsuccess rq; onerror := onerror rq |}) >>
     let* h := handler_of (e_req q) onerror in
     callback (EvError (e_req q) err) h)
    (transactionError err).

(** [q.op(tx, q.args, success, error)] *)
Definition invoke (q : Entry) : M unit :=
  let* s := get in
  emit (EvOp (cl_i s) (e_req q)) >>
  match e_op q (backend s) with
  | (db', outcome) =>
      modify (set_backend db') >>
      match outcome with
      | SThrow e => throw e
      | SError e => error e
      | SIssued c => modify (set_inflight (Some c))
      | SIdle => ret tt
      end
  end.

(** [executeNextRequest], inside [executeRequests] *)
Definition executeNextRequest : M unit :=
  let* s := get in
  if (length (tx_requests s) <=? cl_i s)%nat then
    modify (set_tx_requests []) >>
    if tx_active s then
      modify (set_tx_active false) >>
      transactionFinished
    else ret tt
  else
    try_catch
      (match tx_requests s !! cl_i s with
       | Some q => modify (set_cl_q (Some q)) >> invoke q
       | None => ret tt
       end)
      (fun e => error e).

(** [success], inside [executeRequests].  [q.req = req] is recorded in the
    closure's [q]; the queue is not read again at that index. *)
Definition success (result : Value) (req : option nat) : M unit :=
  let* q0 := current_q in
  match req with
  | Some r =>
      modify (set_cl_q (Some {| e_op := e_op q0; e_args := e_args q0; e_req := r |})) >>
      emit (EvRebind r)
  | None => ret tt
  end >>
  let* q := current_q in
  update_request (e_req q) (fun rq =>
    {| readyState := Done;
       result := result;
       rq_error := None;
       onsuccess := onsuccess rq; onerror := onerror rq |}) >>
  let* h := handler_of (e_req q) onsuccess in
  callback (EvSuccess (e_req q) result) h >>
  modify (fun s => set_cl_i (S (cl_i s)) s) >>
  executeNextRequest.

(** The last statement callback of the running procedure. *)
Fixpoint deliver (c : Completion) : M unit :=
  match c with
  | CSuccess result req => success result req
  | CError e => error e
  | CThrow e => throw e
  | CTry body handler => try_catch (deliver body) (fun _ => deliver handler)
  end.

(** [IDBTransaction.prototype.__executeRequests], up to the request for a
    WebSQL transaction. *)
Definition executeRequests : M unit :=
  let* s := get in
  if tx_running s then ret tt
  else
    modify (set_tx_running true) >>
    modify (set_phase Opening).

(** The transaction callback [executeRequests(tx)]. *)
Definition transactionCallback : M unit :=
  modify (set_cl_q None) >>
  modify (set_cl_i 0%nat) >>
  executeNextRequest.

(** ** The event loop *)

(** A turn started by a timer or by the caller: an exception that leaves
    it is uncaught. *)
Definition turn (m : M unit) (s : State) : State :=
  match m s with
  | (Ok _, s') => s'
  | (Throw e, s') => set_trace (trace s' ++ [EvUncaught e]) s'
  end.

(** A turn started by WebSQL: an exception that leaves a callback makes
    the WebSQL transaction fail with it. *)
Definition websql_turn (m : M unit) (s : State) : State :=
  match m s with
  | (Ok _, s') => s'
  | (Throw e, s') => set_phase (Faulted e) s'
  end.

(** The turns of the event loop.  WebSQL calls the transaction callback
    once, then the callback of the statement in flight; it may call the
    error callback [webSqlError] with any error once the transaction was
    asked for, and calls nothing else after a callback threw. *)
Inductive Label : Type :=
| LExecuteRequests            (* the timer set by the constructor *)
| LTransaction                (* WebSQL calls [executeRequests(tx)] *)
| LStatement                  (* WebSQL calls the pending statement callback *)
| LWebSqlError (e : Exn)      (* WebSQL calls [webSqlError(e)] *)
| LAbortTimer                 (* a timer set by [abort] *)
| LCaller (script : list Action). (* code of the caller *)

(** One turn; [None] when the turn cannot happen in this state. *)
Definition fire (l : Label) (s : State) : option State :=
  match l with
  | LExecuteRequests =>
      match phase s with
      | Scheduled => Some (turn executeRequests s)
      | _ => None
      end
  | LTransaction =>
      match phase s with
      | Opening => Some (websql_turn transactionCallback (set_phase Open s))
      | _ => None
      end
  | LStatement =>
      match phase s, inflight s with
      | Open, Some c => Some (websql_turn (deliver c) (set_inflight None s))
      | _, _ => None
      end
  | LWebSqlError e =>
      match phase s with
      | Opening | Open | Faulted _ =>
          Some (turn (transactionError e) (set_phase Failed s))
      | _ => None
      end
  | LAbortTimer =>
      match abort_timers s with
      | S n => Some (turn (callback EvAbort (tx_onabort s)) (set_abort_timers n s))
      | O => None
      end
  | LCaller script => Some (turn (run_actions script) s)
  end.

(** A schedule of turns. *)
Fixpoint run (sched : list Label) (s : State) : option State :=
  match sched with
  | [] => Some s
  | l :: sched' =>
      match fire l s with
      | Some s' => run sched' s'
      | None => None
      end
  end.

(** [new IDBTransaction(db, storeNames, mode)], with the handlers the
    caller installs on it. *)
Definition new_transaction (mode : Mode) (db : Backend)
    (onabort onerror oncomplete internal_oncomplete dberror : list Action) : State :=
  {| tx_active := true; tx_running := false; tx_errored := false;
     tx_requests := []; tx_mode := mode; tx_error := None;
     tx_onabort := onabort; tx_onerror := onerror;
     tx_oncomplete := oncomplete;
     tx_internal_oncomplete := internal_oncomplete;
     db_onerror := dberror;
     cl_q := None; cl_i := 0%nat; heap := []; backend := db;
     inflight := None; abort_timers := 0%nat; phase := Scheduled;
     trace := [] |}.

End Scheduler.

(** ** A small instance of the collaborators, for concrete runs

    Keys are numbers and strings; a key path is a property name; the value
    codec handles primitives and fails on the text it writes for
    anything else. *)

Fixpoint lookup_field (p : string) (fields : list (string * Value)) : Value :=
  match fields with
  | [] => VUndefined
  | (k, v) :: rest => if String.eqb k p then v else lookup_field p rest
  end.

Definition toy_getValue (value keyPath : Value) : Value :=
  match value, keyPath with
  | VObj fields, VStr p => lookup_field p fields
  | _, _ => VUndefined
  end.

Definition toy_setValue (value keyPath key : Value) : Res Value :=
  match value, keyPath with
  | VObj fields, VStr p => Ok (VObj ((p, key) :: fields))
  | _, _ => Throw TypeError
  end.

Definition toy_valid (key : Value) : bool :=
  match key with
  | VNum _ | VStr _ => true
  | _ => false
  end.

Definition digit (n : N) : ascii := ascii_of_N (48 + n).

Fixpoint digits (fuel : nat) (n : N) (acc : string) : string :=
  match fuel with
  | O => acc
  | S fuel' =>
      let acc' := String (digit (n mod 10)) acc in
      if (n / 10 =? 0)%N then acc' else digits fuel' (n / 10)%N acc'
  end.

Definition show_Z (n : Z) : string :=
  String.append (if n <? 0 then "-" else "")
    (digits (S (N.to_nat (N.log2 (Z.abs_N n)))) (Z.abs_N n) "").

Fixpoint read_N (s : string) (acc : N) : option N :=
  match s with
  | EmptyString => Some acc
  | String c s' =>
      let d := N_of_ascii c in
      if ((48 <=? d) && (d <=? 57))%N then read_N s' (acc * 10 + (d - 48))%N
      else None
  end.

Definition read_Z (s : string) : option Z :=
  match s with
  | EmptyString => None
  | String "-" s' =>
      match s' with
      | EmptyString => None
      | _ => option_map (fun n => - Z.of_N n) (read_N s' 0%N)
      end
  | _ => option_map Z.of_N (read_N s 0%N)
  end.

Definition toy_encode (v : Value) : string :=
  match v with
  | VUndefined => "u"
  | VNull => "z"
  | VBool true => "t"
  | VBool false => "f"
  | VNum n => String "n" (show_Z n)
  | VStr s => String "s" s
  | VObj _ | VArr _ => "?"
  end.

Definition toy_decode (s : string) : Res Value :=
  match s with
  | String "u" EmptyString => Ok VUndefined
  | String "z" EmptyString => Ok VNull
  | String "t" EmptyString => Ok (VBool true)
  | String "f" EmptyString => Ok (VBool false)
  | String "n" s' =>
      match read_Z s' with
      | Some n => Ok (VNum n)
      | None => Throw (Thrown (VStr "SyntaxError"))
      end
  | String "s" s' => Ok (VStr s')
  | _ => Throw (Thrown (VStr "SyntaxError"))
  end.

Definition toy : Collaborators :=
  {| Key_getValue := toy_getValue;
     Key_setValue := toy_setValue;
     Key_valid := toy_valid;
     Key_encode := fun key _ => toy_encode key;
     Sca_encode := toy_encode;
     Sca_decode := toy_decode |}.

(** ** Assertions about computations *)

(** [hoare P m Q E]: from a state in [P], [m] returns [a] in a state in
    [Q a], or throws [e] in a state in [E e]. *)
Definition hoare {A : Type} (P : State -> Prop) (m : M A)
    (Q : A -> State -> Prop) (E : Exn -> State -> Prop) : Prop :=
  forall s, P s ->
    match m s with
    | (Ok a, s') => Q a s'
    | (Throw e, s') => E e s'
    end.

(** [inv I m]: [m] keeps [I], whether it returns or throws. *)
Definition inv {A : Type} (I : State -> Prop) (m : M A) : Prop :=
  hoare I m (fun _ => I) (fun _ => I).

(** The two events fired by [transactionFinished]. *)
Definition is_completion (e : Event) : bool :=
  match e with
  | EvComplete | EvInternalComplete => true
  | _ => false
  end.

(** The events that tell of a failure or of a timer, other than the
    "error" event of the transaction. *)
Definition is_silent (e : Event) : bool :=
  match e with
  | EvLogError _ | EvDbError _ | EvAbort | EvUncaught _ => true
  | _ => false
  end.

(** The events by which the scheduler tells of its work on the queue. *)
Definition is_bookkeeping (e : Event) : bool :=
  match e with
  | EvOp _ _ | EvRebind _ | EvSuccess _ _ | EvError _ _ => true
  | _ => false
  end.

(** A property of the state that the code of callers and handlers cannot
    break: they create requests, enqueue on an active transaction and call
    [abort()]; nor do the silent events break it. *)
Record UserStable (I : State -> Prop) : Prop := {
  us_event : forall e s, is_silent e = true -> I s -> I (set_trace (trace s ++ [e]) s);
  us_push : forall r p a s, tx_active s = true -> I s ->
            I (set_trace (trace s ++ [EvEnqueue r])
                 (set_tx_requests (tx_requests s ++ [mkEntry p a r]) s));
  us_heap : forall h s, I s -> I (set_heap h s);
  us_inactive : forall s, I s -> I (set_tx_active false s);
  us_timers : forall n s, I s -> I (set_abort_timers n s);
  us_errored : forall s, I s -> I (set_tx_errored true s);
  us_error : forall e s, I s -> I (set_tx_error e s)
}.
Arguments us_event {I}. Arguments us_push {I}. Arguments us_heap {I}.
Arguments us_inactive {I}. Arguments us_timers {I}. Arguments us_errored {I}.
Arguments us_error {I}.

(** A property of the state that the scheduler keeps: its bookkeeping
    keeps it, and so do the transaction-level error path and the end of a
    pass, which fire the terminal events. *)
Record Sched `{Collaborators} (I : State -> Prop) : Prop := {
  sch_user : UserStable I;
  sch_event : forall e s, is_bookkeeping e = true -> I s ->
              I (set_trace (trace s ++ [e]) s);
  sch_txerror : forall err, inv I (transactionError err);
  sch_finish : forall s, I s -> tx_active s = true ->
               I (transactionFinished (set_tx_active false (set_tx_requests [] s))).2;
  sch_reset : forall s, I s -> tx_active s = false -> I (set_tx_requests [] s);
  sch_running : forall s, I s -> I (set_tx_running true s);
  sch_q : forall q s, I s -> I (set_cl_q q s);
  sch_i : forall i s, I s -> I (set_cl_i i s);
  sch_backend : forall db s, I s -> I (set_backend db s);
  sch_inflight : forall c s, I s -> I (set_inflight c s);
  sch_phase : forall p s, I s -> I (set_phase p s)
}.
Arguments sch_user {_ I}. Arguments sch_event {_ I}. Arguments sch_txerror {_ I}.
Arguments sch_finish {_ I}. Arguments sch_reset {_ I}. Arguments sch_running {_ I}.
Arguments sch_q {_ I}. Arguments sch_i {_ I}. Arguments sch_backend {_ I}.
Arguments sch_inflight {_ I}. Arguments sch_phase {_ I}.

(** A property of the state that no assignment of the scheduler breaks;
    the completion events need to keep it only if it can hold while the
    transaction is active. *)
Record Stable (I : State -> Prop) : Prop := {
  stb_user : UserStable I;
  stb_event : forall e s, is_completion e = false -> I s -> I (set_trace (trace s ++ [e]) s);
  stb_complete : forall s0, I s0 -> tx_active s0 = true ->
                 forall e s, I s -> I (set_trace (trace s ++ [e]) s);
  stb_requests : forall l s, I s -> I (set_tx_requests l s);
  stb_running : forall s, I s -> I (set_tx_running true s);
  stb_q : forall q s, I s -> I (set_cl_q q s);
  stb_i : forall i s, I s -> I (set_cl_i i s);
  stb_backend : forall db s, I s -> I (set_backend db s);
  stb_inflight : forall c s, I s -> I (set_inflight c s);
  stb_phase : forall p s, I s -> I (set_phase p s)
}.
Arguments stb_user {I}. Arguments stb_event {I}. Arguments stb_complete {I}.
Arguments stb_requests {I}. Arguments stb_running {I}.
Arguments stb_q {I}. Arguments stb_i {I}. Arguments stb_backend {I}.
Arguments stb_inflight {I}. Arguments stb_phase {I}.

(** The trace starts with [t]. *)
Definition ext (t : list Event) (s : State) : Prop :=
  exists rest, trace s = t ++ rest.

(** How many times "complete" has fired (both handlers count). *)
Definition completions (tr : list Event) : nat :=
  length (filter (fun e => is_completion e = true) tr).

(** The transaction is inactive and has fired [n] completion events. *)
Definition inactive_with (n : nat) (s : State) : Prop :=
  tx_active s = false /\ completions (trace s) = n.

(** The two events that end a transaction by its own path: "complete" on
    the transaction, and "error" on the transaction. *)
Definition is_terminal (e : Event) : bool :=
  match e with
  | EvComplete | EvTxError _ => true
  | _ => false
  end.

Definition terminal (tr : list Event) : nat :=
  length (filter (fun e => is_terminal e = true) tr).

(** At most one of the two has fired. *)
Definition Ended (s : State) : Prop := (terminal (trace s) <= 1)%nat.

(** At most one of the two has fired, and none while the transaction is
    active. *)
Definition Terminal (s : State) : Prop :=
  (terminal (trace s) <= 1)%nat /\ (tx_active s = true -> terminal (trace s) = 0%nat).

(** The errors a completion can hand to the scheduler's [error]. *)
Fixpoint completion_errors (c : Completion) : list Exn :=
  match c with
  | CSuccess _ _ => []
  | CError e => [e]
  | CThrow _ => []
  | CTry body handler => completion_errors body ++ completion_errors handler
  end.

(** The errors a procedure can hand to [error]: those of its last
    callback, what it passes itself, and what it throws (which
    [executeNextRequest] catches and passes on). *)
Definition errors_of (o : SyncOutcome) : list Exn :=
  match o with
  | SThrow e => [e]
  | SError e => [e]
  | SIssued c => completion_errors c
  | SIdle => []
  end.

(** No index is named like a column of the store table itself. *)
Definition index_names_ok (st : Store) : Prop :=
  Forall (fun ix => idx_name ix <> "key" /\ idx_name ix <> "value") (indexes st).

(** The key [__deriveKey] finds without asking the key generator. *)
Definition given_key `{Collaborators} (st : Store) (value key : Value) : Value :=
  if truthy (keyPath st) then Key_getValue value (keyPath st) else key.

(** The state after a call has created request [r] and queued [p]. *)
Definition queued (p : Proc) (r : nat) (s : State) : State :=
  set_trace (trace s ++ [EvEnqueue r])
    (set_tx_requests (tx_requests s ++ [mkEntry p VUndefined r])
       (set_heap (heap s ++ [new_request]) s)).

(** The errors a piece of a procedure can hand to [error]. *)
Definition step_errors (s : Step) : list Exn :=
  match s with
  | Now (FError e) => [e]
  | Now (FThrow e) => [e]
  | Later _ c => completion_errors c
  end.

(** The errors a call can throw before it reaches the queue. *)
Definition argument_error (e : Exn) : Prop :=
  e = TypeError \/ e = DOMException "DataError" \/ e = DOMException "ReadOnlyError".


(** The request of the running entry, marked as succeeded with [v]. *)
Definition mark_success (v : Value) (s : State) (q : Entry) : State :=
  set_trace (trace s ++ [EvSuccess (e_req q) v])
    (set_heap (alter (fun rq =>
       {| readyState := Done; result := v; rq_error := None;
          onsuccess := onsuccess rq; onerror := onerror rq |})
       (e_req q) (heap s)) s).


(** The request of the running entry, marked as failed with [err]. *)
Definition mark_error (err : Exn) (s : State) (q : Entry) : State :=
  set_trace (trace s ++ [EvError (e_req q) err])
    (set_heap (alter (fun rq =>
       {| readyState := Done; result := VUndefined;
          rq_error := Some (if exn_truthy err then err else Thrown (VStr "DOMError"));
          onsuccess := onsuccess rq; onerror := onerror rq |})
       (e_req q) (heap s)) s).

(** The handler a request has for one of its two events. *)
Definition handler (sel : Request -> list Action) (r : nat) (s : State) : list Action :=
  match heap s !! r with
  | Some rq => sel rq
  | None => []
  end.

(** The state in which the procedure of [q] is called. *)
Definition calling (q : Entry) (s : State) : State :=
  set_trace (trace s ++ [EvOp (cl_i s) (e_req q)]) (set_cl_q (Some q) s).

(** What the call of a procedure does once [q] is set and the call is
    recorded. *)
Definition op_body `{Collaborators} (q : Entry) (s : State) : M unit :=
  match e_op q (backend s) with
  | (db', outcome) =>
      modify (set_backend db') >>
      match outcome with
      | SThrow x => throw x
      | SError x => error x
      | SIssued c => modify (set_inflight (Some c))
      | SIdle => ret tt
      end
  end.


(** ** Reading the order of execution off a trace

    [fifo] replays a trace and keeps: the requests enqueued so far, in
    order; how many procedures have been called; the request of the
    running entry ([q.req]); whether that request has had its "success" or
    "error" event since the procedure was called; and whether every event
    so far was in order. *)
Record Fifo : Type := mkFifo {
  f_enq : list nat;
  f_started : nat;
  f_cur : option nat;
  f_resolved : bool;
  f_ok : bool
}.

Definition fifo_init : Fifo := mkFifo [] 0 None true true.

(** A procedure is called in order when it is the one at the next queue
    position, for the request enqueued at that position, and the request
    of the procedure before it has had its event.  A "success" or "error"
    event is in order when it is on the request of the running entry. *)
Definition fifo_step (c : Fifo) (e : Event) : Fifo :=
  match e with
  | EvEnqueue r =>
      mkFifo (f_enq c ++ [r]) (f_started c) (f_cur c) (f_resolved c) (f_ok c)
  | EvOp i r =>
      mkFifo (f_enq c) (S (f_started c)) (Some r) false
        (f_ok c && bool_decide (i = f_started c) && f_resolved c
         && bool_decide (f_enq c !! f_started c = Some r))
  | EvRebind r =>
      mkFifo (f_enq c) (f_started c) (Some r) (f_resolved c)
        (f_ok c && bool_decide (f_cur c <> None))
  | EvSuccess r _ | EvError r _ =>
      mkFifo (f_enq c) (f_started c) (f_cur c) true
        (f_ok c && bool_decide (f_cur c = Some r))
  | _ => c
  end.

Definition fifo (tr : list Event) : Fifo := fold_left fifo_step tr fifo_init.

(** The procedures were called in the order of the queue, one after the
    other's event. *)
Definition in_order (tr : list Event) : bool := f_ok (fifo tr).

(** The queue was emptied at the end of a pass and the transaction is
    inactive. *)
Definition drained (s : State) : Prop :=
  tx_requests s = [] /\ tx_active s = false.

(** The transaction callback has not run yet. *)
Definition early (ph : Phase) : Prop := ph = Scheduled \/ ph = Opening.

(** How the scheduler's variables follow the trace: the queue holds the
    enqueued requests (until it is emptied), [q.req] is the request of the
    running entry, and the index [i] relates to the number of procedures
    called as [G] says. *)
Definition Core (ph : Phase) (G : nat -> bool -> nat -> Prop) (s : State) : Prop :=
  phase s = ph /\
  f_ok (fifo (trace s)) = true /\
  (map e_req (tx_requests s) = f_enq (fifo (trace s)) \/ drained s) /\
  f_cur (fifo (trace s)) = option_map e_req (cl_q s) /\
  (G (f_started (fifo (trace s))) (f_resolved (fifo (trace s))) (cl_i s) \/ drained s) /\
  (f_started (fifo (trace s)) = 0%nat ->
   f_cur (fifo (trace s)) = None /\ f_resolved (fifo (trace s)) = true) /\
  (early ph -> f_started (fifo (trace s)) = 0%nat).

(** Between two steps: no procedure was called yet and [i] is 0, or [i] is
    the position of the last procedure called. *)
Definition Rest (started : nat) (resolved : bool) (i : nat) : Prop :=
  (started = 0%nat /\ i = 0%nat) \/ started = S i.

(** In [success], after the event: [i] is the position of the last
    procedure called, whose request has had its event. *)
Definition Mid (started : nat) (resolved : bool) (i : nat) : Prop :=
  started = S i /\ resolved = true.

(** On entry to [executeNextRequest]: [i] is the next position, and the
    request of the procedure before has had its event. *)
Definition Ready (started : nat) (resolved : bool) (i : nat) : Prop :=
  i = started /\ resolved = true.

(** What holds of the scheduler between two turns. *)
Definition Consistent (s : State) : Prop := Core (phase s) Rest s.

(** ** A queue of operations that all succeed *)

(** A procedure that issues one statement, whose callback calls
    [success(v)]. *)
Definition succeeding (v : Value) : Proc :=
  fun db => (db, SIssued (CSuccess v None)).

Definition entry_of (r : nat) (v : Value) : Entry :=
  mkEntry (succeeding v) VUndefined r.

(** The caller enqueues one such operation per value and installs no
    handler. *)
Definition enqueue_all (vs : list Value) : list Action :=
  map (fun v => ARequest (MRaw (succeeding v)) [] []) vs.

(** The transaction starts and WebSQL answers [n] statements. *)
Definition pass_schedule (n : nat) : list Label :=
  [LExecuteRequests; LTransaction] ++ repeat LStatement n.

(** One call and one "success" event per operation, from position [i]. *)
Fixpoint pass_events (i : nat) (vs : list Value) : list Event :=
  match vs with
  | [] => []
  | v :: vs' => EvOp i i :: EvSuccess i v :: pass_events (S i) vs'
  end.

Definition enqueue_events (n : nat) : list Event := map EvEnqueue (seq 0 n).

(** The operations of [vs] are queued, with no handler anywhere, on a
    transaction that has not started. *)
Definition Queued (vs : list Value) (s : State) : Prop :=
  tx_active s = true /\ phase s = Scheduled /\ tx_running s = false /\
  tx_oncomplete s = [] /\ tx_internal_oncomplete s = [] /\
  tx_requests s = imap entry_of vs /\
  length (heap s) = length vs /\
  (forall k rq, heap s !! k = Some rq -> onsuccess rq = []) /\
  trace s = enqueue_events (length vs).

(** The operation at position [i] is in flight; the ones before it have
    succeeded. *)
Definition Running (vs : list Value) (i : nat) (s : State) : Prop :=
  tx_active s = true /\ phase s = Open /\
  tx_oncomplete s = [] /\ tx_internal_oncomplete s = [] /\
  tx_requests s = imap entry_of vs /\
  (forall k rq, heap s !! k = Some rq -> onsuccess rq = []) /\
  cl_i s = i /\
  (exists v, vs !! i = Some v /\
             cl_q s = Some (entry_of i v) /\
             inflight s = Some (CSuccess v None)) /\
  trace s = enqueue_events (length vs) ++ pass_events 0 (take i vs) ++ [EvOp i i].

(** Every operation has run and "complete" has fired. *)
Definition Finished (vs : list Value) (s : State) : Prop :=
  tx_active s = false /\
  trace s = enqueue_events (length vs) ++ pass_events 0 vs
            ++ [EvComplete; EvInternalComplete].

(** ** Concrete stores, databases and transactions *)

(** In-line keys under ["id"], without and with a key generator. *)
Definition st_people : Store :=
  {| name := "people"; keyPath := VStr "id"; autoIncrement := false; indexes := [] |}.

Definition st_people_auto : Store :=
  {| name := "people"; keyPath := VStr "id"; autoIncrement := true; indexes := [] |}.

(** Out-of-line keys, without and with a key generator. *)
Definition st_notes : Store :=
  {| name := "notes"; keyPath := VNull; autoIncrement := false; indexes := [] |}.


(** Two auto-increment stores whose names differ in one character, the
    first of which has [_] there. *)
Definition st_a_ : Store :=
  {| name := "a_"; keyPath := VNull; autoIncrement := true; indexes := [] |}.

Definition st_ab : Store :=
  {| name := "ab"; keyPath := VNull; autoIncrement := true; indexes := [] |}.

Definition db0 : Backend :=
  {| tables := {[ "people" := mkTable false []; "notes" := mkTable false [];
                  "log" := mkTable true []; "a_" := mkTable true [];
                  "ab" := mkTable true [] ]};
     sqlite_sequence := Some [] |}.

(** A read-write transaction on [db0] with no handler installed. *)
Definition tx0 : State := new_transaction READ_WRITE db0 [] [] [] [] [].

(** The caller queues two reads and then aborts, all before the
    transaction starts. *)
Definition two_gets_then_abort : list Action :=
  [ARequest (MGet st_notes [VNum 1]) [] [];
   ARequest (MGet st_notes [VNum 2]) [] [];
   AAbort].

(** [db0] after records were added to the two stores ["a_"] and ["ab"]:
    the first holds five, the second three. *)
Definition db_two_sequences : Backend :=
  {| tables := tables db0; sqlite_sequence := Some [("a_", 5); ("ab", 3)] |}.

(** The caller adds a record to ["a_"], one to ["ab"], and a second one to
    ["a_"], each time without a key. *)
Definition three_adds : list Action :=
  [ARequest (MAdd st_a_ [VStr "x"]) [] [];
   ARequest (MAdd st_ab [VStr "z"]) [] [];
   ARequest (MAdd st_a_ [VStr "y"]) [] []].

(** A transaction whose ["error"] handler calls [abort()]. *)
Definition tx_abort_on_error : State :=
  new_transaction READ_WRITE db0 [] [AAbort] [] [] [].

(** The caller adds two records under the same key. *)
Definition two_adds_same_key : list Action :=
  [ARequest (MAdd st_notes [VStr "x"; VNum 1]) [] [];
   ARequest (MAdd st_notes [VStr "y"; VNum 1]) [] []].

(** [db0] with one record in ["notes"], under the key 1. *)
Definition db_one_note : Backend :=
  {| tables := <["notes" := mkTable false
                   [{["key" := toy_encode (VNum 1); "value" := toy_encode (VStr "x")]}]]>
                 (tables db0);
     sqlite_sequence := sqlite_sequence db0 |}.

(** A request whose ["error"] handler throws. *)
Definition rq_throwing : Request :=
  {| readyState := Pending; result := VUndefined; rq_error := None;
     onsuccess := []; onerror := [AThrow TypeError] |}.

(** A started transaction whose running entry is a read for request 0. *)
Definition tx_running_get (rq : Request) : State :=
  let q := mkEntry (objectStoreGet (H:=toy) st_notes (toy_encode (VNum 1))) VUndefined 0 in
  set_cl_q (Some q)
    (set_tx_requests [q]
       (set_heap [rq]
          (set_phase Open
             (set_tx_running true (new_transaction READ_WRITE db_one_note [] [] [] [] []))))).

(** ** What a call queues, and what a run leaves alone *)

(** The procedure a call of the façade queues. *)
Definition procedure_of `{Collaborators} (c : Call) : Proc :=
  match c with
  | MAdd st args => objectStoreAdd st (arg 0 args) (arg 1 args)
  | MPut st args => objectStorePut st (arg 0 args) (arg 1 args)
  | MGet st args => objectStoreGet st (Key_encode (arg 0 args) false)
  | MDelete st args => objectStoreDelete st (Key_encode (arg 0 args) false)
  | MClear st => objectStoreClear st
  | MCount st args => objectStoreCount st (arg 0 args)
  | MRaw p => p
  end.

(** The rows of a store that a lookup by key returns. *)
Definition rows_with_key (db : Backend) (store k : string) : list (gmap string string) :=
  match tables db !! store with
  | Some t => filter (fun r => row_has_key k r = true) (t_rows t)
  | None => []
  end.

(** What [get] resolves with for a stored text: the decoded value, or
    [undefined] when decoding throws. *)
Definition decoded `{Collaborators} (encoded : string) : Value :=
  match Sca_decode encoded with
  | Ok v => v
  | Throw _ => VUndefined
  end.

(** What the insert callback of [__insertData] does with the key. *)
Definition insert_completion `{Collaborators} (primaryKey : Value) : Completion :=
  match Sca_decode (Sca_encode primaryKey) with
  | Ok primaryKey' => CSuccess primaryKey' None
  | Throw e => CThrow e
  end.

(** The zero-row branch of [get]: [success()] inside the [try], and
    [success(value)] with the unset [value] after the [catch]. *)
Definition get_nothing : Completion :=
  CTry (CSuccess VUndefined None) (CSuccess VUndefined None).




(** The events by which the queue moves on. *)
Definition is_progress (e : Event) : bool :=
  match e with
  | EvOp _ _ | EvRebind _ | EvSuccess _ _ | EvError _ _
  | EvComplete | EvInternalComplete => true
  | _ => false
  end.

Definition progress (tr : list Event) : list Event :=
  filter (fun e => is_progress e = true) tr.

(** No statement is in flight on a started transaction, and the queue has
    moved as [l] tells. *)
Definition Stalled (l : list Event) (s : State) : Prop :=
  inflight s = None /\ phase s <> Scheduled /\ phase s <> Opening /\
  progress (trace s) = l.

(** Every procedure queued so far has been called, and the request of the
    last one has had its "success" or "error" event. *)
Definition settled (c : Fifo) : bool :=
  bool_decide (f_started c = length (f_enq c)) && f_resolved c.

(** Whenever "complete" fired, the queue was settled. *)
Definition complete_when_settled (tr : list Event) : Prop :=
  forall pre post, tr = pre ++ EvComplete :: post -> settled (fifo pre) = true.

(** The scheduler follows its trace, and "complete" has fired only on a
    settled queue. *)
Definition Timely (ph : Phase) (G : nat -> bool -> nat -> Prop) (s : State) : Prop :=
  Core ph G s /\ complete_when_settled (trace s).

(** ** Read-only transactions *)

(** A call of the façade itself, not of another module. *)
Definition is_facade (c : Call) : bool :=
  match c with
  | MRaw _ => false
  | _ => true
  end.

(** A call that writes: [add], [put], [delete] or [clear]. *)
Definition is_write (c : Call) : bool :=
  match c with
  | MAdd _ _ | MPut _ _ | MDelete _ _ | MClear _ => true
  | _ => false
  end.

(** Code that reaches the transaction only through the façade, in its
    handlers too. *)
Fixpoint facade_only (a : Action) : bool :=
  match a with
  | ARequest c hs he => is_facade c && forallb facade_only hs && forallb facade_only he
  | AAbort => true
  | AThrow _ => true
  end.

Definition facade_script (l : list Action) : bool := forallb facade_only l.

Definition facade_label (l : Label) : bool :=
  match l with
  | LCaller script => facade_script script
  | _ => true
  end.

(** A procedure that leaves the database as it finds it. *)
Definition reads_only (p : Proc) : Prop := forall db, (p db).1 = db.

Definition facade_request (rq : Request) : Prop :=
  facade_script (onsuccess rq) = true /\ facade_script (onerror rq) = true.

(** A read-only transaction on the database [db], all of whose queued
    procedures only read and all of whose handlers use the façade. *)
Definition ReadOnly (db : Backend) (s : State) : Prop :=
  tx_mode s = READ_ONLY /\
  backend s = db /\
  Forall (fun e => reads_only (e_op e)) (tx_requests s) /\
  (forall q, cl_q s = Some q -> reads_only (e_op q)) /\
  Forall facade_request (heap s) /\
  facade_script (tx_onabort s) = true /\
  facade_script (tx_onerror s) = true /\
  facade_script (tx_oncomplete s) = true /\
  facade_script (tx_internal_oncomplete s) = true /\
  facade_script (db_onerror s) = true.

(** ** A transaction whose operations all succeed *)

(** What a queue of procedures does to the database when each issues
    statements whose last callback calls [success]: the values handed to
    [success], in order, and the database at the end. *)
Fixpoint outcomes (ps : list Proc) (db : Backend) : option (list Value * Backend) :=
  match ps with
  | [] => Some ([], db)
  | p :: ps' =>
      match p db with
      | (db1, SIssued (CSuccess v None)) =>
          match outcomes ps' db1 with
          | Some (vs, db2) => Some (v :: vs, db2)
          | None => None
          end
      | _ => None
      end
  end.

(** A call whose request gets no handler. *)
Definition plain (c : Call) : Action := ARequest c [] [].

(** A request without handlers that has succeeded with [v]. *)
Definition done_with (v : Value) : Request :=
  {| readyState := Done; result := v; rq_error := None; onsuccess := []; onerror := [] |}.

Definition entry_for (r : nat) (p : Proc) : Entry := mkEntry p VUndefined r.

(** The procedures [ps] are queued on a transaction on [db] that has not
    started, with no handler anywhere. *)
Definition Waiting (ps : list Proc) (db : Backend) (s : State) : Prop :=
  tx_active s = true /\ phase s = Scheduled /\ tx_running s = false /\
  tx_oncomplete s = [] /\ tx_internal_oncomplete s = [] /\
  tx_requests s = imap entry_for ps /\
  heap s = replicate (length ps) new_request /\
  backend s = db /\
  trace s = enqueue_events (length ps).

(** The procedure at position [i] has issued its statement; the ones
    before it have succeeded with the first [i] values of [vs]. *)
Definition InFlight (ps : list Proc) (vs : list Value) (db : Backend) (i : nat)
    (s : State) : Prop :=
  tx_active s = true /\ phase s = Open /\
  tx_oncomplete s = [] /\ tx_internal_oncomplete s = [] /\
  tx_requests s = imap entry_for ps /\
  heap s = map done_with (take i vs) ++ replicate (length ps - i) new_request /\
  cl_i s = i /\
  (exists p v, ps !! i = Some p /\ vs !! i = Some v /\
               cl_q s = Some (entry_for i p) /\
               inflight s = Some (CSuccess v None)) /\
  outcomes (take (S i) ps) db = Some (take (S i) vs, backend s) /\
  trace s = enqueue_events (length ps) ++ pass_events 0 (take i vs) ++ [EvOp i i].

(** Every operation has succeeded and "complete" has fired. *)
Definition Completed (n : nat) (vs : list Value) (db' : Backend) (s : State) : Prop :=
  tx_active s = false /\
  backend s = db' /\
  heap s = map done_with vs /\
  trace s = enqueue_events n ++ pass_events 0 vs ++ [EvComplete; EvInternalComplete].

(** The transaction is over: inactive and errored, with [n] terminal
    events and [m] completion events fired. *)
Definition Closed (n m : nat) (s : State) : Prop :=
  tx_active s = false /\ tx_errored s = true /\
  terminal (trace s) = n /\ completions (trace s) = m.

(** ** The store catalogue: constructor, clones, creation and deletion

    [JSON] is built in, and [idbModules.IDBIndex] and
    [idbModules.util.StringList] live in other files of the repository:
    they are taken as parameters. *)
Record IndexObject : Type := mkIndexObject {
  io_index : Index;
  (** [__deleted] *)
  io_deleted : bool
}.

Class Schema : Type := {
  JSON_parse : string -> Res Value;
  (** [JSON.stringify], on key paths and booleans *)
  JSON_stringify : Value -> string;
  (** [new idbModules.IDBIndex(store, indexProperties)] *)
  IDBIndex_new : Value -> IndexObject;
  (** [StringList.prototype.indexOf] and [splice], on the names pushed *)
  StringList_indexOf : list string -> string -> Z;
  StringList_splice : list string -> Z -> nat -> list string
}.

(** The [storeProperties] given to the constructor: a row of [__sys__], or
    the object [__clone] builds. *)
Record StoreProperties : Type := mkStoreProperties {
  sp_name : string;
  sp_keyPath : string;
  sp_autoInc : Value;
  sp_indexList : string
}.

(** An [IDBObjectStore]: [__indexes] holds every index, the deleted ones
    too.  Modelled from the spec: [indexNames] is a [StringList], of which
    the spec says "insertion order preserved for enumeration"; it is the
    list of the names pushed. *)
Record ObjectStore : Type := mkObjectStore {
  os_name : string;
  os_keyPath : Value;
  os_autoIncrement : bool;
  os_indexes : gmap string IndexObject;
  os_indexNames : list string
}.

(** The store as the façade reads it: [__indexes[indexNames[i]]] for each
    [i]. *)
Definition store_view (o : ObjectStore) : Store :=
  {| name := os_name o;
     keyPath := os_keyPath o;
     autoIncrement := os_autoIncrement o;
     indexes := omap (fun n => io_index <$> os_indexes o !! n) (os_indexNames o) |}.

(** What [for (var k in v) if (v.hasOwnProperty(k)) ... v[k]] visits. *)
Definition own_properties (v : Value) : list Value :=
  match v with
  | VObj fields => map snd fields
  | VArr items => items
  | VStr s => map (fun c => VStr (String c EmptyString)) (String.list_ascii_of_string s)
  | _ => []
  end.

Section Catalogue.
Context `{Collaborators} `{Schema}.

(** The [keyPath] of the constructor: the parsed text, or for a text that
    does not parse the old form of version 0.1.x. *)
Definition parse_keyPath (text : string) : Res Value :=
  match JSON_parse text with
  | Ok kp => Ok kp
  | Throw _ =>
      if (2 <? String.length text)%nat
         && match String.get 1 text with
            | Some c => Ascii.eqb c "-"%char
            | None => false
            end
      then Ok (VStr (String.substring 2 (String.length text - 2) text))
      else Throw (DOMException "InvalidKeyPathError")
  end.

(** [typeof autoInc === "string" ? autoInc === "true" : !!autoInc] *)
Definition parse_autoInc (autoInc : Value) : bool :=
  match autoInc with
  | VStr s => String.eqb s "true"
  | v => truthy v
  end.

(** The loop of the constructor over the parsed [indexList]. *)
Definition load_indexes (indexList : Value) : gmap string IndexObject * list string :=
  fold_left
    (fun acc props =>
       let index := IDBIndex_new props in
       (<[idx_name (io_index index) := index]> acc.1,
        if io_deleted index then acc.2 else acc.2 ++ [idx_name (io_index index)]))
    (own_properties indexList) (∅, []).

(** [new IDBObjectStore(storeProperties, transaction)] *)
Definition IDBObjectStore_new (sp : StoreProperties) : Res ObjectStore :=
  match parse_keyPath (sp_keyPath sp) with
  | Throw e => Throw e
  | Ok kp =>
      match JSON_parse (sp_indexList sp) with
      | Throw e => Throw e
      | Ok indexList =>
          Ok {| os_name := sp_name sp;
                os_keyPath := kp;
                os_autoIncrement := parse_autoInc (sp_autoInc sp);
                os_indexes := (load_indexes indexList).1;
                os_indexNames := (load_indexes indexList).2 |}
      end
  end.

(** [IDBObjectStore.__clone] *)
Definition clone (store : ObjectStore) : Res ObjectStore :=
  match IDBObjectStore_new
          {| sp_name := os_name store;
             sp_keyPath := JSON_stringify (os_keyPath store);
             sp_autoInc := VStr (JSON_stringify (VBool (os_autoIncrement store)));
             sp_indexList := "{}" |} with
  | Throw e => Throw e
  | Ok newStore =>
      Ok {| os_name := os_name newStore;
            os_keyPath := os_keyPath newStore;
            os_autoIncrement := os_autoIncrement newStore;
            os_indexes := os_indexes store;
            os_indexNames := os_indexNames store |}
  end.

(** *** The statements of the catalogue

    [__sys__] is a table like the others, with the columns the
    constructor reads: [name], [keyPath], [autoInc] and [indexList].  A
    boolean parameter is stored as its text. *)

(** [CREATE TABLE <store> (key BLOB ..., value BLOB)]; with
    [AUTOINCREMENT], SQLite makes sure that [sqlite_sequence] exists. *)
Definition create_table (db : Backend) (store : string) (autoinc : bool)
  : SqlResult unit :=
  match tables db !! store with
  | Some _ => SqlFail (SqlError "table already exists")
  | None =>
      SqlOk tt
        {| tables := <[store := mkTable autoinc []]> (tables db);
           sqlite_sequence :=
             if autoinc then Some (default [] (sqlite_sequence db))
             else sqlite_sequence db |}
  end.

(** [DROP TABLE <store>]; SQLite drops the table's row of
    [sqlite_sequence] with it. *)
Definition drop_table (db : Backend) (store : string) : SqlResult unit :=
  match tables db !! store with
  | None => SqlFail (SqlError "no such table")
  | Some _ =>
      SqlOk tt
        {| tables := delete store (tables db);
           sqlite_sequence :=
             option_map (filter (fun r => r.1 <> store)) (sqlite_sequence db) |}
  end.

Definition sys_row (store : ObjectStore) : gmap string string :=
  {[ "name" := os_name store;
     "keyPath" := JSON_stringify (os_keyPath store);
     "autoInc" := if os_autoIncrement store then "true" else "false";
     "indexList" := "{}" ]}.

(** Whether a row of [__sys__] is the one of the store [nm]. *)
Definition row_has_name (nm : string) (row : gmap string string) : bool :=
  match row !! "name" with
  | Some x => String.eqb x nm
  | None => false
  end.

(** [SELECT * FROM __sys__ where name = ?] *)
Definition select_sys (db : Backend) (nm : string)
  : SqlResult (list (gmap string string)) :=
  match tables db !! "__sys__" with
  | None => SqlFail (SqlError "no such table")
  | Some t => SqlOk (filter (fun r => row_has_name nm r = true) (t_rows t)) db
  end.

(** [DELETE FROM __sys__ WHERE name = ?] *)
Definition delete_sys (db : Backend) (nm : string) : SqlResult unit :=
  match tables db !! "__sys__" with
  | None => SqlFail (SqlError "no such table")
  | Some t =>
      SqlOk tt (set_rows db "__sys__" t
                  (filter (fun r => row_has_name nm r = false) (t_rows t)))
  end.

(** The properties the rest of the shim reads off a row of [__sys__]. *)
Definition row_properties (row : gmap string string) : StoreProperties :=
  {| sp_name := default "" (row !! "name");
     sp_keyPath := default "" (row !! "keyPath");
     sp_autoInc := VStr (default "" (row !! "autoInc"));
     sp_indexList := default "" (row !! "indexList") |}.

(** The store object handed to [success]: its data properties. *)
Definition store_object (store : ObjectStore) : Value :=
  VObj [("name", VStr (os_name store));
        ("keyPath", os_keyPath store);
        ("autoIncrement", VBool (os_autoIncrement store))].

(** The procedure [createObjectStore] queued by [__createObjectStore].
    Its [error] callback throws [createDOMException(0, ...)]. *)
Definition createObjectStoreProc (store : ObjectStore) : Proc :=
  fun db =>
    match create_table db (os_name store) (os_autoIncrement store) with
    | SqlOk _ db1 =>
        match insert_row db1 "__sys__" (sys_row store) with
        | SqlOk _ db2 => (db2, SIssued (CSuccess (store_object store) None))
        | SqlFail err => (db1, SIssued (CThrow (DOMException "0")))
        end
    | SqlFail err => (db, SIssued (CThrow (DOMException "0")))
    end.

(** The procedure [deleteObjectStore] queued by [__deleteObjectStore].
    Its [error] callback calls [failure(createDOMException(0, ...))].  The
    first statement has no error callback: when it fails, WebSQL fails the
    transaction, as it does when a callback throws.  When it finds no row,
    its callback returns and nothing more happens. *)
Definition deleteObjectStoreProc (store : ObjectStore) : Proc :=
  fun db =>
    match select_sys db (os_name store) with
    | SqlFail err => (db, SIssued (CThrow err))
    | SqlOk rows _ =>
        if (0 <? length rows)%nat then
          match drop_table db (os_name store) with
          | SqlOk _ db1 =>
              match delete_sys db1 (os_name store) with
              | SqlOk _ db2 => (db2, SIssued (CSuccess VUndefined None))
              | SqlFail err => (db1, SIssued (CError (DOMException "0")))
              end
          | SqlFail err => (db, SIssued (CError (DOMException "0")))
          end
        else (db, SIdle)
    end.

(** *** The database object and the calls on it *)

(** The two properties of an [IDBDatabase] this file writes:
    [__objectStores], in which a deleted store is set to [undefined]
    ([None]), and [objectStoreNames]. *)
Record Database : Type := mkDatabase {
  db_objectStores : gmap string (option ObjectStore);
  db_objectStoreNames : list string
}.

(** [IDBTransaction.__assertVersionChange(tx)], for the transaction the
    database holds as [__versionTransaction], if any. *)
Definition assertVersionChange (tx : option State) : Res unit :=
  match tx with
  | Some s =>
      match tx_mode s with
      | VERSION_CHANGE => Ok tt
      | _ => Throw (DOMException "InvalidStateError")
      end
  | None => Throw (DOMException "InvalidStateError")
  end.

(** The rest of a schema call: the check of the version transaction and
    the enqueue on it.  The result is what the call throws, if it does,
    and the version transaction afterwards. *)
Definition on_version_transaction (tx : option State) (p : Proc)
  : Res unit * option State :=
  match assertVersionChange tx, tx with
  | Ok _, Some s =>
      match addToTransactionQueue p VUndefined s with
      | (Ok _, s') => (Ok tt, Some s')
      | (Throw e, s') => (Throw e, Some s')
      end
  | Ok _, None => (Ok tt, None)
  | Throw e, _ => (Throw e, tx)
  end.

(** [IDBObjectStore.__createObjectStore(db, store)] *)
Definition createObjectStore (d : Database) (tx : option State) (store : ObjectStore)
  : Database * (Res unit * option State) :=
  ({| db_objectStores := <[os_name store := Some store]> (db_objectStores d);
      db_objectStoreNames := db_objectStoreNames d ++ [os_name store] |},
   on_version_transaction tx (createObjectStoreProc store)).

(** [IDBObjectStore.__deleteObjectStore(db, store)] *)
Definition deleteObjectStore (d : Database) (tx : option State) (store : ObjectStore)
  : Database * (Res unit * option State) :=
  ({| db_objectStores := <[os_name store := None]> (db_objectStores d);
      db_objectStoreNames :=
        StringList_splice (db_objectStoreNames d)
          (StringList_indexOf (db_objectStoreNames d) (os_name store)) 1 |},
   on_version_transaction tx (deleteObjectStoreProc store)).

(** [IDBTransaction.prototype.objectStore], on a transaction of the
    database [d] opened for [storeNames]. *)
Definition objectStore (d : Database) (storeNames : list string) (args : list string)
  : M ObjectStore :=
  match args with
  | [] => throw TypeError
  | objectStoreName :: _ =>
      let* s := get in
      if negb (tx_active s) then throw (DOMException "InvalidStateError")
      else if negb (bool_decide (objectStoreName ∈ storeNames))
              && match tx_mode s with VERSION_CHANGE => false | _ => true end
      then throw (DOMException "NotFoundError")
      else
        match db_objectStores d !! objectStoreName with
        | Some (Some store) => lift (clone store)
        | _ => throw (DOMException "NotFoundError")
        end
  end.

End Catalogue.

(** ** A small instance of the catalogue's collaborators

    [JSON] on [null], booleans, strings without escapes and the empty
    object; an index read off its [columnName]; a [StringList] that is an
    array. *)

Definition dquote : ascii := Ascii false true false false false true false false.

Definition toy_stringify (v : Value) : string :=
  match v with
  | VNull => "null"
  | VBool true => "true"
  | VBool false => "false"
  | VStr s => String dquote (String.append s (String dquote EmptyString))
  | _ => "?"
  end.

Definition toy_parse (text : string) : Res Value :=
  let n := String.length text in
  if String.eqb text "null" then Ok VNull
  else if String.eqb text "true" then Ok (VBool true)
  else if String.eqb text "false" then Ok (VBool false)
  else if String.eqb text "{}" then Ok (VObj [])
  else
    match String.get 0 text, String.get (n - 1) text with
    | Some a, Some b =>
        if (2 <=? n)%nat && Ascii.eqb a dquote && Ascii.eqb b dquote
        then Ok (VStr (String.substring 1 (n - 2) text))
        else Throw (Thrown (VStr "SyntaxError"))
    | _, _ => Throw (Thrown (VStr "SyntaxError"))
    end.

Definition toy_index (props : Value) : IndexObject :=
  {| io_index :=
       {| idx_name := match toy_getValue props (VStr "columnName") with
                      | VStr s => s
                      | _ => ""
                      end;
          idx_keyPath := toy_getValue props (VStr "keyPath");
          idx_multiEntry := false |};
     io_deleted := false |}.

Fixpoint toy_indexOf (names : list string) (nm : string) : Z :=
  match names with
  | [] => -1
  | x :: rest =>
      if String.eqb x nm then 0
      else match toy_indexOf rest nm with
           | -1 => -1
           | i => i + 1
           end
  end.

Definition toy_splice (names : list string) (start : Z) (count : nat) : list string :=
  let from := Z.to_nat (if start <? 0 then Z.max 0 (Z.of_nat (length names) + start)
                        else start) in
  take from names ++ drop (from + count) names.

Definition toy_schema : Schema :=
  {| JSON_parse := toy_parse;
     JSON_stringify := toy_stringify;
     IDBIndex_new := toy_index;
     StringList_indexOf := toy_indexOf;
     StringList_splice := toy_splice |}.

(** A store of books with in-line keys, not yet in the database. *)
Definition os_books : ObjectStore :=
  {| os_name := "books"; os_keyPath := VStr "isbn"; os_autoIncrement := false;
     os_indexes := ∅; os_indexNames := [] |}.

(** A database that holds the catalogue table only. *)
Definition db_empty : Backend :=
  {| tables := {[ "__sys__" := mkTable false [] ]}; sqlite_sequence := None |}.

(** A database object with the store of books, and none. *)
Definition dbo_books : Database :=
  {| db_objectStores := {[ "books" := Some os_books ]};
     db_objectStoreNames := ["books"] |}.

Definition dbo_none : Database :=
  {| db_objectStores := ∅; db_objectStoreNames := [] |}.

(** A version-change transaction on [db_empty], started, whose only
    queued procedure is the one given. *)
Definition tx_schema (p : Proc) : State :=
  let q := mkEntry p VUndefined 0 in
  set_tx_requests [q]
    (set_heap [new_request]
       (set_phase Open
          (set_tx_running true (new_transaction VERSION_CHANGE db_empty [] [] [] [] [])))).

(** A read-only transaction on [db_one_note]. *)
Definition tx_reader : State := new_transaction READ_ONLY db_one_note [] [] [] [] [].


(** A request whose "success" handler throws. *)
Definition rq_failing : Request :=
  {| readyState := Pending; result := VUndefined; rq_error := None;
     onsuccess := [AThrow TypeError]; onerror := [] |}.


(** A procedure whose statement callback does nothing. *)
Definition idle : Proc := fun db => (db, SIdle).

(** The caller reads a note, handling the result by deleting the note,
    and then tries to clear the notes. *)
Definition reader_calls : list Action :=
  [ARequest (MGet st_notes [VNum 1]) [ARequest (MDelete st_notes [VNum 1]) [] []] [];
   ARequest (MClear st_notes) [] []].


(** A transaction that has completed. *)
Definition tx_completed : State :=
  set_trace [EvComplete; EvInternalComplete]
    (set_tx_active false
       (set_phase Open
          (set_tx_running true (new_transaction READ_WRITE db_one_note [] [] [] [] [])))).

(** * Reasoning about computations *)

Section HoareRules.
Context {A B : Type}.

Lemma hoare_ret (P : State -> Prop) (a : A) Q E :
  (forall s, P s -> Q a s) -> hoare P (ret a) Q E.
Proof. intros HQ s HP. simpl. auto. Qed.

Lemma hoare_throw (P : State -> Prop) (e : Exn) (Q : A -> State -> Prop) E :
  (forall s, P s -> E e s) -> hoare P (throw e) Q E.
Proof. intros HE s HP. simpl. auto. Qed.

Lemma hoare_lift (P : State -> Prop) (r : Res A) Q E :
  (forall s, P s -> match r with Ok a => Q a s | Throw e => E e s end) ->
  hoare P (lift r) Q E.
Proof. intros HQ s HP. unfold lift. destruct r; apply (HQ s HP). Qed.

Lemma hoare_modify (P : State -> Prop) (f : State -> State) Q E :
  (forall s, P s -> Q tt (f s)) -> hoare P (modify f) Q E.
Proof. intros HQ s HP. simpl. auto. Qed.

Lemma hoare_bind (P : State -> Prop) (m : M A) (f : A -> M B) R Q E :
  hoare P m R E -> (forall a, hoare (R a) (f a) Q E) -> hoare P (bind m f) Q E.
Proof.
  intros Hm Hf s HP. unfold bind. specialize (Hm s HP).
  destruct (m s) as [[a | e] s']; [apply (Hf a s' Hm) | exact Hm].
Qed.

Lemma hoare_get (P : State -> Prop) (f : State -> M B) Q E :
  (forall s0, hoare (fun s => P s /\ s = s0) (f s0) Q E) ->
  hoare P (bind get f) Q E.
Proof. intros Hf s HP. unfold bind, get. apply (Hf s s). auto. Qed.

Lemma hoare_try_catch (P : State -> Prop) (m : M A) (h : Exn -> M A) Q E1 E :
  hoare P m Q E1 -> (forall e, hoare (E1 e) (h e) Q E) ->
  hoare P (try_catch m h) Q E.
Proof.
  intros Hm Hh s HP. unfold try_catch. specialize (Hm s HP).
  destruct (m s) as [[a | e] s']; [exact Hm | apply (Hh e s' Hm)].
Qed.

Lemma hoare_weaken (P P' : State -> Prop) (m : M A) Q E :
  (forall s, P' s -> P s) -> hoare P m Q E -> hoare P' m Q E.
Proof. intros HPP Hm s HP. apply Hm, HPP, HP. Qed.

Lemma hoare_post (P : State -> Prop) (m : M A) (Q Q' : A -> State -> Prop)
    (E E' : Exn -> State -> Prop) :
  (forall a s, Q a s -> Q' a s) -> (forall e s, E e s -> E' e s) ->
  hoare P m Q E -> hoare P m Q' E'.
Proof.
  intros HQ HE Hm s HP. specialize (Hm s HP).
  destruct (m s) as [[a | e] s']; auto.
Qed.

Lemma hoare_try_finally (P R J : State -> Prop) (m : M A) (f : M unit) :
  hoare P m (fun _ => R) (fun _ => R) ->
  hoare R f (fun _ => J) (fun _ => J) ->
  hoare P (try_finally m f) (fun _ => J) (fun _ => J).
Proof.
  intros Hm Hf s HP. unfold try_finally. specialize (Hm s HP).
  destruct (m s) as [r s1].
  assert (R s1) as HR by (destruct r; exact Hm).
  specialize (Hf s1 HR). destruct (f s1) as [[[] | e] s2]; [destruct r |]; exact Hf.
Qed.

End HoareRules.

Section InvRules.
Context {A B : Type} (I : State -> Prop).

Lemma inv_ret (a : A) : inv I (ret a).
Proof. apply hoare_ret. auto. Qed.

Lemma inv_throw (e : Exn) : inv I (throw (A:=A) e).
Proof. apply hoare_throw. auto. Qed.

Lemma inv_lift (r : Res A) : inv I (lift r).
Proof. apply hoare_lift. intros s HI. destruct r; exact HI. Qed.

Lemma inv_get : inv I get.
Proof. intros s HI. exact HI. Qed.

Lemma inv_modify (f : State -> State) :
  (forall s, I s -> I (f s)) -> inv I (modify f).
Proof. intros Hf. apply hoare_modify. exact Hf. Qed.

Lemma inv_bind (m : M A) (f : A -> M B) :
  inv I m -> (forall a, inv I (f a)) -> inv I (bind m f).
Proof. intros Hm Hf. eapply hoare_bind; [exact Hm | exact Hf]. Qed.

Lemma inv_try_catch (m : M A) (h : Exn -> M A) :
  inv I m -> (forall e, inv I (h e)) -> inv I (try_catch m h).
Proof. intros Hm Hh. eapply hoare_try_catch; [exact Hm | exact Hh]. Qed.

Lemma inv_try_finally (m : M A) (f : M unit) :
  inv I m -> inv I f -> inv I (try_finally m f).
Proof.
  intros Hm Hf s HI. unfold try_finally. specialize (Hm s HI).
  destruct (m s) as [r s1].
  assert (I s1) as HI1 by (destruct r; exact Hm).
  specialize (Hf s1 HI1). destruct (f s1) as [[[] | e] s2]; [destruct r |]; exact Hf.
Qed.

Lemma inv_forget (m : M A) (F : State -> Prop) :
  inv I m -> hoare (fun s => I s /\ F s) m (fun _ => I) (fun _ => I).
Proof. intros Hm. eapply hoare_weaken; [| exact Hm]. intros s [HI _]. exact HI. Qed.

(** The state a computation ends in satisfies what it keeps. *)
Lemma inv_state (m : M A) (s : State) : inv I m -> I s -> I (m s).2.
Proof.
  intros Hm HI. specialize (Hm s HI). destruct (m s) as [[a | e] s']; exact Hm.
Qed.

End InvRules.

(** ** Properties that every step of the scheduler keeps *)

Ltac inv_step :=
  match goal with
  | |- inv _ (bind get _) => apply inv_bind; [apply inv_get | intro]
  | |- inv _ (bind _ _) => apply inv_bind; [| intro]
  | |- inv _ (ret _) => apply inv_ret
  | |- inv _ (throw _) => apply inv_throw
  | |- inv _ (lift _) => apply inv_lift
  | |- inv _ get => apply inv_get
  | |- inv _ (try_catch _ _) => apply inv_try_catch; [| intro]
  | |- inv _ (try_finally _ _) => apply inv_try_finally
  | |- inv _ (modify _) => apply inv_modify; intros ? ?
  | |- inv _ (if ?b then _ else _) => destruct b
  | |- inv _ (match ?x with _ => _ end) => destruct x
  end.

(** The value of the monad's sequencing on a state. *)
Lemma pushToQueue_run `{Collaborators} (r : nat) (p : Proc) (a : Value) (s : State) :
  pushToQueue r p a s
  = if tx_active s
    then (Ok tt, set_trace (trace s ++ [EvEnqueue r])
                   (set_tx_requests (tx_requests s ++ [mkEntry p a r]) s))
    else (Throw (DOMException "TransactionInactiveError"), s).
Proof.
  cbv beta iota delta [pushToQueue bind assertActive get modify emit ret throw].
  destruct (tx_active s); reflexivity.
Qed.

Section UserStable.
Context `{Collaborators}.
Variable I : State -> Prop.
Hypothesis I_user : UserStable I.

Lemma user_emit (e : Event) :
  is_silent e = true -> inv I (emit e).
Proof. intros He. unfold emit. inv_step. apply (us_event I_user); assumption. Qed.

Lemma user_createRequest : inv I createRequest.
Proof. intros s HI. simpl. apply (us_heap I_user), HI. Qed.

Lemma user_pushToQueue r p a : inv I (pushToQueue r p a).
Proof.
  intros s HI. rewrite pushToQueue_run.
  destruct (tx_active s) eqn:Ha; [apply (us_push I_user); assumption | exact HI].
Qed.

Lemma user_addToTransactionQueue p a : inv I (addToTransactionQueue p a).
Proof.
  unfold addToTransactionQueue. inv_step; [apply user_createRequest |].
  inv_step; [apply user_pushToQueue | inv_step].
Qed.

Lemma user_assertWritable : inv I assertWritable.
Proof. unfold assertWritable. repeat inv_step. Qed.

Lemma user_abort : inv I abort.
Proof.
  unfold abort. repeat inv_step.
  - apply (us_inactive I_user); assumption.
  - apply (us_timers I_user); assumption.
Qed.

Lemma user_run_call c : inv I (run_call c).
Proof.
  destruct c; simpl; unfold add, put, get_, delete_, clear, count;
    repeat first
      [ apply user_addToTransactionQueue | apply user_assertWritable
      | apply user_createRequest | apply user_pushToQueue | inv_step ].
Qed.

Lemma user_install r hs he : inv I (install r hs he).
Proof. unfold install. inv_step. apply (us_heap I_user); assumption. Qed.

Lemma user_run_action a : inv I (run_action a).
Proof.
  destruct a; simpl.
  - inv_step; [apply user_run_call | apply user_install].
  - apply user_abort.
  - inv_step.
Qed.

Lemma user_run_actions l : inv I (run_actions l).
Proof.
  induction l as [| a l IH]; simpl.
  - inv_step.
  - inv_step; [apply user_run_action | exact IH].
Qed.

(** Firing an event that keeps the property, then running its handler. *)
Lemma user_callback_with e h :
  (forall s, I s -> I (set_trace (trace s ++ [e]) s)) -> inv I (callback e h).
Proof.
  intros He. unfold callback, emit.
  inv_step; [inv_step; apply He; assumption | apply user_run_actions].
Qed.

Lemma user_callback e h :
  is_silent e = true -> inv I (callback e h).
Proof.
  intros He. apply user_callback_with. intros s. apply (us_event I_user), He.
Qed.

Lemma user_transactionError err :
  (forall e s, I s -> I (set_trace (trace s ++ [EvTxError e]) s)) ->
  inv I (transactionError err).
Proof.
  intros Htx. unfold transactionError.
  inv_step; [apply user_emit; reflexivity |].
  repeat first
    [ apply user_abort | apply user_callback; reflexivity
    | apply user_callback_with; apply Htx | inv_step ];
    first [ apply (us_errored I_user) | apply (us_error I_user) ]; assumption.
Qed.

Lemma user_update_request r f : inv I (update_request r f).
Proof. unfold update_request. inv_step. apply (us_heap I_user); assumption. Qed.

(** [transactionFinished] keeps a property that the completion events
    keep. *)
Lemma user_transactionFinished :
  (forall e s, is_completion e = true -> I s -> I (set_trace (trace s ++ [e]) s)) ->
  inv I transactionFinished.
Proof.
  intros Hev. unfold transactionFinished.
  repeat first
    [ apply user_callback_with; intros; apply Hev; [reflexivity | assumption]
    | inv_step ].
  apply (us_errored I_user); assumption.
Qed.

Lemma user_turn (m : M unit) (s : State) :
  inv I m -> I s -> I (turn m s).
Proof.
  intros Hm HI. unfold turn. specialize (Hm s HI).
  destruct (m s) as [[[] | e] s']; [exact Hm |].
  apply (us_event I_user); [reflexivity | exact Hm].
Qed.

End UserStable.

Section Sched.
Context `{Collaborators}.
Variable I : State -> Prop.
Hypothesis I_sched : Sched I.

Lemma sched_emit (e : Event) :
  is_bookkeeping e = true -> inv I (emit e).
Proof. intros He. unfold emit. inv_step. apply (sch_event I_sched); assumption. Qed.

Lemma sched_callback e h :
  is_bookkeeping e = true -> inv I (callback e h).
Proof.
  intros He. apply user_callback_with; [apply I_sched |].
  intros s. apply (sch_event I_sched), He.
Qed.

Lemma sched_error err : inv I (error err).
Proof.
  unfold error, current_q, handler_of.
  repeat first
    [ apply (sch_txerror I_sched) | apply user_update_request; apply I_sched
    | apply sched_callback; reflexivity | inv_step ].
Qed.

Lemma sched_invoke q : inv I (invoke q).
Proof.
  unfold invoke.
  inv_step. inv_step; [apply sched_emit; reflexivity |].
  destruct (e_op q (backend a)) as [db' outcome].
  inv_step; [inv_step; apply (sch_backend I_sched); assumption |].
  destruct outcome; repeat first [ apply sched_error | inv_step ].
  apply (sch_inflight I_sched); assumption.
Qed.

Lemma sched_executeNextRequest : inv I executeNextRequest.
Proof.
  unfold executeNextRequest. apply hoare_get. intros s0.
  destruct (length (tx_requests s0) <=? cl_i s0)%nat.
  - destruct (tx_active s0) eqn:Hact.
    + intros s [HI ->].
      pose proof (sch_finish I_sched s0 HI Hact) as Hfin.
      change ((modify (set_tx_requests []) >> modify (set_tx_active false) >>
               transactionFinished) s0)
        with (transactionFinished (set_tx_active false (set_tx_requests [] s0))).
      destruct (transactionFinished _) as [[[] | e] s1]; exact Hfin.
    + intros s [HI ->].
      apply (sch_reset I_sched s0 HI Hact).
  - apply inv_forget.
    inv_step; [| apply sched_error].
    destruct (tx_requests s0 !! cl_i s0); [| inv_step].
    inv_step; [inv_step; apply (sch_q I_sched); assumption | apply sched_invoke].
Qed.

Lemma sched_success v r : inv I (success v r).
Proof.
  unfold success, current_q, handler_of.
  repeat first
    [ apply sched_executeNextRequest | apply user_update_request; apply I_sched
    | apply sched_callback; reflexivity | apply sched_emit; reflexivity | inv_step ];
    first [ apply (sch_q I_sched) | apply (sch_i I_sched) ]; assumption.
Qed.

Lemma sched_deliver c : inv I (deliver c).
Proof.
  induction c; simpl.
  - apply sched_success.
  - apply sched_error.
  - inv_step.
  - inv_step; [exact IHc1 | exact IHc2].
Qed.

Lemma sched_websql_turn (m : M unit) (s : State) :
  inv I m -> I s -> I (websql_turn m s).
Proof.
  intros Hm HI. unfold websql_turn. specialize (Hm s HI).
  destruct (m s) as [[[] | e] s']; [exact Hm |].
  apply (sch_phase I_sched), Hm.
Qed.

(** Every turn of the event loop keeps such a property. *)
Lemma sched_fire (l : Label) (s s' : State) :
  fire l s = Some s' -> I s -> I s'.
Proof.
  pose proof (sch_user I_sched) as I_user.
  destruct l; simpl; intros Hf HI.
  - destruct (phase s); inversion Hf; subst.
    apply (user_turn _ I_user); [| exact HI].
    unfold executeRequests. repeat inv_step.
    + apply (sch_running I_sched); assumption.
    + apply (sch_phase I_sched); assumption.
  - destruct (phase s); inversion Hf; subst.
    apply sched_websql_turn; [| apply (sch_phase I_sched), HI].
    unfold transactionCallback.
    repeat first [ apply sched_executeNextRequest | inv_step ];
      first [ apply (sch_q I_sched) | apply (sch_i I_sched) ]; assumption.
  - destruct (phase s); try discriminate.
    destruct (inflight s) as [c |]; inversion Hf; subst.
    apply sched_websql_turn; [apply sched_deliver | apply (sch_inflight I_sched), HI].
  - assert (I (turn (transactionError e) (set_phase Failed s))) as Hgoal
      by (apply (user_turn _ I_user);
          [apply (sch_txerror I_sched) | apply (sch_phase I_sched), HI]).
    destruct (phase s); try discriminate; inversion Hf; subst; exact Hgoal.
  - destruct (abort_timers s) as [| n] eqn:Hn; inversion Hf; subst.
    apply (user_turn _ I_user);
      [apply (user_callback _ I_user); reflexivity | apply (us_timers I_user), HI].
  - inversion Hf; subst.
    apply (user_turn _ I_user); [apply (user_run_actions _ I_user) | exact HI].
Qed.

Lemma sched_run (sched : list Label) (s s' : State) :
  run sched s = Some s' -> I s -> I s'.
Proof.
  revert s. induction sched as [| l sched IH]; simpl; intros s Hr HI.
  - inversion Hr; subst; exact HI.
  - destruct (fire l s) as [s1 |] eqn:Hf; [| discriminate].
    apply (IH s1 Hr). apply (sched_fire l s s1 Hf HI).
Qed.

End Sched.

Section Stable.
Context `{Collaborators}.
Variable I : State -> Prop.
Hypothesis I_stable : Stable I.

Lemma stable_run_actions l : inv I (run_actions l).
Proof. apply user_run_actions, I_stable. Qed.

Lemma stable_abort : inv I abort.
Proof. apply user_abort, I_stable. Qed.

Lemma stable_callback e h :
  is_completion e = false -> inv I (callback e h).
Proof.
  intros He. apply user_callback_with; [apply I_stable |].
  intros s. apply (stb_event I_stable), He.
Qed.

Lemma stable_transactionError err : inv I (transactionError err).
Proof.
  apply user_transactionError; [apply I_stable |].
  intros e s. apply (stb_event I_stable). reflexivity.
Qed.

Lemma stable_transactionFinished :
  (forall e s, is_completion e = true -> I s -> I (set_trace (trace s ++ [e]) s)) ->
  inv I transactionFinished.
Proof. apply user_transactionFinished, I_stable. Qed.

(** A stable property is kept by the scheduler. *)
Lemma stable_sched : Sched I.
Proof.
  split.
  - apply I_stable.
  - intros e s He. apply (stb_event I_stable). destruct e; try discriminate; reflexivity.
  - apply stable_transactionError.
  - intros s HI Ha.
    apply (inv_state I transactionFinished).
    + apply stable_transactionFinished. intros e s1 _.
      apply (stb_complete I_stable s HI Ha).
    + apply (us_inactive (stb_user I_stable)), (stb_requests I_stable), HI.
  - intros s HI _. apply (stb_requests I_stable), HI.
  - apply (stb_running I_stable).
  - apply (stb_q I_stable).
  - apply (stb_i I_stable).
  - apply (stb_backend I_stable).
  - apply (stb_inflight I_stable).
  - apply (stb_phase I_stable).
Qed.

Lemma stable_error err : inv I (error err).
Proof. apply sched_error, stable_sched. Qed.

Lemma stable_executeNextRequest : inv I executeNextRequest.
Proof. apply sched_executeNextRequest, stable_sched. Qed.

Lemma stable_success v r : inv I (success v r).
Proof. apply sched_success, stable_sched. Qed.

Lemma stable_run (sched : list Label) (s s' : State) :
  run sched s = Some s' -> I s -> I s'.
Proof. apply sched_run, stable_sched. Qed.

End Stable.

(** ** Three stable properties *)

Lemma ext_snoc (t : list Event) (e : Event) (s : State) :
  ext t s -> ext t (set_trace (trace s ++ [e]) s).
Proof.
  intros [rest Hr]. exists (rest ++ [e]). simpl. rewrite Hr, app_assoc. reflexivity.
Qed.

Lemma ext_stable (t : list Event) : Stable (ext t).
Proof.
  split; [split | ..]; try (intros; assumption); intros; try (apply ext_snoc; assumption).
  apply (ext_snoc t (EvEnqueue r) (set_tx_requests _ s)). assumption.
Qed.

Lemma errored_stable : Stable (fun s => tx_errored s = true).
Proof. split; [split | ..]; intros; simpl; try assumption; reflexivity. Qed.

Lemma inactive_stable : Stable (fun s => tx_active s = false).
Proof.
  split; [split | ..]; intros; simpl; try assumption; try reflexivity; congruence.
Qed.

Lemma completions_snoc (tr : list Event) (e : Event) :
  completions (tr ++ [e]) = (completions tr + if is_completion e then 1 else 0)%nat.
Proof.
  unfold completions. rewrite filter_app, length_app. f_equal.
  destruct e; reflexivity.
Qed.

Lemma inactive_with_stable (n : nat) : Stable (inactive_with n).
Proof.
  split; [split | ..]; try (intros; assumption).
  - intros e s He [Ha Hc]. split; [exact Ha |]. simpl.
    rewrite completions_snoc, Hc. destruct e; try discriminate; simpl; lia.
  - intros r p a s Hact [Ha _]. congruence.
  - intros s [Ha Hc]. split; [reflexivity | exact Hc].
  - intros e s He [Ha Hc]. split; [exact Ha |]. simpl.
    rewrite completions_snoc, He, Hc. lia.
  - intros s0 [Ha _] Hact. congruence.
Qed.

Section SchedulerFacts.
Context `{Collaborators}.

(** A computation only adds to the trace. *)
Lemma trace_grows {A : Type} (m : M A) (s : State) :
  inv (ext (trace s)) m -> exists rest, trace (m s).2 = trace s ++ rest.
Proof.
  intros Hm. apply (inv_state (ext (trace s)) m s Hm).
  exists []. rewrite app_nil_r. reflexivity.
Qed.

Lemma callback_fires (e : Event) (h : list Action) (s : State) :
  exists rest, trace (callback e h s).2 = trace s ++ e :: rest.
Proof.
  unfold callback, emit, bind, modify.
  destruct (trace_grows (run_actions h) (set_trace (trace s ++ [e]) s)
              (stable_run_actions _ (ext_stable _) h)) as [rest Hrest].
  exists rest. simpl in Hrest.
  destruct (run_actions h _) as [[[] | x] s1]; simpl in *;
    rewrite Hrest, <- app_assoc; reflexivity.
Qed.

Lemma turn_grows (m : M unit) (s : State) :
  exists rest, trace (turn m s) = trace (m s).2 ++ rest.
Proof.
  unfold turn. destruct (m s) as [[[] | e] s1]; simpl.
  - exists []. rewrite app_nil_r. reflexivity.
  - exists [EvUncaught e]. reflexivity.
Qed.

(** Once [__errored] is set, it stays set. *)
Lemma errored_stays_set (sched : list Label) (s s' : State) :
  run sched s = Some s' -> tx_errored s = true -> tx_errored s' = true.
Proof. apply (stable_run _ errored_stable). Qed.

(** On a transaction that has already errored, [transactionError] only
    logs the error. *)
Lemma transactionError_noop (err : Exn) (s : State) :
  tx_errored s = true ->
  transactionError err s = (Ok tt, set_trace (trace s ++ [EvLogError err]) s).
Proof.
  intros He. unfold transactionError, bind, emit, modify, get. simpl.
  rewrite He. reflexivity.
Qed.

(** An enqueue on an inactive transaction throws and changes nothing. *)
Lemma pushToQueue_inactive (r : nat) (p : Proc) (a : Value) (s : State) :
  tx_active s = false ->
  pushToQueue r p a s = (Throw (DOMException "TransactionInactiveError"), s).
Proof.
  intros Ha. unfold pushToQueue, assertActive, bind, get. rewrite Ha. reflexivity.
Qed.

End SchedulerFacts.

Section SchedulerFacts2.
Context `{Collaborators}.

Lemma alter_as_insert {A : Type} (f : A -> A) (l : list A) (i : nat) (x : A) :
  l !! i = Some x -> alter f i l = <[i := f x]> l.
Proof.
  revert i. induction l as [| y l IH]; intros [| i] Hx; simpl in *; try discriminate.
  - inversion Hx; subst. reflexivity.
  - f_equal. apply IH, Hx.
Qed.

Lemma transactionError_logs (err : Exn) (s : State) :
  exists rest, trace (transactionError err s).2 = trace s ++ EvLogError err :: rest.
Proof.
  destruct (trace_grows (transactionError err) (set_trace (trace s ++ [EvLogError err]) s)
              (stable_transactionError _ (ext_stable _) err)) as [rest Hrest].
  unfold transactionError at 1. unfold bind at 1. unfold emit, modify. cbn beta iota.
  set (s1 := set_trace (trace s ++ [EvLogError err]) s).
  set (k := fun s0 : State => if tx_errored s0 then ret tt else _).
  assert (inv (ext (trace s1)) (bind get k)) as Hk.
  { subst k. pose proof (ext_stable (trace s1)) as Hst.
    repeat first
      [ apply (stable_abort _ Hst) | apply (stable_callback _ Hst); reflexivity | inv_step ];
      assumption. }
  destruct (trace_grows _ s1 Hk) as [r Hr].
  exists r. rewrite Hr. subst s1. simpl. rewrite <- app_assoc. reflexivity.
Qed.

Lemma transactionError_sets_errored (err : Exn) (s : State) :
  tx_errored (transactionError err s).2 = true.
Proof.
  unfold transactionError, bind, emit, modify, get. cbn beta iota.
  set (s1 := set_trace (trace s ++ [EvLogError err]) s).
  destruct (tx_errored s1) eqn:He; [exact He |].
  cbn beta iota.
  destruct (negb (tx_active s1)); [reflexivity |].
  assert (inv (fun s => tx_errored s = true)
            (try_finally
               (modify (set_tx_error (Some err)) >>
                callback (EvTxError err) (tx_onerror s1) >>
                callback (EvDbError err) (db_onerror s1)) abort)) as Hinv.
  { pose proof errored_stable as Hst.
    repeat first
      [ apply (stable_abort _ Hst) | apply (stable_callback _ Hst); reflexivity | inv_step ];
      try assumption. }
  apply (inv_state _ _ (set_tx_errored true s1) Hinv). reflexivity.
Qed.

(** C6: the error continuation of a queued operation marks the
    operation's request as failed, fires "error" on it and runs the
    handler; then, whether that handler returned or threw,
    [transactionError] runs on the state the handler left: it logs the
    error and the transaction ends up errored. *)
Theorem error_continuation_reaches_transaction_error
    (err : Exn) (s : State) (q : Entry) (rq : Request) :
  cl_q s = Some q ->
  heap s !! e_req q = Some rq ->
  let failed :=
    {| readyState := Done; result := VUndefined;
       rq_error := Some (if exn_truthy err then err else Thrown (VStr "DOMError"));
       onsuccess := onsuccess rq; onerror := onerror rq |} in
  let s1 := set_trace (trace s ++ [EvError (e_req q) err])
              (set_heap (<[e_req q := failed]> (heap s)) s) in
  let s2 := (run_actions (onerror rq) s1).2 in
  (error err s).2 = (transactionError err s2).2 /\
  (exists mid rest,
     trace (error err s).2
     = trace s ++ EvError (e_req q) err :: mid ++ EvLogError err :: rest) /\
  tx_errored (error err s).2 = true.
Proof.
  intros Hq Hrq failed s1 s2.
  assert ((error err s).2 = (transactionError err s2).2) as Heq.
  { cbv beta iota delta [error try_finally bind current_q get update_request handler_of
      callback emit modify ret]. rewrite Hq. cbv beta iota.
    cbn [heap set_heap]. rewrite list_lookup_alter_eq, Hrq. cbn [fmap option_fmap option_map].
    rewrite (alter_as_insert _ _ _ _ Hrq). cbn [onerror trace set_heap].
    fold failed. fold s1.
    subst s2. destruct (run_actions (onerror rq) s1) as [r s2]. cbn [snd].
    destruct (transactionError err s2) as [[[] | e] s3]; reflexivity. }
  split; [exact Heq |]. rewrite Heq. split.
  - destruct (transactionError_logs err s2) as [rest Hrest].
    destruct (trace_grows (run_actions (onerror rq)) s1
                (stable_run_actions _ (ext_stable _) _)) as [mid Hmid].
    exists mid, rest. rewrite Hrest. fold s2 in Hmid. rewrite Hmid.
    subst s1. simpl. rewrite <- !app_assoc. reflexivity.
  - apply transactionError_sets_errored.
Qed.

End SchedulerFacts2.

(** * The scheduler's functions, step by step *)

Section Steps.
Context `{Collaborators}.

Lemma run_bind_get {A : Type} (f : State -> M A) (s : State) :
  bind get f s = f s s.
Proof. reflexivity. Qed.

(** [error], for the running entry [q]: the request is marked as failed,
    "error" fires on it and its handler runs; [transactionError] follows
    in any case. *)
Lemma error_steps (err : Exn) (s : State) (q : Entry) :
  cl_q s = Some q ->
  error err s
  = try_finally (run_actions (handler onerror (e_req q) (mark_error err s q)))
      (transactionError err) (mark_error err s q).
Proof.
  intros Hq.
  cbv beta iota delta [error try_finally bind current_q get ret update_request handler_of
    callback emit modify]. rewrite Hq. reflexivity.
Qed.

Lemma error_null (err : Exn) (s : State) :
  cl_q s = None ->
  error err s = try_finally (throw TypeError) (transactionError err) s.
Proof.
  intros Hq.
  cbv beta iota delta [error try_finally bind current_q get ret throw]. rewrite Hq.
  reflexivity.
Qed.

(** [success], for the running entry [q]: the request is marked done,
    "success" fires on it, its handler runs, and the scheduler moves on. *)
Lemma success_steps (v : Value) (s : State) (q : Entry) :
  cl_q s = Some q ->
  success v None s
  = (run_actions (handler onsuccess (e_req q) (mark_success v s q)) >>
     modify (fun s => set_cl_i (S (cl_i s)) s) >>
     executeNextRequest) (mark_success v s q).
Proof.
  intros Hq.
  cbv beta iota delta [success bind current_q get ret update_request handler_of
    callback emit modify]. rewrite Hq. cbv beta iota.
  cbn [cl_q set_heap]. rewrite Hq. reflexivity.
Qed.

Lemma success_rebind (v : Value) (r : nat) (s : State) (q : Entry) :
  cl_q s = Some q ->
  success v (Some r) s
  = success v None
      (set_trace (trace s ++ [EvRebind r])
         (set_cl_q (Some {| e_op := e_op q; e_args := e_args q; e_req := r |}) s)).
Proof.
  intros Hq.
  cbv beta iota delta [success bind current_q get ret emit modify]. rewrite Hq.
  reflexivity.
Qed.

Lemma success_null (v : Value) (r : option nat) (s : State) :
  cl_q s = None -> success v r s = (Throw TypeError, s).
Proof.
  intros Hq.
  cbv beta iota delta [success bind current_q get ret throw]. rewrite Hq. reflexivity.
Qed.

(** [executeNextRequest] with an entry at the index. *)
Lemma executeNextRequest_steps (s : State) (q : Entry) :
  tx_requests s !! cl_i s = Some q ->
  executeNextRequest s
  = try_catch (op_body q (calling q s)) (fun e => error e) (calling q s).
Proof.
  intros Hq. pose proof (lookup_lt_Some _ _ _ Hq) as Hlt.
  unfold executeNextRequest. rewrite run_bind_get.
  destruct (Nat.leb_spec (length (tx_requests s)) (cl_i s)) as [Hle | _]; [lia |].
  rewrite Hq. reflexivity.
Qed.

(** [executeNextRequest] with the index at the end of the queue. *)
Lemma executeNextRequest_drained (s : State) :
  (length (tx_requests s) <= cl_i s)%nat ->
  executeNextRequest s
  = if tx_active s
    then transactionFinished (set_tx_active false (set_tx_requests [] s))
    else (Ok tt, set_tx_requests [] s).
Proof.
  intros Hle. unfold executeNextRequest. rewrite run_bind_get.
  destruct (Nat.leb_spec (length (tx_requests s)) (cl_i s)) as [_ | Hlt]; [| lia].
  destruct (tx_active s); reflexivity.
Qed.

End Steps.

(** * The object store façade *)

Section FacadeFacts.
Context `{Collaborators}.

Lemma length_eqb_nonempty (args : list Value) :
  args <> [] -> (length args =? 0)%nat = false.
Proof. destruct args; [congruence | reflexivity]. Qed.

(** A call of [add] or [put] whose key check throws leaves the state as it
    was: nothing is created and nothing is queued. *)
Lemma add_put_reject (st : Store) (args : list Value) (s : State) (e : Exn) :
  args <> [] ->
  validateKey st (arg 0 args) (arg 1 args) = Throw e ->
  add st args s = (Throw e, s) /\ put st args s = (Throw e, s).
Proof.
  intros Hne Hv. unfold add, put.
  rewrite (length_eqb_nonempty args Hne).
  unfold bind, lift. rewrite Hv. split; reflexivity.
Qed.

(** C7: [add] and [put] check the key against the store's schema before
    anything is queued.  With a key path (a truthy [keyPath]), a key
    argument is a [DataError]; with a key path and a record that holds no
    key, and with no key path and no key argument, the call is a
    [DataError] unless the store auto-increments, in which case the check
    passes.  A rejected call leaves the transaction state untouched. *)
Theorem add_put_validate_key_before_enqueue
    (st : Store) (args : list Value) (s : State) :
  args <> [] ->
  let value := arg 0 args in
  let key := arg 1 args in
  let rejected :=
    add st args s = (Throw (DOMException "DataError"), s) /\
    put st args s = (Throw (DOMException "DataError"), s) in
  (truthy (keyPath st) = true -> is_undefined key = false -> rejected) /\
  (truthy (keyPath st) = true -> is_undefined key = true ->
   is_object value = true ->
   is_undefined (Key_getValue value (keyPath st)) = true ->
   if autoIncrement st then validateKey st value key = Ok tt else rejected) /\
  (truthy (keyPath st) = false -> is_undefined key = true ->
   if autoIncrement st then validateKey st value key = Ok tt else rejected).
Proof.
  intros Hne value key rejected. subst rejected.
  split; [| split].
  - intros Hkp Hk. apply add_put_reject; [assumption |].
    unfold validateKey. fold key. rewrite Hkp, Hk. reflexivity.
  - intros Hkp Hk Hobj Hnone.
    destruct (autoIncrement st) eqn:Hauto.
    + unfold validateKey. fold value. rewrite Hkp, Hk, Hobj, Hnone, Hauto. reflexivity.
    + apply add_put_reject; [assumption |].
      unfold validateKey. fold value key. rewrite Hkp, Hk, Hobj, Hnone, Hauto. reflexivity.
  - intros Hkp Hk.
    destruct (autoIncrement st) eqn:Hauto.
    + unfold validateKey. rewrite Hkp, Hk, Hauto. reflexivity.
    + apply add_put_reject; [assumption |].
      unfold validateKey. fold key. rewrite Hkp, Hk, Hauto. reflexivity.
Qed.

(** C10: on a store with a key path, [add] and [put] of a value that is
    not an object throw [DataError] at once, whatever the key argument and
    whether or not the store auto-increments; the key check lets a call
    through only for an object. *)
Theorem keypath_store_rejects_non_object
    (st : Store) (args : list Value) (s : State) :
  args <> [] ->
  truthy (keyPath st) = true ->
  (is_object (arg 0 args) = false ->
   add st args s = (Throw (DOMException "DataError"), s) /\
   put st args s = (Throw (DOMException "DataError"), s)) /\
  (validateKey st (arg 0 args) (arg 1 args) = Ok tt ->
   is_object (arg 0 args) = true).
Proof.
  intros Hne Hkp. split.
  - intros Hobj. apply add_put_reject; [assumption |].
    unfold validateKey. rewrite Hkp, Hobj.
    destruct (is_undefined (arg 1 args)); reflexivity.
  - unfold validateKey. rewrite Hkp.
    destruct (is_undefined (arg 1 args)); simpl; [| discriminate].
    destruct (is_object (arg 0 args)); [reflexivity | discriminate].
Qed.

(** [add] and [put] differ only in the procedure they queue. *)
Lemma add_put_same_checks (st : Store) (args : list Value) (s : State) :
  (forall e s', add st args s = (Throw e, s') <-> put st args s = (Throw e, s')) /\
  (forall r s', add st args s = (Ok r, s') ->
     s' = queued (objectStoreAdd st (arg 0 args) (arg 1 args)) r s /\
     put st args s
     = (Ok r, queued (objectStorePut st (arg 0 args) (arg 1 args)) r s)).
Proof.
  unfold add, put.
  destruct (length args =? 0)%nat.
  { split; [intros; reflexivity | intros r s' Hadd; discriminate]. }
  cbv beta iota zeta delta [bind lift assertWritable get createRequest pushToQueue
    assertActive modify emit ret throw].
  destruct (validateKey st (arg 0 args) (arg 1 args)) as [[] | e0].
  2:{ split; [intros; reflexivity | intros r s' Hadd; discriminate]. }
  destruct (tx_mode s); cbv beta iota;
    try (split; [intros; reflexivity | intros r s' Hadd; discriminate]);
    cbn [tx_active set_heap]; destruct (tx_active s); cbv beta iota;
    try (split; [intros; reflexivity | intros r s' Hadd; discriminate]);
    (split; [intros e s'; split; intros Hx; discriminate |]);
    intros r s' Hadd; inversion Hadd; subst; split; reflexivity.
Qed.

(** ** The backend under [put] and [add] *)

Lemma paramMap_key (st : Store) (value primaryKey : Value) :
  index_names_ok st ->
  paramMap st value primaryKey !! "key"
  = if is_undefined primaryKey then None else Some (Key_encode primaryKey false).
Proof.
  unfold paramMap, index_names_ok.
  set (m0 := if is_undefined primaryKey then ∅ else {["key" := Key_encode primaryKey false]}).
  assert (m0 !! "key" = if is_undefined primaryKey then None
                        else Some (Key_encode primaryKey false)) as <-.
  { subst m0. destruct (is_undefined primaryKey).
    - apply lookup_empty.
    - apply lookup_singleton_eq. }
  generalize m0. induction (indexes st) as [| ix l IH]; intros m Hok; simpl.
  - reflexivity.
  - inversion Hok as [| ? ? [Hk _] Hl]; subst.
    rewrite (IH _ Hl). apply lookup_insert_ne. exact Hk.
Qed.

Lemma row_key (st : Store) (encoded : string) (value primaryKey : Value) :
  index_names_ok st ->
  (<["value" := encoded]> (paramMap st value primaryKey)) !! "key"
  = if is_undefined primaryKey then None else Some (Key_encode primaryKey false).
Proof.
  intros Hok. rewrite lookup_insert_ne by discriminate. apply paramMap_key, Hok.
Qed.

Lemma existsb_filter_out {A : Type} (p : A -> bool) (l : list A) :
  existsb p (filter (fun x => p x = false) l) = false.
Proof.
  induction l as [| x l IH]; [reflexivity |].
  rewrite filter_cons. destruct (decide (p x = false)) as [Hx | Hx]; simpl.
  - rewrite Hx. exact IH.
  - exact IH.
Qed.

Lemma filter_out_absent {A : Type} (p : A -> bool) (l : list A) :
  existsb p l = false -> filter (fun x => p x = false) l = l.
Proof.
  induction l as [| x l IH]; [reflexivity |]. simpl. intros Hx.
  apply orb_false_iff in Hx as [Hx Hl].
  rewrite filter_cons. destruct (decide (p x = false)); [| congruence].
  f_equal. apply IH, Hl.
Qed.

(** After the delete of [put], the insert finds no row with the key. *)
Lemma insert_after_delete (db db' : Backend) (store k : string) (n : nat)
    (t : Table) (row : gmap string string) :
  tables db !! store = Some t ->
  delete_by_key db store k = SqlOk n db' ->
  row !! "key" = Some k ->
  exists db'',
    insert_row db' store row = SqlOk tt db'' /\
    tables db'' !! store
    = Some {| t_autoinc := t_autoinc t;
              t_rows := filter (fun r => row_has_key k r = false) (t_rows t) ++ [row] |}.
Proof.
  intros Ht Hdel Hrow. unfold delete_by_key in Hdel. rewrite Ht in Hdel.
  inversion Hdel; subst; clear Hdel.
  unfold insert_row, set_rows. cbn [tables]. rewrite lookup_insert_eq, Hrow.
  cbn [t_rows t_autoinc]. rewrite existsb_filter_out.
  eexists. split; [reflexivity |]. cbn [tables]. rewrite lookup_insert_eq. reflexivity.
Qed.

Lemma insert_row_fresh (db : Backend) (store k : string) (t : Table)
    (row : gmap string string) :
  tables db !! store = Some t ->
  row !! "key" = Some k ->
  existsb (row_has_key k) (t_rows t) = false ->
  exists db', insert_row db store row = SqlOk tt db'.
Proof.
  intros Ht Hrow Hk. unfold insert_row. rewrite Ht, Hrow, Hk. eexists. reflexivity.
Qed.

(** What [__insertData] can hand to [error] when no row has the key. *)
Lemma insertData_fresh (st : Store) (db : Backend) (t : Table)
    (encoded : string) (value primaryKey : Value) :
  index_names_ok st ->
  tables db !! name st = Some t ->
  existsb (row_has_key (Key_encode primaryKey false)) (t_rows t) = false ->
  ~ In (DOMError "ConstraintError")
       (step_errors (insertData st db encoded value primaryKey)).
Proof.
  intros Hok Ht Hk. unfold insertData.
  destruct (is_undefined primaryKey) eqn:Hu.
  - unfold insert_row. rewrite Ht, (row_key st encoded value primaryKey Hok), Hu.
    destruct (Sca_decode (Sca_encode primaryKey)); simpl; tauto.
  - unfold Key_validate. destruct (Key_valid primaryKey); simpl.
    + destruct (insert_row_fresh db (name st) (Key_encode primaryKey false) t
                  (<["value" := encoded]> (paramMap st value primaryKey)) Ht)
        as [db' Hins]; [rewrite (row_key st _ _ _ Hok), Hu; reflexivity | exact Hk |].
      rewrite Hins. destruct (Sca_decode (Sca_encode primaryKey)); simpl; tauto.
    + intros [Hx | []]. discriminate.
Qed.

(** The part of [objectStorePut] that runs once the key is known. *)
Lemma put_step_no_constraint (st : Store) (db : Backend) (value primaryKey : Value) :
  index_names_ok st ->
  ~ In (DOMError "ConstraintError")
       (step_errors
          (match Key_validate primaryKey with
           | Throw e => Now (FThrow e)
           | Ok _ =>
               match delete_by_key db (name st) (Key_encode primaryKey false) with
               | SqlOk _ db' =>
                   match insertData st db' (Sca_encode value) value primaryKey with
                   | Now f => Later db' (fault_completion f)
                   | Later db'' c => Later db'' c
                   end
               | SqlFail err => Later db (CError err)
               end
           end)).
Proof.
  intros Hok. unfold Key_validate at 1.
  destruct (Key_valid primaryKey); [| simpl; intros [Hx | []]; discriminate].
  unfold delete_by_key.
  destruct (tables db !! name st) as [t |] eqn:Ht;
    [| simpl; intros [Hx | []]; discriminate].
  set (db' := set_rows db (name st) t _).
  pose proof (insertData_fresh st db'
                {| t_autoinc := t_autoinc t;
                   t_rows := filter (fun r => row_has_key (Key_encode primaryKey false) r = false)
                               (t_rows t) |}
                (Sca_encode value) value primaryKey Hok) as Hfresh.
  specialize (Hfresh ltac:(subst db'; unfold set_rows; cbn [tables];
                            apply lookup_insert_eq)
                     (existsb_filter_out _ _)).
  destruct (insertData st db' (Sca_encode value) value primaryKey) as [[e | e] | db'' c];
    simpl in *; try exact Hfresh.
  tauto.
Qed.

Lemma run_step_errors (db : Backend) (ctx : Fault -> SyncOutcome) (s : Step) (x : Exn) :
  ctx = sync_ctx \/ ctx = callback_ctx \/ ctx = guarded_ctx ->
  In x (errors_of (run_step db ctx s).2) ->
  In x (step_errors s) \/ x = DOMException "DataError".
Proof.
  intros Hctx. destruct s as [[e | e] | db' c]; simpl;
    destruct Hctx as [-> | [-> | ->]]; simpl; intros Hin;
    intuition (subst; simpl; auto).
Qed.

Lemma getNextAutoIncKey_failure (st : Store) (db : Backend) (e : Exn) :
  getNextAutoIncKey st db = CallFailure e -> e = DOMException "DataError".
Proof.
  unfold getNextAutoIncKey.
  destruct (select_sequence_like db (name st)) as [[| row [| ? ?]] ? | ?];
    intros Hx; inversion Hx; reflexivity.
Qed.

(** The queued procedure of [put] never hands a [ConstraintError] to the
    scheduler. *)
Lemma put_never_constraint_error (st : Store) (value key : Value) (db : Backend) :
  index_names_ok st ->
  ~ In (DOMError "ConstraintError") (errors_of (objectStorePut st value key db).2).
Proof.
  intros Hok Hin. unfold objectStorePut, deriveKey in Hin.
  assert (forall ctx pk v,
            ctx = sync_ctx \/ ctx = callback_ctx \/ ctx = guarded_ctx ->
            ~ In (DOMError "ConstraintError")
                 (errors_of (run_step db ctx
                    (match Key_validate pk with
                     | Throw e => Now (FThrow e)
                     | Ok _ =>
                         match delete_by_key db (name st) (Key_encode pk false) with
                         | SqlOk _ db' =>
                             match insertData st db' (Sca_encode v) v pk with
                             | Now f => Later db' (fault_completion f)
                             | Later db'' c => Later db'' c
                             end
                         | SqlFail err => Later db (CError err)
                         end
                     end)).2)) as Hstep.
  { intros ctx pk v Hctx Hx.
    destruct (run_step_errors _ _ _ _ Hctx Hx) as [Hy | Hy]; [| discriminate].
    apply (put_step_no_constraint st db v pk Hok Hy). }
  assert (forall e : Exn, In (DOMError "ConstraintError") [DOMException "DataError"] -> False)
    as Hdata by (intros _ [Hx | []]; discriminate).
  destruct (truthy (keyPath st)).
  - destruct (is_undefined (Key_getValue value (keyPath st)) && autoIncrement st).
    + destruct (getNextAutoIncKey st db) as [n | e] eqn:Hg.
      * destruct (Key_setValue value (keyPath st) (VNum n)) as [v | e].
        -- eapply Hstep; [| exact Hin]. tauto.
        -- apply (Hdata e Hin).
      * rewrite (getNextAutoIncKey_failure st db e Hg) in Hin. apply (Hdata e Hin).
    + eapply Hstep; [| exact Hin]. tauto.
  - destruct (is_undefined key && autoIncrement st).
    + destruct (getNextAutoIncKey st db) as [n | e] eqn:Hg.
      * eapply Hstep; [| exact Hin]. tauto.
      * rewrite (getNextAutoIncKey_failure st db e Hg) in Hin. apply (Hdata e Hin).
    + eapply Hstep; [| exact Hin]. tauto.
Qed.

(** [__deriveKey] hands a key it finds in the call straight to [success]. *)
Lemma deriveKey_given (st : Store) (db : Backend) (value key : Value)
    (success : Value -> Value -> Step) :
  is_undefined (given_key st value key) = false ->
  deriveKey st db value key success
  = run_step db sync_ctx (success (given_key st value key) value).
Proof.
  unfold given_key, deriveKey. intros Hk.
  destruct (truthy (keyPath st)); rewrite Hk; reflexivity.
Qed.

(** C3: [put] makes the same checks as [add] before it queues its
    procedure.  For a key found in the call, that procedure deletes the
    rows with the key (none, when the key is absent) and then inserts the
    new row: it cannot fail with [ConstraintError], while the procedure of
    [add] does fail with it when a row has the key.  Whatever the key, the
    procedure of [put] hands no [ConstraintError] to the scheduler. *)
Theorem put_replaces_where_add_conflicts
    (st : Store) (value key : Value) (db : Backend) (t : Table) :
  index_names_ok st ->
  tables db !! name st = Some t ->
  let pk := given_key st value key in
  is_undefined pk = false ->
  Key_valid pk = true ->
  let k := Key_encode pk false in
  let row := <["value" := Sca_encode value]> (paramMap st value pk) in
  let others := filter (fun r => row_has_key k r = false) (t_rows t) in
  (forall args s,
     (forall e s', add st args s = (Throw e, s') <-> put st args s = (Throw e, s')) /\
     (forall r s', add st args s = (Ok r, s') ->
        s' = queued (objectStoreAdd st (arg 0 args) (arg 1 args)) r s /\
        put st args s
        = (Ok r, queued (objectStorePut st (arg 0 args) (arg 1 args)) r s))) /\
  (exists db' c,
     objectStorePut st value key db = (db', SIssued c) /\
     tables db' !! name st
     = Some {| t_autoinc := t_autoinc t; t_rows := others ++ [row] |} /\
     completion_errors c = []) /\
  (existsb (row_has_key k) (t_rows t) = false -> others = t_rows t) /\
  (forall value' key' db',
     ~ In (DOMError "ConstraintError")
          (errors_of (objectStorePut st value' key' db').2)) /\
  (existsb (row_has_key k) (t_rows t) = true ->
   objectStoreAdd st value key db
   = (db, SIssued (CError (DOMError "ConstraintError")))).
Proof.
  intros Hok Ht pk Hpk Hvalid k row others.
  split; [intros args s; apply add_put_same_checks |].
  split; [| split; [| split]].
  - unfold objectStorePut. rewrite (deriveKey_given _ _ _ _ _ Hpk). fold pk.
    unfold Key_validate at 1. rewrite Hvalid. fold k.
    destruct (delete_by_key db (name st) k) as [n db1 | e] eqn:Hdel;
      [| unfold delete_by_key in Hdel; rewrite Ht in Hdel; discriminate].
    destruct (insert_after_delete db db1 (name st) k n t row Ht Hdel) as (db2 & Hins & Hrows).
    { subst row. rewrite (row_key st _ _ _ Hok), Hpk. reflexivity. }
    unfold insertData. rewrite Hpk. unfold Key_validate. rewrite Hvalid.
    fold row. rewrite Hins.
    destruct (Sca_decode (Sca_encode pk)); simpl;
      eexists; eexists; (split; [reflexivity | split; [exact Hrows | reflexivity]]).
  - apply filter_out_absent.
  - intros value' key' db'. apply put_never_constraint_error, Hok.
  - intros Hdup. unfold objectStoreAdd. rewrite (deriveKey_given _ _ _ _ _ Hpk). fold pk.
    unfold insertData. rewrite Hpk. unfold Key_validate. rewrite Hvalid.
    fold row. unfold insert_row. rewrite Ht.
    assert (row !! "key" = Some k) as ->
      by (subst row; rewrite (row_key st _ _ _ Hok), Hpk; reflexivity).
    rewrite Hdup. reflexivity.
Qed.

Lemma success_fires (v : Value) (s : State) (q : Entry) :
  cl_q s = Some q ->
  exists rest, trace (success v None s).2 = trace s ++ EvSuccess (e_req q) v :: rest.
Proof.
  intros Hq. rewrite (success_steps v s q Hq).
  set (h := handler onsuccess (e_req q) (mark_success v s q)).
  destruct (trace_grows (run_actions h >> modify (fun s => set_cl_i (S (cl_i s)) s) >>
                         executeNextRequest) (mark_success v s q)) as [rest Hrest].
  { pose proof (ext_stable (trace (mark_success v s q))) as Hst.
    repeat first
      [ inv_step | apply (stable_run_actions _ Hst) | apply (stable_executeNextRequest _ Hst) ].
    apply (stb_i Hst); assumption. }
  exists rest. rewrite Hrest. unfold mark_success. simpl.
  rewrite <- app_assoc. reflexivity.
Qed.

(** With an entry at the index, [executeNextRequest] calls its
    procedure. *)
Lemma executeNextRequest_starts (s : State) (e : Entry) :
  tx_requests s !! cl_i s = Some e ->
  exists rest, trace (executeNextRequest s).2 = trace s ++ EvOp (cl_i s) (e_req e) :: rest.
Proof.
  intros He. rewrite (executeNextRequest_steps s e He).
  destruct (trace_grows (try_catch (op_body e (calling e s)) (fun x => error x))
              (calling e s)) as [rest Hrest].
  { pose proof (ext_stable (trace (calling e s))) as Hst. unfold op_body.
    destruct (e_op e (backend (calling e s))) as [db' outcome].
    destruct outcome; repeat first [ apply (stable_error _ Hst) | inv_step ];
      first [ apply (stb_backend Hst) | apply (stb_inflight Hst) ]; assumption. }
  exists rest. rewrite Hrest. unfold calling. simpl. rewrite <- app_assoc. reflexivity.
Qed.

(** C8: the lookup queued by [get] ends with [success]: with
    [undefined] when no row has the key, with the decoded value of the
    first row otherwise, and with [undefined] when decoding that value
    throws.  Only a failing statement reaches [error]. *)
Theorem get_resolves_with_value_or_nothing
    (st : Store) (k : string) (db : Backend) (s : State) (q : Entry) :
  cl_q s = Some q ->
  match select_by_key db (name st) k with
  | SqlOk rows _ =>
      let v := match rows with
               | [] => VUndefined
               | row :: _ =>
                   match Sca_decode (default "" (row !! "value")) with
                   | Ok v => v
                   | Throw _ => VUndefined
                   end
               end in
      exists c,
        objectStoreGet st k db = (db, SIssued c) /\
        exists rest, trace (deliver c s).2 = trace s ++ EvSuccess (e_req q) v :: rest
  | SqlFail e => objectStoreGet st k db = (db, SIssued (CError e))
  end.
Proof.
  intros Hq. unfold objectStoreGet.
  destruct (select_by_key db (name st) k) as [[| row rows] db' | e]; [| | reflexivity].
  - eexists. split; [reflexivity |]. simpl. unfold try_catch.
    destruct (success_fires VUndefined s q Hq) as [rest Hrest].
    destruct (success VUndefined None s) as [[[] | e] s1]; simpl in *.
    + exists rest. exact Hrest.
    + destruct (trace_grows (success VUndefined None) s1
                  (stable_success _ (ext_stable _) _ _)) as [rest' Hrest'].
      exists (rest ++ rest'). rewrite Hrest', Hrest, <- app_assoc. reflexivity.
  - destruct (Sca_decode (default "" (row !! "value"))) as [v | e];
      (eexists; split; [reflexivity | apply success_fires, Hq]).
Qed.

End FacadeFacts.

(** * The active window *)

Section ActiveWindow.
Context `{Collaborators}.

Lemma Key_validate_throws (key : Value) (e : Exn) :
  Key_validate key = Throw e -> e = DOMException "DataError".
Proof.
  unfold Key_validate. destruct (Key_valid key); intros Hx; inversion Hx; reflexivity.
Qed.

Lemma validateKey_throws (st : Store) (value key : Value) (e : Exn) :
  validateKey st value key = Throw e -> e = DOMException "DataError".
Proof.
  unfold validateKey.
  repeat match goal with
         | |- context [if ?b then _ else _] => destruct b
         end;
    intros Hx; try (inversion Hx; reflexivity); try discriminate;
    apply (Key_validate_throws _ _ Hx).
Qed.

Lemma addToTransactionQueue_inactive (p : Proc) (a : Value) (s : State) :
  tx_active s = false ->
  addToTransactionQueue p a s
  = (Throw (DOMException "TransactionInactiveError"),
     set_heap (heap s ++ [new_request]) s).
Proof.
  intros Ha.
  cbv beta iota delta [addToTransactionQueue bind createRequest pushToQueue assertActive get].
  cbn [tx_active set_heap]. rewrite Ha. reflexivity.
Qed.

(** On an inactive transaction every call of the façade throws and queues
    nothing; the error is [TransactionInactiveError] unless a check of the
    arguments or of the mode throws first. *)
Lemma call_on_inactive (c : Call) (s : State) :
  tx_active s = false ->
  exists e s',
    run_call c s = (Throw e, s') /\
    tx_requests s' = tx_requests s /\
    trace s' = trace s /\
    (e = DOMException "TransactionInactiveError" \/ (s' = s /\ argument_error e)).
Proof.
  intros Ha.
  assert (forall p a, exists e s',
            addToTransactionQueue p a s = (Throw e, s') /\
            tx_requests s' = tx_requests s /\ trace s' = trace s /\
            (e = DOMException "TransactionInactiveError" \/ (s' = s /\ argument_error e)))
    as Hq.
  { intros p a. rewrite (addToTransactionQueue_inactive p a s Ha).
    eexists. eexists. repeat (split; [reflexivity |]). left. reflexivity. }
  assert (forall e, argument_error e -> exists e' s',
            (@Throw nat e, s) = (Throw e', s') /\
            tx_requests s' = tx_requests s /\ trace s' = trace s /\
            (e' = DOMException "TransactionInactiveError" \/ (s' = s /\ argument_error e')))
    as Harg.
  { intros e He. exists e, s. repeat (split; [reflexivity |]).
    right. split; [reflexivity | exact He]. }
  unfold argument_error in Harg.
  destruct c as [st args | st args | st args | st args | st | st args | p]; simpl.
  - unfold add. destruct (length args =? 0)%nat; [apply Harg; auto |].
    cbv beta iota delta [bind lift]. 
    destruct (validateKey st (arg 0 args) (arg 1 args)) as [[] | e] eqn:Hv;
      [| rewrite (validateKey_throws _ _ _ _ Hv); apply Harg; auto].
    unfold assertWritable. cbv beta iota delta [bind get throw ret].
    destruct (tx_mode s); [apply Harg; auto | |];
      cbv beta iota delta [createRequest pushToQueue assertActive bind get];
      cbn [tx_active set_heap]; rewrite Ha; eexists; eexists;
      repeat (split; [reflexivity |]); left; reflexivity.
  - unfold put. destruct (length args =? 0)%nat; [apply Harg; auto |].
    cbv beta iota delta [bind lift]. 
    destruct (validateKey st (arg 0 args) (arg 1 args)) as [[] | e] eqn:Hv;
      [| rewrite (validateKey_throws _ _ _ _ Hv); apply Harg; auto].
    unfold assertWritable. cbv beta iota delta [bind get throw ret].
    destruct (tx_mode s); [apply Harg; auto | |];
      cbv beta iota delta [createRequest pushToQueue assertActive bind get];
      cbn [tx_active set_heap]; rewrite Ha; eexists; eexists;
      repeat (split; [reflexivity |]); left; reflexivity.
  - unfold get_. destruct (length args =? 0)%nat; [apply Harg; auto |].
    cbv beta iota delta [bind lift].
    destruct (Key_validate (arg 0 args)) as [[] | e] eqn:Hv;
      [apply Hq | rewrite (Key_validate_throws _ _ Hv); apply Harg; auto].
  - unfold delete_. destruct (length args =? 0)%nat; [apply Harg; auto |].
    unfold assertWritable. cbv beta iota delta [bind get throw ret lift].
    destruct (tx_mode s); [apply Harg; auto | |];
      (destruct (Key_validate (arg 0 args)) as [[] | e] eqn:Hv;
       [apply Hq | rewrite (Key_validate_throws _ _ Hv); apply Harg; auto]).
  - unfold clear, assertWritable. cbv beta iota delta [bind get throw ret].
    destruct (tx_mode s); [apply Harg; auto | apply Hq | apply Hq].
  - unfold count. cbv beta iota delta [bind lift ret].
    destruct (is_undefined (arg 0 args)); [apply Hq |].
    destruct (Key_validate (arg 0 args)) as [[] | e] eqn:Hv;
      [apply Hq | rewrite (Key_validate_throws _ _ Hv); apply Harg; auto].
  - apply Hq.
Qed.

(** When the index has reached the end of the queue, [executeNextRequest]
    leaves the transaction inactive. *)
Lemma drained_is_inactive (s : State) :
  (length (tx_requests s) <= cl_i s)%nat ->
  tx_active (executeNextRequest s).2 = false.
Proof.
  intros Hlen. unfold executeNextRequest.
  cbv beta iota delta [bind get]. 
  destruct (Nat.leb_spec (length (tx_requests s)) (cl_i s)) as [_ | Hlt]; [| lia].
  destruct (tx_active s) eqn:Ha.
  - cbv beta iota delta [bind modify].
    apply (inv_state (fun s => tx_active s = false) transactionFinished).
    + apply (stable_transactionFinished _ inactive_stable). intros; assumption.
    + reflexivity.
  - exact Ha.
Qed.

(** C9: once the index has reached the end of the queue the transaction
    is inactive and stays so: from then on every enqueue throws
    [TransactionInactiveError], and every call of the façade throws
    without queueing anything.  While the last queued operation is still
    in flight and the transaction is active, a caller can still enqueue,
    and the scheduler runs the new operation in the same pass, right
    after the one in flight succeeds. *)
Theorem enqueue_window (s : State) :
  (length (tx_requests s) <= cl_i s)%nat ->
  let s1 := (executeNextRequest s).2 in
  tx_active s1 = false /\
  (forall sched s2, run sched s1 = Some s2 ->
     tx_active s2 = false /\
     (forall r p a, pushToQueue r p a s2
                    = (Throw (DOMException "TransactionInactiveError"), s2)) /\
     (forall c, exists e s3,
        run_call c s2 = (Throw e, s3) /\
        tx_requests s3 = tx_requests s2 /\
        trace s3 = trace s2 /\
        (e = DOMException "TransactionInactiveError" \/ (s3 = s2 /\ argument_error e)))) /\
  (forall (s : State) (q : Entry) (rq : Request) (v : Value) (p : Proc)
          (hs he : list Action),
     phase s = Open ->
     tx_active s = true ->
     inflight s = Some (CSuccess v None) ->
     cl_q s = Some q ->
     heap s !! e_req q = Some rq ->
     onsuccess rq = [] ->
     S (cl_i s) = length (tx_requests s) ->
     exists s' rest,
       run [LCaller [ARequest (MRaw p) hs he]; LStatement] s = Some s' /\
       trace s'
       = trace s ++ [EvEnqueue (length (heap s)); EvSuccess (e_req q) v;
                     EvOp (S (cl_i s)) (length (heap s))] ++ rest).
Proof.
  intros Hlen s1.
  assert (tx_active s1 = false) as Hs1 by apply (drained_is_inactive s Hlen).
  split; [exact Hs1 |]. split.
  - intros sched s2 Hrun.
    assert (tx_active s2 = false) as Ha
      by apply (stable_run _ inactive_stable sched s1 s2 Hrun Hs1).
    split; [exact Ha |]. split.
    + intros r p a. apply pushToQueue_inactive, Ha.
    + intros c. apply call_on_inactive, Ha.
  - clear s Hlen s1 Hs1.
    intros s q rq v p hs he Hph Hact Hfl Hq Hrq Hh Hi.
    set (r := length (heap s)).
    set (entry := mkEntry p VUndefined r).
    set (sa := set_heap (alter (fun rq0 =>
                   {| readyState := readyState rq0; result := result rq0;
                      rq_error := rq_error rq0; onsuccess := hs; onerror := he |})
                   r (heap s ++ [new_request]))
                 (set_trace (trace s ++ [EvEnqueue r])
                    (set_tx_requests (tx_requests s ++ [entry])
                       (set_heap (heap s ++ [new_request]) s)))).
    assert (fire (LCaller [ARequest (MRaw p) hs he]) s = Some sa) as Hfa.
    { cbv beta iota delta [fire turn run_actions run_action run_call addToTransactionQueue
        bind createRequest pushToQueue assertActive get modify emit ret install].
      cbn [tx_active set_heap]. rewrite Hact. reflexivity. }
    cbn [run]. rewrite Hfa.
    assert (fire LStatement sa
            = Some (websql_turn (success v None) (set_inflight None sa))) as ->.
    { cbn [fire]. cbn [phase inflight sa set_heap set_trace set_tx_requests].
      rewrite Hph, Hfl. reflexivity. }
    pose proof (lookup_lt_Some _ _ _ Hrq) as Hlt.
    set (sb := set_inflight None sa).
    assert (cl_q sb = Some q) as Hqb by exact Hq.
    unfold websql_turn. rewrite (success_steps v sb q Hqb).
    assert (handler onsuccess (e_req q) (mark_success v sb q) = []) as ->.
    { unfold handler, mark_success. cbn [heap set_trace set_heap sb sa set_inflight].
      rewrite list_lookup_alter_eq, list_lookup_alter_ne by (subst r; lia).
      rewrite lookup_app_l by exact Hlt. rewrite Hrq. cbn. exact Hh. }
    cbn [run_actions].
    set (sc := set_cl_i (S (cl_i (mark_success v sb q))) (mark_success v sb q)).
    assert ((ret tt >> modify (fun s => set_cl_i (S (cl_i s)) s) >> executeNextRequest)
              (mark_success v sb q) = executeNextRequest sc) as -> by reflexivity.
    destruct (executeNextRequest_starts sc entry) as [rest Hrest].
    { subst sc. cbn [tx_requests cl_i set_cl_i mark_success set_trace set_heap sb sa
                     set_inflight set_tx_requests].
      rewrite Hi. apply list_lookup_middle. reflexivity. }
    assert (trace sc = trace s ++ [EvEnqueue r; EvSuccess (e_req q) v]) as Htr.
    { subst sc. unfold mark_success. cbn. rewrite <- app_assoc. reflexivity. }
    assert (cl_i sc = S (cl_i s)) as Hic by reflexivity.
    rewrite Htr, Hic in Hrest. cbn [e_req entry] in Hrest.
    destruct (executeNextRequest sc) as [[[] | e] s'] eqn:Hex; cbn [snd] in Hrest.
    + eexists. exists rest. split; [reflexivity |].
      rewrite Hrest, <- app_assoc. reflexivity.
    + eexists. exists rest. split; [reflexivity |].
      cbn [trace set_phase]. rewrite Hrest, <- app_assoc. reflexivity.
Qed.

(** C4 (amended): [abort()] marks the transaction inactive at once and
    fires nothing itself: the "abort" event comes from a timer, in a later
    turn.  It leaves the queue as it is, and [executeNextRequest] calls
    the procedure at the index whether or not the transaction is active.
    From then on the transaction stays inactive, fires no completion event
    and refuses every enqueue. *)
Theorem abort_marks_inactive_and_defers_event (s : State) :
  let s' := (abort s).2 in
  (abort s).1 = Ok tt /\
  tx_active s' = false /\
  trace s' = trace s /\
  tx_requests s' = tx_requests s /\
  abort_timers s' = S (abort_timers s) /\
  (exists s'' rest, fire LAbortTimer s' = Some s'' /\
                    trace s'' = trace s ++ EvAbort :: rest) /\
  (forall s2 q, tx_requests s2 !! cl_i s2 = Some q ->
     exists rest, trace (executeNextRequest s2).2
                  = trace s2 ++ EvOp (cl_i s2) (e_req q) :: rest) /\
  (forall sched s2, run sched s' = Some s2 ->
     tx_active s2 = false /\
     completions (trace s2) = completions (trace s) /\
     forall r p a, pushToQueue r p a s2
                   = (Throw (DOMException "TransactionInactiveError"), s2)).
Proof.
  simpl. repeat (split; [reflexivity |]). split.
  - destruct (callback_fires EvAbort (tx_onabort s)
                (set_abort_timers (abort_timers s) (set_tx_active false s)))
      as [rest Hrest].
    destruct (turn_grows (callback EvAbort (tx_onabort s))
                (set_abort_timers (abort_timers s) (set_tx_active false s)))
      as [rest' Hrest'].
    exists (turn (callback EvAbort (tx_onabort s))
              (set_abort_timers (abort_timers s) (set_tx_active false s))).
    exists (rest ++ rest'). split; [reflexivity |].
    rewrite Hrest', Hrest. simpl. rewrite <- app_assoc. reflexivity.
  - split; [intros s2 q; apply executeNextRequest_starts |].
    intros sched s2 Hrun.
    assert (inactive_with (completions (trace s)) s2) as [Ha Hc].
    { apply (stable_run _ (inactive_with_stable _) sched _ s2 Hrun).
      split; reflexivity. }
    split; [exact Ha |]. split; [exact Hc |].
    intros r p a. apply pushToQueue_inactive, Ha.
Qed.

End ActiveWindow.

(** * Order of execution *)

Lemma fifo_snoc (tr : list Event) (e : Event) :
  fifo (tr ++ [e]) = fifo_step (fifo tr) e.
Proof. unfold fifo. rewrite fold_left_app. reflexivity. Qed.

Lemma fifo_silent (tr : list Event) (e : Event) :
  is_bookkeeping e = false -> (forall r, e <> EvEnqueue r) ->
  fifo (tr ++ [e]) = fifo tr.
Proof.
  intros He Hq. rewrite fifo_snoc.
  destruct e; try reflexivity; try discriminate. destruct (Hq req eq_refl).
Qed.

Ltac core_split :=
  split; [| split; [| split; [| split; [| split; [| split]]]]].

(** Firing an event that [fifo] ignores keeps [Core]. *)
Lemma core_quiet (ph : Phase) G (e : Event) (s : State) :
  is_bookkeeping e = false -> (forall r, e <> EvEnqueue r) ->
  Core ph G s -> Core ph G (set_trace (trace s ++ [e]) s).
Proof.
  intros He Hq HC. unfold Core in *. cbn [trace set_trace phase tx_requests cl_q cl_i].
  rewrite (fifo_silent _ _ He Hq). exact HC.
Qed.

Lemma core_transactionError `{Collaborators} (ph : Phase) G (err : Exn) :
  UserStable (Core ph G) -> inv (Core ph G) (transactionError err).
Proof.
  intros Hus. apply (user_transactionError _ Hus).
  intros e s. apply core_quiet; [reflexivity | discriminate].
Qed.

Lemma core_user_stable (ph : Phase) G : UserStable (Core ph G).
Proof.
  split.
  - intros e s He. apply core_quiet; destruct e; try discriminate; reflexivity.
  - intros r p a s Hact (Hph & Hok & Hq & Hcur & HG & Hz & He).
    unfold Core, drained.
    cbn [trace set_trace set_tx_requests phase tx_requests cl_q cl_i tx_active].
    rewrite fifo_snoc. cbn [fifo_step f_enq f_started f_cur f_resolved f_ok].
    assert (~ drained s) as Hnd by (intros [_ Hx]; congruence).
    core_split; try assumption.
    + left. rewrite map_app. destruct Hq as [Hq | Hq]; [| contradiction].
      rewrite Hq. reflexivity.
    + left. destruct HG as [HG | HG]; [exact HG | contradiction].
  - intros h s HC. exact HC.
  - intros s (Hph & Hok & Hq & Hcur & HG & Hz & He).
    unfold Core, drained in *. cbn [trace set_tx_active phase tx_requests cl_q cl_i tx_active].
    core_split; try assumption.
    + destruct Hq as [Hq | [Hq _]]; [left; exact Hq | right; auto].
    + destruct HG as [HG | [HG _]]; [left; exact HG | right; auto].
  - intros n s HC. exact HC.
  - intros s HC. exact HC.
  - intros e s HC. exact HC.
Qed.

Lemma core_weaken (ph : Phase) (G G' : nat -> bool -> nat -> Prop) (s : State) :
  (forall st res i, G st res i -> G' st res i) ->
  Core ph G s -> Core ph G' s.
Proof.
  intros HGG (Hph & Hok & Hq & Hcur & HG & Hz & He).
  core_split; try assumption.
  destruct HG as [HG | HG]; [left; apply HGG, HG | right; exact HG].
Qed.

(** The event of [error] on the request of the running entry. *)
Lemma core_mark_error (ph : Phase) G (err : Exn) (s : State) (q : Entry) :
  (forall st res i, G st res i -> G st true i) ->
  cl_q s = Some q ->
  Core ph G s -> Core ph G (mark_error err s q).
Proof.
  intros Hup Hq (Hph & Hok & Hl & Hcur & HG & Hz & He).
  unfold Core, drained, mark_error in *.
  cbn [trace set_trace set_heap phase tx_requests cl_q cl_i tx_active].
  rewrite fifo_snoc. cbn [fifo_step f_enq f_started f_cur f_resolved f_ok].
  rewrite Hq in Hcur. cbn in Hcur.
  core_split; try assumption.
  - rewrite Hok, Hcur. cbn [andb]. apply bool_decide_eq_true_2. reflexivity.
  - rewrite Hq. exact Hcur.
  - destruct HG as [HG | HG]; [left; apply (Hup _ _ _ HG) | right; exact HG].
  - intros Hs. split; [apply Hz, Hs | reflexivity].
Qed.

(** The event of [success] on the request of the running entry. *)
Lemma core_mark_success (ph : Phase) (v : Value) (s : State) (q : Entry) :
  cl_q s = Some q ->
  Core ph Rest s -> Core ph Mid (mark_success v s q).
Proof.
  intros Hq (Hph & Hok & Hl & Hcur & HG & Hz & He).
  unfold Core, drained, mark_success in *.
  cbn [trace set_trace set_heap phase tx_requests cl_q cl_i tx_active].
  rewrite fifo_snoc. cbn [fifo_step f_enq f_started f_cur f_resolved f_ok].
  rewrite Hq in Hcur. cbn in Hcur.
  core_split; try assumption.
  - rewrite Hok, Hcur. cbn [andb]. apply bool_decide_eq_true_2. reflexivity.
  - rewrite Hq. exact Hcur.
  - destruct HG as [[[Hs _] | Hs] | HG].
    + destruct (Hz Hs) as [Hn _]. congruence.
    + left. split; [exact Hs | reflexivity].
    + right. exact HG.
  - intros Hs. split; [apply Hz, Hs | reflexivity].
Qed.

(** [q.req = req] in [success]. *)
Lemma core_rebind (ph : Phase) G (r : nat) (s : State) (q : Entry) :
  cl_q s = Some q ->
  Core ph G s ->
  Core ph G (set_trace (trace s ++ [EvRebind r])
               (set_cl_q (Some {| e_op := e_op q; e_args := e_args q; e_req := r |}) s)).
Proof.
  intros Hq (Hph & Hok & Hl & Hcur & HG & Hz & He).
  unfold Core, drained in *.
  cbn [trace set_trace set_cl_q phase tx_requests cl_q cl_i tx_active].
  rewrite fifo_snoc. cbn [fifo_step f_enq f_started f_cur f_resolved f_ok].
  rewrite Hq in Hcur. cbn in Hcur.
  core_split; try assumption.
  - rewrite Hok, Hcur. cbn [andb]. apply bool_decide_eq_true_2. discriminate.
  - reflexivity.
  - intros Hs. destruct (Hz Hs) as [Hn _]. congruence.
Qed.

(** The call of the procedure at the index. *)
Lemma core_calling (ph : Phase) (s : State) (q : Entry) :
  ~ early ph ->
  tx_requests s !! cl_i s = Some q ->
  Core ph Ready s -> Core ph Rest (calling q s).
Proof.
  intros Hph' Hq (Hph & Hok & Hl & Hcur & HG & Hz & He).
  assert (~ drained s) as Hnd.
  { intros [Hx _]. rewrite Hx in Hq. discriminate. }
  destruct Hl as [Hl | Hl]; [| contradiction].
  destruct HG as [[Hi Hres] | HG]; [| contradiction].
  unfold Core, drained, calling in *.
  cbn [trace set_trace set_cl_q phase tx_requests cl_q cl_i tx_active].
  rewrite fifo_snoc. cbn [fifo_step f_enq f_started f_cur f_resolved f_ok].
  core_split; try assumption.
  - rewrite Hok, Hres, <- Hl, <- Hi, list_lookup_fmap, Hq.
    cbn [andb fmap option_fmap option_map].
    rewrite !bool_decide_eq_true_2; reflexivity.
  - left. exact Hl.
  - reflexivity.
  - left. right. rewrite Hi. reflexivity.
  - discriminate.
  - intros Hx. contradiction.
Qed.

(** The end of a pass. *)
Lemma core_drain (ph : Phase) G G' (s : State) :
  Core ph G s -> Core ph G' (set_tx_active false (set_tx_requests [] s)).
Proof.
  intros (Hph & Hok & Hl & Hcur & HG & Hz & He).
  unfold Core, drained in *.
  cbn [trace set_tx_active set_tx_requests phase tx_requests cl_q cl_i tx_active].
  core_split; try assumption; right; split; reflexivity.
Qed.

Lemma core_drain_inactive (ph : Phase) G G' (s : State) :
  tx_active s = false ->
  Core ph G s -> Core ph G' (set_tx_requests [] s).
Proof.
  intros Ha (Hph & Hok & Hl & Hcur & HG & Hz & He).
  unfold Core, drained in *.
  cbn [trace set_tx_requests phase tx_requests cl_q cl_i tx_active].
  core_split; try assumption; right; split; first [reflexivity | assumption].
Qed.

Section Order.
Context `{Collaborators}.

Lemma core_error (ph : Phase) G (err : Exn) :
  (forall st res i, G st res i -> G st true i) ->
  inv (Core ph G) (error err).
Proof.
  intros Hup s HC.
  pose proof (core_user_stable ph G) as Hus.
  destruct (cl_q s) as [q |] eqn:Hq.
  - rewrite (error_steps err s q Hq).
    apply (inv_try_finally (Core ph G) _ _
             (user_run_actions _ Hus _) (core_transactionError ph G err Hus)).
    apply core_mark_error; assumption.
  - rewrite (error_null err s Hq).
    apply (inv_try_finally (Core ph G) _ _
             (inv_throw _ TypeError) (core_transactionError ph G err Hus)).
    exact HC.
Qed.

Lemma rest_up (st : nat) (res : bool) (i : nat) : Rest st res i -> Rest st true i.
Proof. intros HR. exact HR. Qed.

Lemma core_op_body (ph : Phase) (q : Entry) (s0 : State) :
  inv (Core ph Rest) (op_body q s0).
Proof.
  unfold op_body. destruct (e_op q (backend s0)) as [db' outcome].
  apply inv_bind; [apply inv_modify; intros s HC; exact HC | intros _].
  destruct outcome.
  - apply inv_throw.
  - apply core_error, rest_up.
  - apply inv_modify. intros s HC. exact HC.
  - apply inv_ret.
Qed.

(** From a state that is ready for the next procedure,
    [executeNextRequest] leaves one in which the index is that of the
    last procedure called. *)
Lemma core_executeNextRequest (ph : Phase) :
  ~ early ph ->
  hoare (Core ph Ready) executeNextRequest
    (fun _ => Core ph Rest) (fun _ => Core ph Rest).
Proof.
  intros Hph s HC.
  pose proof (core_user_stable ph Rest) as Hus.
  destruct (tx_requests s !! cl_i s) as [q |] eqn:Hq.
  - rewrite (executeNextRequest_steps s q Hq).
    apply (inv_try_catch (Core ph Rest) _ _ (core_op_body ph q (calling q s))
             (fun e => core_error ph Rest e rest_up)).
    apply core_calling; assumption.
  - apply lookup_ge_None in Hq. rewrite (executeNextRequest_drained s Hq).
    destruct (tx_active s) eqn:Ha.
    + apply (user_transactionFinished _ Hus).
      * intros e s1 He. apply core_quiet; destruct e; try discriminate; reflexivity.
      * apply (core_drain ph Ready Rest s HC).
    + apply (core_drain_inactive ph Ready Rest s Ha HC).
Qed.

Lemma core_success (ph : Phase) (v : Value) (r : option nat) :
  ~ early ph ->
  inv (Core ph Rest) (success v r).
Proof.
  intros Hph.
  assert (forall s, Core ph Rest s ->
            match success v None s with
            | (Ok _, s') => Core ph Rest s'
            | (Throw _, s') => Core ph Rest s'
            end) as Hnone.
  { intros s HC. destruct (cl_q s) as [q |] eqn:Hq.
    - rewrite (success_steps v s q Hq).
      eapply (hoare_bind (Core ph Mid) _ _ (fun _ => Core ph Mid)).
      + eapply hoare_post; [| | apply (user_run_actions _ (core_user_stable ph Mid))].
        * intros a s1 H1. exact H1.
        * intros e s1 H1. apply (core_weaken ph Mid Rest); [| exact H1].
          intros st res i [Hs _]. right. exact Hs.
      + intros _. eapply (hoare_bind _ _ _ (fun _ => Core ph Ready)).
        * apply hoare_modify. intros s1 (Hp & Hok & Hl & Hcur & HG & Hz & He).
          unfold Core, drained in *.
          cbn [trace set_cl_i phase tx_requests cl_q cl_i tx_active].
          core_split; try assumption.
          destruct HG as [[Hs Hres] | HG]; [left | right; exact HG].
          split; [symmetry; exact Hs | exact Hres].
        * intros _. apply core_executeNextRequest, Hph.
      + apply core_mark_success; assumption.
    - rewrite (success_null v None s Hq). exact HC. }
  intros s HC. destruct r as [r |]; [| apply Hnone, HC].
  destruct (cl_q s) as [q |] eqn:Hq.
  - rewrite (success_rebind v r s q Hq). apply Hnone, core_rebind; assumption.
  - rewrite (success_null v (Some r) s Hq). exact HC.
Qed.

Lemma core_deliver (ph : Phase) (c : Completion) :
  ~ early ph ->
  inv (Core ph Rest) (deliver c).
Proof.
  intros Hph. induction c; simpl.
  - apply core_success, Hph.
  - apply core_error, rest_up.
  - apply inv_throw.
  - apply inv_try_catch; [exact IHc1 | intros _; exact IHc2].
Qed.

Lemma core_set_phase (ph ph' : Phase) G (s : State) :
  ~ early ph' ->
  Core ph G s -> Core ph' G (set_phase ph' s).
Proof.
  intros Hph' (Hph & Hok & Hl & Hcur & HG & Hz & He).
  unfold Core, drained in *. cbn [trace set_phase phase tx_requests cl_q cl_i tx_active].
  core_split; try assumption; [reflexivity | intros Hx; contradiction].
Qed.

Lemma not_early_open : ~ early Open.
Proof. intros [Hx | Hx]; discriminate. Qed.

Lemma not_early_failed : ~ early Failed.
Proof. intros [Hx | Hx]; discriminate. Qed.

Lemma not_early_faulted (e : Exn) : ~ early (Faulted e).
Proof. intros [Hx | Hx]; discriminate. Qed.

Lemma core_self (ph : Phase) G (s : State) :
  Core ph G s -> Core (phase s) G s.
Proof. intros HC. pose proof HC as (Hp & _). rewrite Hp. exact HC. Qed.

Lemma consistent_turn (m : M unit) (s : State) :
  (forall ph, inv (Core ph Rest) m) ->
  Consistent s -> Consistent (turn m s).
Proof.
  intros Hm HC. unfold Consistent in *.
  apply (core_self (phase s)).
  apply (user_turn _ (core_user_stable (phase s) Rest) m s (Hm _) HC).
Qed.

Lemma consistent_websql_turn (m : M unit) (s : State) :
  ~ early (phase s) ->
  inv (Core (phase s) Rest) m ->
  Consistent s -> Consistent (websql_turn m s).
Proof.
  intros Hph Hm HC. unfold Consistent, websql_turn in *.
  specialize (Hm s HC). destruct (m s) as [[[] | e] s1].
  - apply (core_self (phase s)), Hm.
  - cbn [phase set_phase]. apply (core_set_phase (phase s)); [apply not_early_faulted | exact Hm].
Qed.

(** Every turn of the event loop keeps the scheduler consistent with its
    trace. *)
Lemma consistent_fire (l : Label) (s s' : State) :
  fire l s = Some s' -> Consistent s -> Consistent s'.
Proof.
  destruct l as [| | | e | | script]; cbn [fire]; intros Hf HC.
  - destruct (phase s) eqn:Hph; inversion Hf; subst.
    unfold turn, executeRequests. rewrite run_bind_get.
    destruct (tx_running s); [exact HC |].
    cbv beta iota delta [bind modify]. unfold Consistent in *.
    cbn [phase set_phase set_tx_running].
    destruct HC as (_ & Hok & Hl & Hcur & HG & Hz & He).
    assert (f_started (fifo (trace s)) = 0%nat) as Hs
      by (apply He; rewrite Hph; left; reflexivity).
    unfold Core, drained in *.
    cbn [trace set_phase set_tx_running phase tx_requests cl_q cl_i tx_active].
    core_split; try assumption; [reflexivity | intros _; exact Hs].
  - destruct (phase s) eqn:Hph; inversion Hf; subst.
    set (s2 := set_cl_i 0%nat (set_cl_q None (set_phase Open s))).
    assert (Core Open Ready s2) as H2.
    { destruct HC as (_ & Hok & Hl & Hcur & HG & Hz & He).
      assert (f_started (fifo (trace s)) = 0%nat) as Hs
        by (apply He; rewrite Hph; right; reflexivity).
      destruct (Hz Hs) as [Hn Hres].
      unfold Core, drained in *. subst s2.
      cbn [trace set_phase set_cl_q set_cl_i phase tx_requests cl_q cl_i tx_active].
      core_split; try assumption.
      - reflexivity.
      - left. split; [symmetry; exact Hs | exact Hres].
      - intros Hx. destruct (not_early_open Hx). }
    pose proof (core_executeNextRequest Open not_early_open s2 H2) as Hex.
    unfold websql_turn.
    change (transactionCallback (set_phase Open s)) with (executeNextRequest s2).
    unfold Consistent.
    destruct (executeNextRequest s2) as [[[] | e] s3].
    + apply (core_self Open), Hex.
    + cbn [phase set_phase]. apply (core_set_phase Open); [apply not_early_faulted | exact Hex].
  - destruct (phase s) eqn:Hph; try discriminate.
    destruct (inflight s) as [c |]; inversion Hf; subst.
    apply consistent_websql_turn.
    + cbn [phase set_inflight]. rewrite Hph. apply not_early_open.
    + apply core_deliver. cbn [phase set_inflight]. rewrite Hph. apply not_early_open.
    + exact HC.
  - assert (Consistent (turn (transactionError e) (set_phase Failed s))) as Hgoal.
    { apply consistent_turn.
      - intros ph. apply core_transactionError, core_user_stable.
      - unfold Consistent. cbn [phase set_phase].
        apply (core_set_phase (phase s)); [apply not_early_failed | exact HC]. }
    destruct (phase s); try discriminate; inversion Hf; subst; exact Hgoal.
  - destruct (abort_timers s) as [| n] eqn:Hn; inversion Hf; subst.
    apply consistent_turn.
    + intros ph. apply user_callback; [apply core_user_stable | reflexivity].
    + exact HC.
  - inversion Hf; subst. apply consistent_turn; [| exact HC].
    intros ph. apply user_run_actions, core_user_stable.
Qed.

Lemma consistent_run (sched : list Label) (s s' : State) :
  run sched s = Some s' -> Consistent s -> Consistent s'.
Proof.
  revert s. induction sched as [| l sched IH]; simpl; intros s Hr HC.
  - inversion Hr; subst; exact HC.
  - destruct (fire l s) as [s1 |] eqn:Hf; [| discriminate].
    apply (IH s1 Hr). apply (consistent_fire l s s1 Hf HC).
Qed.

Lemma consistent_new (mode : Mode) (db : Backend) (h1 h2 h3 h4 h5 : list Action) :
  Consistent (new_transaction mode db h1 h2 h3 h4 h5).
Proof.
  unfold Consistent, Core, drained, Rest. cbn.
  core_split; auto.
Qed.

End Order.

(** * A pass over a queue of operations that succeed *)

Lemma pass_events_app (i : nat) (l1 l2 : list Value) :
  pass_events i (l1 ++ l2) = pass_events i l1 ++ pass_events (i + length l1) l2.
Proof.
  revert i. induction l1 as [| v l1 IH]; intros i; simpl.
  - rewrite Nat.add_0_r. reflexivity.
  - rewrite IH. replace (i + S (length l1))%nat with (S i + length l1)%nat by lia.
    reflexivity.
Qed.

Lemma pass_events_take_S (vs : list Value) (i : nat) (v : Value) :
  vs !! i = Some v ->
  pass_events 0 (take (S i) vs) = pass_events 0 (take i vs) ++ [EvOp i i; EvSuccess i v].
Proof.
  intros Hv. rewrite (take_S_r vs i v Hv), pass_events_app. simpl.
  rewrite length_take, Nat.min_l; [reflexivity |].
  apply lookup_lt_Some in Hv. lia.
Qed.

Lemma imap_entry_lookup (vs : list Value) (i : nat) :
  imap entry_of vs !! i = entry_of i <$> vs !! i.
Proof. apply list_lookup_imap. Qed.

Section Pass.
Context `{Collaborators}.

(** Enqueueing one more operation. *)
Lemma enqueue_one (pre : list Value) (v : Value) (s : State) :
  Queued pre s ->
  exists s', run_action (ARequest (MRaw (succeeding v)) [] []) s = (Ok tt, s') /\
             Queued (pre ++ [v]) s'.
Proof.
  intros (Ha & Hph & Hrun & Hc1 & Hc2 & Hreq & Hlen & Hh & Htr).
  eexists. split.
  - cbv beta iota delta [run_action run_call addToTransactionQueue bind createRequest
      pushToQueue assertActive get modify emit ret install].
    cbn [tx_active set_heap]. rewrite Ha. reflexivity.
  - unfold Queued.
    cbn [tx_active phase tx_running tx_oncomplete tx_internal_oncomplete tx_requests
         heap trace set_heap set_trace set_tx_requests].
    repeat (split; [assumption |]). split; [| split; [| split]].
    + rewrite Hreq, imap_app. cbn. rewrite Nat.add_0_r, Hlen. reflexivity.
    + rewrite length_alter, !length_app. cbn. lia.
    + intros k rq. rewrite list_lookup_alter.
      destruct (decide (length (heap s) = k)) as [<- | Hne].
      * rewrite lookup_app_r, Nat.sub_diag by lia. cbn.
        intros Hx. inversion Hx; subst. reflexivity.
      * intros Hk. pose proof (lookup_lt_Some _ _ _ Hk) as Hlt.
        rewrite length_app in Hlt. cbn in Hlt.
        rewrite lookup_app_l in Hk by lia. apply (Hh k rq Hk).
    + rewrite Htr, length_app. cbn. unfold enqueue_events.
      rewrite Nat.add_1_r, seq_S, map_app, Hlen. reflexivity.
Qed.

(** Enqueueing the operations of [vs], one after the other. *)
Lemma enqueue_all_queued (vs pre : list Value) (s : State) :
  Queued pre s ->
  exists s', run_actions (enqueue_all vs) s = (Ok tt, s') /\ Queued (pre ++ vs) s'.
Proof.
  revert pre s. induction vs as [| v vs IH]; intros pre s HQ.
  - exists s. rewrite app_nil_r. split; [reflexivity | exact HQ].
  - destruct (enqueue_one pre v s HQ) as (s1 & Hrun1 & HQ1).
    destruct (IH (pre ++ [v]) s1 HQ1) as (s2 & Hrun2 & HQ2).
    exists s2. split.
    + cbn [enqueue_all map run_actions]. unfold bind. rewrite Hrun1. exact Hrun2.
    + rewrite <- app_assoc in HQ2. exact HQ2.
Qed.

(** [transactionFinished] when no completion handler is installed. *)
Lemma transactionFinished_plain (s : State) :
  tx_oncomplete s = [] -> tx_internal_oncomplete s = [] ->
  transactionFinished s
  = (Ok tt, set_trace (trace s ++ [EvComplete; EvInternalComplete]) s).
Proof.
  intros H1 H2.
  cbv beta iota delta [transactionFinished try_catch bind get callback emit modify].
  rewrite H1. cbn [run_actions ret tx_internal_oncomplete set_trace]. rewrite H2.
  cbn [run_actions ret trace set_trace]. rewrite <- app_assoc. reflexivity.
Qed.

(** [executeNextRequest] on a queue of succeeding operations: it calls the
    procedure at the index, which issues its statement. *)
Lemma executeNextRequest_succeeding (vs : list Value) (i : nat) (v : Value) (s : State) :
  tx_requests s = imap entry_of vs ->
  cl_i s = i ->
  vs !! i = Some v ->
  executeNextRequest s
  = (Ok tt, set_inflight (Some (CSuccess v None))
              (set_backend (backend s) (calling (entry_of i v) s))).
Proof.
  intros Hreq Hi Hv.
  rewrite (executeNextRequest_steps s (entry_of i v)).
  - reflexivity.
  - rewrite Hreq, Hi, imap_entry_lookup, Hv. reflexivity.
Qed.

(** At the end of the queue it completes the transaction. *)
Lemma executeNextRequest_completes (vs : list Value) (i : nat) (s : State) :
  tx_requests s = imap entry_of vs ->
  cl_i s = i ->
  vs !! i = None ->
  tx_active s = true ->
  tx_oncomplete s = [] -> tx_internal_oncomplete s = [] ->
  executeNextRequest s
  = (Ok tt, set_trace (trace s ++ [EvComplete; EvInternalComplete])
              (set_tx_active false (set_tx_requests [] s))).
Proof.
  intros Hreq Hi Hv Ha H1 H2.
  rewrite executeNextRequest_drained.
  - rewrite Ha, transactionFinished_plain by assumption. reflexivity.
  - rewrite Hreq, Hi, length_imap. apply lookup_ge_None, Hv.
Qed.

(** The transaction starts: the first procedure is called, or an empty
    queue completes. *)
Lemma pass_starts (vs : list Value) (s : State) :
  Queued vs s ->
  exists s', run [LExecuteRequests; LTransaction] s = Some s' /\
             match vs with
             | [] => Finished vs s'
             | _ :: _ => Running vs 0 s'
             end.
Proof.
  intros (Ha & Hph & Hrun & Hc1 & Hc2 & Hreq & Hlen & Hh & Htr).
  set (s1 := set_phase Opening (set_tx_running true s)).
  assert (fire LExecuteRequests s = Some s1) as Hf1.
  { cbn [fire]. rewrite Hph. unfold turn, executeRequests. rewrite run_bind_get, Hrun.
    reflexivity. }
  set (s2 := set_cl_i 0%nat (set_cl_q None (set_phase Open s1))).
  assert (fire LTransaction s1 = Some (websql_turn (fun _ => executeNextRequest s2) s2))
    as Hf2 by reflexivity.
  cbn [run]. rewrite Hf1, Hf2. unfold websql_turn.
  destruct vs as [| v vs'].
  - rewrite (executeNextRequest_completes [] 0 s2 Hreq eq_refl eq_refl Ha Hc1 Hc2).
    eexists. split; [reflexivity |]. split; [reflexivity |].
    cbn [trace set_trace set_tx_active set_tx_requests s2 s1 set_cl_i set_cl_q set_phase
         set_tx_running]. rewrite Htr. reflexivity.
  - rewrite (executeNextRequest_succeeding (v :: vs') 0 v s2 Hreq eq_refl eq_refl).
    eexists. split; [reflexivity |]. unfold Running, calling.
    cbn [tx_active phase tx_oncomplete tx_internal_oncomplete tx_requests heap cl_i cl_q
         inflight trace set_inflight set_backend set_trace set_cl_q s2 s1 set_cl_i
         set_phase set_tx_running].
    repeat (split; [assumption || reflexivity |]).
    split; [exists v; repeat split; reflexivity |].
    rewrite Htr. reflexivity.
Qed.

(** WebSQL answers the statement in flight: the operation succeeds and the
    next one is called, or the transaction completes. *)
Lemma pass_step (vs : list Value) (i : nat) (s : State) :
  Running vs i s ->
  exists s', fire LStatement s = Some s' /\
             match vs !! S i with
             | Some _ => Running vs (S i) s'
             | None => Finished vs s'
             end.
Proof.
  intros (Ha & Hph & Hc1 & Hc2 & Hreq & Hh & Hi & (v & Hv & Hq & Hfl) & Htr).
  set (sb := set_inflight None s).
  assert (fire LStatement s = Some (websql_turn (success v None) sb)) as ->.
  { cbn [fire]. rewrite Hph, Hfl. reflexivity. }
  unfold websql_turn. rewrite (success_steps v sb (entry_of i v) Hq).
  cbn [e_req entry_of].
  assert (handler onsuccess i (mark_success v sb (entry_of i v)) = []) as ->.
  { unfold handler, mark_success. cbn [heap set_trace set_heap sb set_inflight e_req entry_of].
    rewrite list_lookup_alter_eq.
    destruct (heap s !! i) as [rq |] eqn:Hrq; [| reflexivity].
    cbn. apply (Hh i rq Hrq). }
  cbn [run_actions].
  set (sc := set_cl_i (S (cl_i (mark_success v sb (entry_of i v))))
               (mark_success v sb (entry_of i v))).
  assert ((ret tt >> modify (fun s => set_cl_i (S (cl_i s)) s) >> executeNextRequest)
            (mark_success v sb (entry_of i v)) = executeNextRequest sc) as -> by reflexivity.
  assert (trace sc = enqueue_events (length vs) ++ pass_events 0 (take (S i) vs)) as Htc.
  { subst sc. unfold mark_success.
    cbn [trace set_trace set_heap set_cl_i sb set_inflight e_req entry_of].
    rewrite Htr, (pass_events_take_S vs i v Hv), <- !app_assoc. reflexivity. }
  assert (cl_i sc = S i) as Hic by (subst sc; cbn; rewrite Hi; reflexivity).
  destruct (vs !! S i) as [v' |] eqn:Hv'.
  - rewrite (executeNextRequest_succeeding vs (S i) v' sc Hreq Hic Hv').
    eexists. split; [reflexivity |]. unfold Running, calling.
    cbn [tx_active phase tx_oncomplete tx_internal_oncomplete tx_requests heap cl_i cl_q
         inflight trace set_inflight set_backend set_trace set_cl_q].
    split; [exact Ha |]. split; [exact Hph |]. split; [exact Hc1 |]. split; [exact Hc2 |].
    split; [exact Hreq |]. split; [| split; [exact Hic | split]].
    + intros k rq.
      subst sc. unfold mark_success.
      cbn [heap set_trace set_heap set_cl_i sb set_inflight e_req entry_of].
      rewrite list_lookup_alter.
      destruct (decide (i = k)) as [<- | Hne]; [| apply Hh].
      destruct (heap s !! i) as [rq0 |] eqn:Hrq; cbn; [| discriminate].
      intros Hx. injection Hx as <-. cbn. apply (Hh i rq0 Hrq).
    + exists v'. split; [exact Hv' | split; reflexivity].
    + rewrite Htc, Hic, <- app_assoc. reflexivity.
  - rewrite (executeNextRequest_completes vs (S i) sc Hreq Hic Hv' Ha Hc1 Hc2).
    eexists. split; [reflexivity |]. split; [reflexivity |].
    cbn [trace set_trace set_tx_active set_tx_requests]. rewrite Htc.
    rewrite take_ge by (apply lookup_ge_None, Hv').
    rewrite <- app_assoc. reflexivity.
Qed.

(** One answer per operation still to run brings the pass to its end. *)
Lemma pass_finishes (n : nat) (vs : list Value) (i : nat) (s : State) :
  (n + i = length vs)%nat ->
  Running vs i s ->
  exists s', run (repeat LStatement n) s = Some s' /\ Finished vs s'.
Proof.
  revert i s. induction n as [| n IH]; intros i s Hn HR.
  - destruct HR as (_ & _ & _ & _ & _ & _ & _ & (v & Hv & _) & _).
    apply lookup_lt_Some in Hv. lia.
  - destruct (pass_step vs i s HR) as (s1 & Hf & Hnext).
    cbn [repeat run]. rewrite Hf.
    destruct (vs !! S i) as [v' |] eqn:Hv'.
    + apply (IH (S i) s1); [lia | exact Hnext].
    + apply lookup_ge_None in Hv'.
      assert (n = 0%nat) as -> by lia.
      exists s1. split; [reflexivity | exact Hnext].
Qed.

Lemma run_app (l1 l2 : list Label) (s : State) :
  run (l1 ++ l2) s = match run l1 s with
                     | Some s' => run l2 s'
                     | None => None
                     end.
Proof.
  revert s. induction l1 as [| l l1 IH]; intros s; cbn [run app]; [reflexivity |].
  destruct (fire l s) as [s1 |]; [apply IH | reflexivity].
Qed.

(** Every queue of succeeding operations runs to completion, in order. *)
Lemma pass_runs (vs : list Value) (mode : Mode) (db : Backend) :
  exists s,
    run (LCaller (enqueue_all vs) :: pass_schedule (length vs))
      (new_transaction mode db [] [] [] [] []) = Some s /\
    Finished vs s.
Proof.
  set (s0 := new_transaction mode db [] [] [] [] []).
  assert (Queued [] s0) as H0 by (repeat split; try reflexivity; intros k rq; discriminate).
  destruct (enqueue_all_queued vs [] s0 H0) as (s1 & Hrun1 & HQ1).
  rewrite app_nil_l in HQ1.
  destruct (pass_starts vs s1 HQ1) as (s2 & Hrun2 & Hs2).
  assert (run (LCaller (enqueue_all vs) :: pass_schedule (length vs)) s0
          = run (repeat LStatement (length vs)) s2) as ->.
  { unfold pass_schedule.
    change (LCaller (enqueue_all vs) :: [LExecuteRequests; LTransaction]
              ++ repeat LStatement (length vs))
      with ([LCaller (enqueue_all vs)]
              ++ [LExecuteRequests; LTransaction] ++ repeat LStatement (length vs)).
    rewrite run_app.
    assert (run [LCaller (enqueue_all vs)] s0 = Some s1) as ->
      by (cbn [run fire]; unfold turn; rewrite Hrun1; reflexivity).
    rewrite run_app, Hrun2. reflexivity. }
  destruct vs as [| v vs'].
  - exists s2. split; [reflexivity | exact Hs2].
  - apply (pass_finishes (length (v :: vs')) (v :: vs') 0 s2); [lia | exact Hs2].
Qed.

(** C1: in every run of a transaction, the procedures of the queued
    operations are called in the order of the queue, each for the request
    enqueued at its position, and a procedure is called only after the
    request of the one before it has had its "success" or "error" event;
    these events are always on the request of the operation that is
    running.  So no two operations of the transaction are in flight
    together.  And a queue of N operations that succeed does run: once
    WebSQL has answered N statements the trace holds, after the N
    enqueues, one call and one "success" per operation in queue order,
    and then "complete". *)
Theorem operations_run_in_enqueue_order
    (mode : Mode) (db : Backend)
    (onabort onerror oncomplete internal_oncomplete dberror : list Action) :
  (forall sched s,
     run sched (new_transaction mode db onabort onerror oncomplete
                  internal_oncomplete dberror) = Some s ->
     in_order (trace s) = true) /\
  (forall vs, exists s,
     run (LCaller (enqueue_all vs) :: pass_schedule (length vs))
       (new_transaction mode db [] [] [] [] []) = Some s /\
     tx_active s = false /\
     trace s = enqueue_events (length vs) ++ pass_events 0 vs
               ++ [EvComplete; EvInternalComplete]).
Proof.
  split.
  - intros sched s Hrun.
    pose proof (consistent_run sched _ s Hrun (consistent_new _ _ _ _ _ _ _))
      as (_ & Hok & _).
    exact Hok.
  - intros vs. destruct (pass_runs vs mode db) as (s & Hrun & Ha & Htr).
    exists s. split; [exact Hrun | split; [exact Ha | exact Htr]].
Qed.

End Pass.

(** ** "complete" and the transaction's "error" exclude each other *)

Lemma terminal_snoc (tr : list Event) (e : Event) :
  terminal (tr ++ [e]) = (terminal tr + (if is_terminal e then 1 else 0))%nat.
Proof.
  unfold terminal. rewrite filter_app, length_app. f_equal.
  destruct (is_terminal e) eqn:He.
  - rewrite filter_cons_True by exact He. reflexivity.
  - rewrite filter_cons_False by (rewrite He; discriminate). reflexivity.
Qed.

Lemma terminal_other (tr : list Event) (e : Event) :
  is_terminal e = false -> terminal (tr ++ [e]) = terminal tr.
Proof. intros He. rewrite terminal_snoc, He. lia. Qed.

Lemma ended_user_stable : UserStable Ended.
Proof.
  split; unfold Ended; intros; cbn [trace set_trace set_tx_requests set_heap
    set_tx_active set_abort_timers set_tx_errored set_tx_error];
    try assumption.
  - rewrite terminal_other; [assumption | destruct e; try discriminate; reflexivity].
  - rewrite terminal_other; [assumption | reflexivity].
Qed.

Lemma terminal_user_stable : UserStable Terminal.
Proof.
  split; unfold Terminal; intros; cbn [trace set_trace set_tx_requests set_heap
    set_tx_active set_abort_timers set_tx_errored set_tx_error tx_active] in *;
    try assumption.
  - rewrite terminal_other; [assumption | destruct e; try discriminate; reflexivity].
  - rewrite terminal_other; [assumption | reflexivity].
  - split; [tauto | discriminate].
Qed.

Section Terminal.
Context `{Collaborators}.

Lemma ended_error_events (err : Exn) (h h' : list Action) :
  hoare (fun s => terminal (trace s) = 0%nat)
    (modify (set_tx_error (Some err)) >>
     callback (EvTxError err) h >> callback (EvDbError err) h')
    (fun _ => Ended) (fun _ => Ended).
Proof.
  apply hoare_bind with (R := fun _ s => terminal (trace s) = 0%nat).
  { apply hoare_modify. intros s Hs. exact Hs. }
  intros _. apply hoare_bind with (R := fun _ => Ended).
  - unfold callback. apply hoare_bind with (R := fun _ => Ended).
    + unfold emit. apply hoare_modify. intros s Hs. unfold Ended.
      cbn [trace set_trace]. rewrite terminal_snoc, Hs. simpl. lia.
    + intros _. apply (user_run_actions _ ended_user_stable).
  - intros _. apply (user_callback _ ended_user_stable). reflexivity.
Qed.

Lemma terminal_abort : hoare Ended abort (fun _ => Terminal) (fun _ => Terminal).
Proof.
  intros s Hs. split; [exact Hs | discriminate].
Qed.

Lemma terminal_transactionError (err : Exn) : inv Terminal (transactionError err).
Proof.
  unfold transactionError.
  apply inv_bind; [apply (user_emit _ terminal_user_stable); reflexivity | intros _].
  apply hoare_get. intros s0.
  destruct (tx_errored s0); [apply inv_forget, inv_ret |].
  destruct (tx_active s0) eqn:Ha; cbn [negb].
  - apply hoare_bind with (R := fun _ s => terminal (trace s) = 0%nat).
    + apply hoare_modify. intros s [[_ Hs] ->]. apply Hs, Ha.
    + intros _. apply hoare_try_finally with (R := Ended);
        [apply ended_error_events | apply terminal_abort].
  - apply inv_forget, inv_bind; [| intros _; apply inv_throw].
    apply inv_modify. intros s Hs. exact Hs.
Qed.

Lemma terminal_transactionFinished :
  hoare (fun s => tx_active s = false /\ terminal (trace s) = 0%nat)
    transactionFinished (fun _ => Terminal) (fun _ => Terminal).
Proof.
  pose proof terminal_user_stable as Hus.
  unfold transactionFinished.
  apply hoare_try_catch with (E1 := fun _ => Terminal).
  - apply hoare_get. intros s0.
    apply hoare_bind with (R := fun _ => Terminal).
    + unfold callback. apply hoare_bind with (R := fun _ => Terminal).
      * unfold emit. apply hoare_modify. intros s [[Ha Hs] _].
        split; cbn [trace set_trace tx_active].
        -- rewrite terminal_snoc, Hs. simpl. lia.
        -- rewrite Ha. discriminate.
      * intros _. apply (user_run_actions _ Hus).
    + intros _. apply (user_callback_with _ Hus).
      intros s [Hle Ha].
      split; cbn [trace set_trace tx_active]; rewrite terminal_other by reflexivity;
        assumption.
  - intros e. apply inv_bind; [| intros _; apply inv_throw].
    apply inv_modify. intros s Hs. exact Hs.
Qed.

Lemma terminal_sched : Sched Terminal.
Proof.
  split.
  - apply terminal_user_stable.
  - intros e s He [Hle Ha].
    split; cbn [trace set_trace tx_active]; rewrite terminal_other;
      try assumption; destruct e; try discriminate; reflexivity.
  - apply terminal_transactionError.
  - intros s [Hle Hact] Ha. specialize (Hact Ha).
    pose proof (terminal_transactionFinished
                  (set_tx_active false (set_tx_requests [] s))
                  (conj eq_refl Hact)) as Hfin.
    destruct (transactionFinished _) as [[[] | e] s1]; exact Hfin.
  - intros s HT _. exact HT.
  - intros s HT. exact HT.
  - intros q s HT. exact HT.
  - intros i s HT. exact HT.
  - intros db s HT. exact HT.
  - intros c s HT. exact HT.
  - intros p s HT. exact HT.
Qed.

(** X24: In every run of a transaction, "complete" and the transaction's
    "error" fire at most once between them, whatever the callers and the
    handlers do. *)
Lemma complete_and_error_exclude (mode : Mode) (db : Backend)
    (onabort onerror oncomplete internal_oncomplete dberror : list Action)
    (sched : list Label) (s : State) :
  run sched (new_transaction mode db onabort onerror oncomplete
               internal_oncomplete dberror) = Some s ->
  (terminal (trace s) <= 1)%nat.
Proof.
  intros Hrun.
  apply (sched_run Terminal terminal_sched sched _ s Hrun).
  split; [cbn; lia | reflexivity].
Qed.

End Terminal.

(** * Further properties of the façade *)

Section FacadeCalls.
Context `{Collaborators}.

Lemma addToTransactionQueue_active (p : Proc) (s : State) :
  tx_active s = true ->
  addToTransactionQueue p VUndefined s
  = (Ok (length (heap s)), queued p (length (heap s)) s).
Proof.
  intros Ha.
  cbv beta iota delta [addToTransactionQueue bind createRequest pushToQueue assertActive
    get ret modify emit].
  cbn [tx_active set_heap]. rewrite Ha. reflexivity.
Qed.

Lemma run_call_outcome (c : Call) (s : State) :
  (exists e, argument_error e /\ run_call c s = (Throw e, s)) \/
  (tx_active s = false /\
   run_call c s = (Throw (DOMException "TransactionInactiveError"),
                   set_heap (heap s ++ [new_request]) s)) \/
  (tx_active s = true /\
   run_call c s = (Ok (length (heap s)),
                   queued (procedure_of c) (length (heap s)) s)).
Proof.
  assert (forall p,
            (exists e, argument_error e /\
                       addToTransactionQueue p VUndefined s = (Throw e, s)) \/
            (tx_active s = false /\
             addToTransactionQueue p VUndefined s
             = (Throw (DOMException "TransactionInactiveError"),
                set_heap (heap s ++ [new_request]) s)) \/
            (tx_active s = true /\
             addToTransactionQueue p VUndefined s
             = (Ok (length (heap s)), queued p (length (heap s)) s))) as Hq.
  { intros p. right. destruct (tx_active s) eqn:Ha.
    - right. split; [reflexivity | apply addToTransactionQueue_active, Ha].
    - left. split; [reflexivity | apply addToTransactionQueue_inactive, Ha]. }
  assert (forall (r : Res nat * State) (rest : Prop),
            (exists e, r = (Throw e, s) /\
               (e = TypeError \/ e = DOMException "DataError"
                \/ e = DOMException "ReadOnlyError")) ->
            (exists e, argument_error e /\ r = (Throw e, s)) \/ rest) as Harg.
  { intros r rest (e & -> & He). left. exists e. split; [exact He | reflexivity]. }
  destruct c as [st args | st args | st args | st args | st | st args | p];
    cbn [run_call procedure_of].
  - unfold add. destruct (length args =? 0)%nat; [apply Harg; eexists; split; [reflexivity | auto] |].
    cbv beta iota delta [bind lift].
    destruct (validateKey st (arg 0 args) (arg 1 args)) as [[] | e] eqn:Hv;
      [| rewrite (validateKey_throws _ _ _ _ Hv); apply Harg; eexists; split; [reflexivity | auto]].
    unfold assertWritable. cbv beta iota delta [bind get throw ret].
    destruct (tx_mode s); [apply Harg; eexists; split; [reflexivity | auto] | |];
      apply (Hq (objectStoreAdd st (arg 0 args) (arg 1 args))).
  - unfold put. destruct (length args =? 0)%nat; [apply Harg; eexists; split; [reflexivity | auto] |].
    cbv beta iota delta [bind lift].
    destruct (validateKey st (arg 0 args) (arg 1 args)) as [[] | e] eqn:Hv;
      [| rewrite (validateKey_throws _ _ _ _ Hv); apply Harg; eexists; split; [reflexivity | auto]].
    unfold assertWritable. cbv beta iota delta [bind get throw ret].
    destruct (tx_mode s); [apply Harg; eexists; split; [reflexivity | auto] | |];
      apply (Hq (objectStorePut st (arg 0 args) (arg 1 args))).
  - unfold get_. destruct (length args =? 0)%nat; [apply Harg; eexists; split; [reflexivity | auto] |].
    cbv beta iota delta [bind lift].
    destruct (Key_validate (arg 0 args)) as [[] | e] eqn:Hv;
      [apply Hq | rewrite (Key_validate_throws _ _ Hv); apply Harg; eexists; split; [reflexivity | auto]].
  - unfold delete_. destruct (length args =? 0)%nat; [apply Harg; eexists; split; [reflexivity | auto] |].
    unfold assertWritable. cbv beta iota delta [bind get throw ret lift].
    destruct (tx_mode s); [apply Harg; eexists; split; [reflexivity | auto] | |];
      (destruct (Key_validate (arg 0 args)) as [[] | e] eqn:Hv;
       [apply Hq | rewrite (Key_validate_throws _ _ Hv); apply Harg; eexists; split; [reflexivity | auto]]).
  - unfold clear, assertWritable. cbv beta iota delta [bind get throw ret].
    destruct (tx_mode s); [apply Harg; eexists; split; [reflexivity | auto] | apply Hq | apply Hq].
  - unfold count. cbv beta iota delta [bind lift ret].
    destruct (is_undefined (arg 0 args)); [apply Hq |].
    destruct (Key_validate (arg 0 args)) as [[] | e] eqn:Hv;
      [apply Hq | rewrite (Key_validate_throws _ _ Hv); apply Harg; eexists; split; [reflexivity | auto]].
  - apply Hq.
Qed.


(** In a read-only transaction a call that writes throws before it
    creates or queues anything. *)
Lemma read_only_rejects (c : Call) (s : State) :
  tx_mode s = READ_ONLY ->
  is_write c = true ->
  exists e, argument_error e /\ run_call c s = (Throw e, s).
Proof.
  intros Hm Hw. unfold argument_error.
  destruct c as [st args | st args | st args | st args | st | st args | p];
    try discriminate; cbn [run_call].
  - unfold add. destruct (length args =? 0)%nat; [eexists; split; [| reflexivity]; auto |].
    cbv beta iota delta [bind lift].
    destruct (validateKey st (arg 0 args) (arg 1 args)) as [[] | e] eqn:Hv.
    + unfold assertWritable. cbv beta iota delta [bind get throw ret]. rewrite Hm.
      eexists; split; [| reflexivity]; auto.
    + rewrite (validateKey_throws _ _ _ _ Hv). eexists; split; [| reflexivity]; auto.
  - unfold put. destruct (length args =? 0)%nat; [eexists; split; [| reflexivity]; auto |].
    cbv beta iota delta [bind lift].
    destruct (validateKey st (arg 0 args) (arg 1 args)) as [[] | e] eqn:Hv.
    + unfold assertWritable. cbv beta iota delta [bind get throw ret]. rewrite Hm.
      eexists; split; [| reflexivity]; auto.
    + rewrite (validateKey_throws _ _ _ _ Hv). eexists; split; [| reflexivity]; auto.
  - unfold delete_. destruct (length args =? 0)%nat; [eexists; split; [| reflexivity]; auto |].
    unfold assertWritable. cbv beta iota delta [bind get throw ret]. rewrite Hm.
    eexists; split; [| reflexivity]; auto.
  - unfold clear, assertWritable. cbv beta iota delta [bind get throw ret]. rewrite Hm.
    eexists; split; [| reflexivity]; auto.
Qed.

(** X1: A call of the façade has one of three outcomes.  A check of the
    arguments or of the mode throws, and the transaction is as it was.
    Or the transaction is inactive and the call throws
    [TransactionInactiveError], leaving behind only the request object it
    had created.  Or the call returns a fresh pending request, having
    queued exactly one entry, for that request, at the end of the queue.
    In a read-only transaction [add], [put], [delete] and [clear] always
    have the first outcome. *)
Theorem call_queues_one_or_nothing (c : Call) (s : State) :
  ((exists e, argument_error e /\ run_call c s = (Throw e, s)) \/
   (tx_active s = false /\
    run_call c s = (Throw (DOMException "TransactionInactiveError"),
                    set_heap (heap s ++ [new_request]) s)) \/
   (tx_active s = true /\
    run_call c s = (Ok (length (heap s)),
                    queued (procedure_of c) (length (heap s)) s))) /\
  (tx_mode s = READ_ONLY -> is_write c = true ->
   exists e, argument_error e /\ run_call c s = (Throw e, s)).
Proof. split; [apply run_call_outcome | apply read_only_rejects]. Qed.

End FacadeCalls.

(** ** Lookups after writes *)

Lemma filter_absent {A : Type} (p : A -> bool) (l : list A) :
  existsb p l = false -> filter (fun x => p x = true) l = [].
Proof.
  induction l as [| x l IH]; [reflexivity |]. simpl. intros Hx.
  apply orb_false_iff in Hx as [Hx Hl].
  rewrite filter_cons. destruct (decide (p x = true)); [congruence |].
  apply IH, Hl.
Qed.

Lemma filter_in_filter_out {A : Type} (p : A -> bool) (l : list A) :
  filter (fun x => p x = true) (filter (fun x => p x = false) l) = [].
Proof. apply filter_absent, existsb_filter_out. Qed.

Lemma filter_other_key (k k' : string) (rows : list (gmap string string)) :
  k' <> k ->
  filter (fun r => row_has_key k' r = true)
    (filter (fun r => row_has_key k r = false) rows)
  = filter (fun r => row_has_key k' r = true) rows.
Proof.
  intros Hk. induction rows as [| r rows IH]; [reflexivity |].
  rewrite (filter_cons (fun r => row_has_key k r = false)).
  destruct (decide (row_has_key k r = false)) as [Hr | Hr].
  - rewrite !filter_cons. destruct (decide (row_has_key k' r = true)); rewrite IH; reflexivity.
  - rewrite IH, filter_cons.
    destruct (decide (row_has_key k' r = true)) as [Hr' | Hr']; [| reflexivity].
    exfalso. apply Hr. unfold row_has_key in *.
    destruct (r !! "key") as [x |]; [| reflexivity].
    apply String.eqb_eq in Hr'. subst x. apply String.eqb_neq. exact Hk.
Qed.

Lemma row_has_key_eq (k k' : string) (row : gmap string string) :
  row !! "key" = Some k -> row_has_key k' row = String.eqb k k'.
Proof. intros Hr. unfold row_has_key. rewrite Hr. reflexivity. Qed.

Section Lookups.
Context `{Collaborators}.

(** The procedure of [get], by the rows that have the key. *)
Lemma objectStoreGet_rows (st : Store) (k : string) (db : Backend) (t : Table) :
  tables db !! name st = Some t ->
  objectStoreGet st k db
  = (db, SIssued
           match rows_with_key db (name st) k with
           | [] => get_nothing
           | row :: _ => CSuccess (decoded (default "" (row !! "value"))) None
           end).
Proof.
  intros Ht. unfold objectStoreGet, select_by_key, rows_with_key, decoded. rewrite Ht.
  destruct (filter _ (t_rows t)) as [| row rest]; [reflexivity |].
  destruct (Sca_decode _); reflexivity.
Qed.

(** The procedure of [count], by the rows that have the key. *)
Lemma objectStoreCount_rows (st : Store) (key : Value) (db : Backend) (t : Table) :
  tables db !! name st = Some t ->
  objectStoreCount st key db
  = (db, SIssued (CSuccess
           (VNum (Z.of_nat (length
              (if is_undefined key then t_rows t
               else rows_with_key db (name st) (Key_encode key false))))) None)).
Proof.
  intros Ht. unfold objectStoreCount, select_by_key, select_all, rows_with_key.
  rewrite Ht. destruct (is_undefined key); reflexivity.
Qed.

(** The record [__insertData] writes. *)
Lemma row_value (st : Store) (encoded : string) (value primaryKey : Value) :
  (<["value" := encoded]> (paramMap st value primaryKey)) !! "value" = Some encoded.
Proof. apply lookup_insert_eq. Qed.

(** The insert of [__insertData] for a key no row has. *)
Lemma insertData_inserts (st : Store) (db : Backend) (t : Table)
    (encoded : string) (value pk : Value) :
  index_names_ok st ->
  tables db !! name st = Some t ->
  is_undefined pk = false ->
  Key_valid pk = true ->
  existsb (row_has_key (Key_encode pk false)) (t_rows t) = false ->
  exists db',
    insertData st db encoded value pk = Later db' (insert_completion pk) /\
    tables db'
    = <[name st := {| t_autoinc := t_autoinc t;
                      t_rows := t_rows t
                                ++ [<["value" := encoded]> (paramMap st value pk)] |}]>
        (tables db) /\
    sqlite_sequence db'
    = if t_autoinc t
      then Some (bump_sequence (name st) (default [] (sqlite_sequence db)))
      else sqlite_sequence db.
Proof.
  intros Hok Ht Hpk Hvalid Hfresh.
  unfold insertData, insert_completion. rewrite Hpk. unfold Key_validate. rewrite Hvalid.
  unfold insert_row. rewrite Ht, (row_key st _ _ _ Hok), Hpk, Hfresh.
  eexists. split; [| split].
  - destruct (Sca_decode (Sca_encode pk)); reflexivity.
  - reflexivity.
  - reflexivity.
Qed.

(** The procedure of [add] for a key found in the call that no row has:
    the new row comes last. *)
Lemma objectStoreAdd_inserts (st : Store) (value key : Value) (db : Backend) (t : Table) :
  index_names_ok st ->
  tables db !! name st = Some t ->
  let pk := given_key st value key in
  is_undefined pk = false ->
  Key_valid pk = true ->
  existsb (row_has_key (Key_encode pk false)) (t_rows t) = false ->
  exists db',
    objectStoreAdd st value key db = (db', SIssued (insert_completion pk)) /\
    tables db' !! name st
    = Some {| t_autoinc := t_autoinc t;
              t_rows := t_rows t
                        ++ [<["value" := Sca_encode value]> (paramMap st value pk)] |}.
Proof.
  intros Hok Ht pk Hpk Hvalid Hfresh.
  destruct (insertData_inserts st db t (Sca_encode value) value pk Hok Ht Hpk Hvalid Hfresh)
    as (db' & Hins & Htab & _).
  exists db'. split.
  - unfold objectStoreAdd. rewrite (deriveKey_given _ _ _ _ _ Hpk). fold pk.
    rewrite Hins. reflexivity.
  - rewrite Htab. apply lookup_insert_eq.
Qed.

(** A row that comes after rows without its key is the one a lookup by
    that key returns. *)
Lemma found_after (db : Backend) (store k : string) (a : bool)
    (rows : list (gmap string string)) (row : gmap string string) :
  tables db !! store = Some {| t_autoinc := a; t_rows := rows ++ [row] |} ->
  existsb (row_has_key k) rows = false ->
  row !! "key" = Some k ->
  rows_with_key db store k = [row].
Proof.
  intros Ht Hfresh Hrow. unfold rows_with_key. rewrite Ht. cbn [t_rows].
  rewrite filter_app, (filter_absent _ _ Hfresh), filter_cons_True; [reflexivity |].
  rewrite (row_has_key_eq k k row Hrow). apply String.eqb_refl.
Qed.

(** X2: A record added under a key that no row has is the one [get] finds:
    the procedure of [add] inserts it and resolves with the key as the
    value codec reads it back; the procedure of [get] for that key then
    resolves with the record as the codec reads it back ([undefined] if
    it cannot), [count] for the key resolves with 1, and lookups of other
    keys find what they found before. *)
Theorem add_then_get_round_trip
    (st : Store) (value key : Value) (db : Backend) (t : Table) :
  index_names_ok st ->
  tables db !! name st = Some t ->
  let pk := given_key st value key in
  is_undefined pk = false ->
  Key_valid pk = true ->
  let k := Key_encode pk false in
  existsb (row_has_key k) (t_rows t) = false ->
  exists db',
    objectStoreAdd st value key db = (db', SIssued (insert_completion pk)) /\
    objectStoreGet st k db'
    = (db', SIssued (CSuccess (decoded (Sca_encode value)) None)) /\
    objectStoreCount st pk db' = (db', SIssued (CSuccess (VNum 1) None)) /\
    (forall k', k' <> k ->
       rows_with_key db' (name st) k' = rows_with_key db (name st) k').
Proof.
  intros Hok Ht pk Hpk Hvalid k Hfresh.
  destruct (objectStoreAdd_inserts st value key db t Hok Ht Hpk Hvalid Hfresh)
    as (db' & Hadd & Ht').
  fold pk in Hadd, Ht'.
  set (row := <["value" := Sca_encode value]> (paramMap st value pk)) in *.
  assert (row !! "key" = Some k) as Hrow
    by (subst row; rewrite (row_key st _ _ _ Hok), Hpk; reflexivity).
  pose proof (found_after db' (name st) k _ _ row Ht' Hfresh Hrow) as Hfound.
  exists db'. split; [exact Hadd |]. split; [| split].
  - rewrite (objectStoreGet_rows st k db' _ Ht'), Hfound.
    subst row. rewrite row_value. reflexivity.
  - rewrite (objectStoreCount_rows st pk db' _ Ht'), Hpk. fold k. rewrite Hfound.
    reflexivity.
  - intros k' Hk. unfold rows_with_key. rewrite Ht', Ht. cbn [t_rows].
    rewrite filter_app, filter_cons_False, filter_nil, app_nil_r; [reflexivity |].
    rewrite (row_has_key_eq k k' row Hrow).
    intros Hx. apply String.eqb_eq in Hx. congruence.
Qed.

(** The procedure of [put] for a key found in the call: the rows with the
    key go and the new row comes last. *)
Lemma objectStorePut_replaces (st : Store) (value key : Value) (db : Backend) (t : Table) :
  index_names_ok st ->
  tables db !! name st = Some t ->
  let pk := given_key st value key in
  is_undefined pk = false ->
  Key_valid pk = true ->
  let k := Key_encode pk false in
  exists db',
    objectStorePut st value key db = (db', SIssued (insert_completion pk)) /\
    tables db' !! name st
    = Some {| t_autoinc := t_autoinc t;
              t_rows := filter (fun r => row_has_key k r = false) (t_rows t)
                        ++ [<["value" := Sca_encode value]> (paramMap st value pk)] |} /\
    (forall other, other <> name st -> tables db' !! other = tables db !! other).
Proof.
  intros Hok Ht pk Hpk Hvalid k.
  set (others := filter (fun r => row_has_key k r = false) (t_rows t)).
  set (db1 := set_rows db (name st) t others).
  assert (tables db1 !! name st = Some {| t_autoinc := t_autoinc t; t_rows := others |})
    as Ht1 by apply lookup_insert_eq.
  destruct (insertData_inserts st db1 _ (Sca_encode value) value pk Hok Ht1 Hpk Hvalid
              (existsb_filter_out _ _)) as (db' & Hins & Htab & _).
  exists db'. split; [| split].
  - unfold objectStorePut. rewrite (deriveKey_given _ _ _ _ _ Hpk). fold pk.
    unfold Key_validate at 1. rewrite Hvalid. fold k.
    unfold delete_by_key. rewrite Ht. fold others. fold db1. rewrite Hins. reflexivity.
  - rewrite Htab. apply lookup_insert_eq.
  - intros other Hne. rewrite Htab. subst db1. unfold set_rows. cbn [tables].
    rewrite !lookup_insert_ne by congruence. reflexivity.
Qed.

(** X3: A record put under a key replaces what the store held under it: the
    procedure of [put] succeeds whether or not a row has the key, and
    afterwards [get] for the key resolves with the new record as the
    codec reads it back, [count] for the key resolves with 1, lookups of
    other keys find what they found before, and no other table has
    changed. *)
Theorem put_then_get_returns_new_record
    (st : Store) (value key : Value) (db : Backend) (t : Table) :
  index_names_ok st ->
  tables db !! name st = Some t ->
  let pk := given_key st value key in
  is_undefined pk = false ->
  Key_valid pk = true ->
  let k := Key_encode pk false in
  exists db',
    objectStorePut st value key db = (db', SIssued (insert_completion pk)) /\
    objectStoreGet st k db'
    = (db', SIssued (CSuccess (decoded (Sca_encode value)) None)) /\
    objectStoreCount st pk db' = (db', SIssued (CSuccess (VNum 1) None)) /\
    (forall k', k' <> k ->
       rows_with_key db' (name st) k' = rows_with_key db (name st) k') /\
    (forall other, other <> name st -> tables db' !! other = tables db !! other).
Proof.
  intros Hok Ht pk Hpk Hvalid k.
  destruct (objectStorePut_replaces st value key db t Hok Ht Hpk Hvalid)
    as (db' & Hput & Ht' & Hother).
  fold pk k in Hput, Ht'.
  set (row := <["value" := Sca_encode value]> (paramMap st value pk)) in *.
  assert (row !! "key" = Some k) as Hrow
    by (subst row; rewrite (row_key st _ _ _ Hok), Hpk; reflexivity).
  assert (rows_with_key db' (name st) k = [row]) as Hfound.
  { unfold rows_with_key. rewrite Ht'. cbn [t_rows].
    rewrite filter_app, filter_in_filter_out, filter_cons_True; [reflexivity |].
    rewrite (row_has_key_eq k k row Hrow). apply String.eqb_refl. }
  exists db'. split; [exact Hput |]. split; [| split; [| split]].
  - rewrite (objectStoreGet_rows st k db' _ Ht'), Hfound.
    subst row. rewrite row_value. reflexivity.
  - rewrite (objectStoreCount_rows st pk db' _ Ht'), Hpk. fold k. rewrite Hfound.
    reflexivity.
  - intros k' Hk. unfold rows_with_key. rewrite Ht', Ht. cbn [t_rows].
    rewrite filter_app, (filter_other_key k k' _ Hk), filter_cons_False, filter_nil,
      app_nil_r; [reflexivity |].
    rewrite (row_has_key_eq k k' row Hrow).
    intros Hx. apply String.eqb_eq in Hx. congruence.
  - exact Hother.
Qed.

(** X4: [delete] resolves with success whether or not a row has the key.
    Afterwards [get] for the key finds nothing and [count] for it
    resolves with 0; the rows under other keys, the other tables and the
    key generators are as before; and when no row had the key the table
    itself is as before. *)
Theorem delete_then_get_finds_nothing
    (st : Store) (key : Value) (db : Backend) (t : Table) :
  tables db !! name st = Some t ->
  is_undefined key = false ->
  let k := Key_encode key false in
  exists db',
    objectStoreDelete st k db = (db', SIssued (CSuccess VUndefined None)) /\
    objectStoreGet st k db' = (db', SIssued get_nothing) /\
    objectStoreCount st key db' = (db', SIssued (CSuccess (VNum 0) None)) /\
    (forall k', k' <> k ->
       rows_with_key db' (name st) k' = rows_with_key db (name st) k') /\
    (forall other, other <> name st -> tables db' !! other = tables db !! other) /\
    sqlite_sequence db' = sqlite_sequence db /\
    (existsb (row_has_key k) (t_rows t) = false -> tables db' = tables db).
Proof.
  intros Ht Hkey k.
  set (others := filter (fun r => row_has_key k r = false) (t_rows t)).
  exists (set_rows db (name st) t others).
  assert (tables (set_rows db (name st) t others) !! name st
          = Some {| t_autoinc := t_autoinc t; t_rows := others |}) as Ht'
    by apply lookup_insert_eq.
  assert (rows_with_key (set_rows db (name st) t others) (name st) k = []) as Hnone.
  { unfold rows_with_key. rewrite Ht'. apply filter_in_filter_out. }
  split; [| split; [| split; [| split; [| split; [| split]]]]].
  - unfold objectStoreDelete, delete_by_key. rewrite Ht. reflexivity.
  - rewrite (objectStoreGet_rows st k _ _ Ht'), Hnone. reflexivity.
  - rewrite (objectStoreCount_rows st key _ _ Ht'), Hkey. fold k. rewrite Hnone.
    reflexivity.
  - intros k' Hk. unfold rows_with_key. rewrite Ht', Ht. cbn [t_rows].
    apply filter_other_key, Hk.
  - intros other Hne. unfold set_rows. cbn [tables].
    apply lookup_insert_ne. congruence.
  - reflexivity.
  - intros Habsent. unfold set_rows. cbn [tables]. subst others.
    rewrite (filter_out_absent _ _ Habsent). destruct t as [a rows]. cbn [t_autoinc t_rows].
    apply insert_id. exact Ht.
Qed.

(** X5: [clear] empties the store's table and no other: afterwards [count]
    resolves with 0 and [get] finds nothing under any key, while the
    other tables are as before.  The key generators are as before too: a
    cleared store goes on generating keys from where it was. *)
Theorem clear_then_count_is_zero (st : Store) (db : Backend) (t : Table) :
  tables db !! name st = Some t ->
  exists db',
    objectStoreClear st db = (db', SIssued (CSuccess VUndefined None)) /\
    objectStoreCount st VUndefined db' = (db', SIssued (CSuccess (VNum 0) None)) /\
    (forall k, objectStoreGet st k db' = (db', SIssued get_nothing)) /\
    (forall other, other <> name st -> tables db' !! other = tables db !! other) /\
    sqlite_sequence db' = sqlite_sequence db /\
    getNextAutoIncKey st db' = getNextAutoIncKey st db.
Proof.
  intros Ht. exists (set_rows db (name st) t []).
  assert (tables (set_rows db (name st) t []) !! name st
          = Some {| t_autoinc := t_autoinc t; t_rows := [] |}) as Ht'
    by apply lookup_insert_eq.
  split; [| split; [| split; [| split; [| split]]]].
  - unfold objectStoreClear, delete_all. rewrite Ht. reflexivity.
  - rewrite (objectStoreCount_rows st VUndefined _ _ Ht'). reflexivity.
  - intros k. rewrite (objectStoreGet_rows st k _ _ Ht').
    unfold rows_with_key. rewrite Ht'. reflexivity.
  - intros other Hne. unfold set_rows. cbn [tables].
    apply lookup_insert_ne. congruence.
  - reflexivity.
  - unfold getNextAutoIncKey, select_sequence_like, set_rows. cbn [sqlite_sequence].
    destruct (sqlite_sequence db); reflexivity.
Qed.

End Lookups.

(** ** The key generator *)




Section KeyGenerator.
Context `{Collaborators}.


End KeyGenerator.

(** * Further properties of the scheduler *)

(** ** Flags *)

Lemma running_stable : Stable (fun s => tx_running s = true).
Proof. split; [split | ..]; intros; simpl; try assumption; reflexivity. Qed.

Lemma mode_stable (m : Mode) : Stable (fun s => tx_mode s = m).
Proof. split; [split | ..]; intros; simpl; assumption. Qed.

Section Flags.
Context `{Collaborators}.

(** X7: The flags of a transaction move one way only, whatever the callers,
    the handlers and WebSQL do: once running it stays running, once
    errored it stays errored, once inactive it stays inactive; and its
    mode never changes. *)
Theorem transaction_flags_only_move_one_way (sched : list Label) (s s' : State) :
  run sched s = Some s' ->
  (tx_running s = true -> tx_running s' = true) /\
  (tx_errored s = true -> tx_errored s' = true) /\
  (tx_active s = false -> tx_active s' = false) /\
  tx_mode s' = tx_mode s.
Proof.
  intros Hrun. split; [| split; [| split]].
  - apply (stable_run _ running_stable sched s s' Hrun).
  - apply (stable_run _ errored_stable sched s s' Hrun).
  - apply (stable_run _ inactive_stable sched s s' Hrun).
  - apply (stable_run _ (mode_stable (tx_mode s)) sched s s' Hrun). reflexivity.
Qed.

End Flags.

(** ** A queue that has stopped *)

Lemma progress_other (tr : list Event) (e : Event) :
  is_progress e = false -> progress (tr ++ [e]) = progress tr.
Proof.
  intros He. unfold progress. rewrite filter_app, filter_cons_False, filter_nil, app_nil_r;
    [reflexivity | rewrite He; discriminate].
Qed.

Lemma stalled_user_stable (l : list Event) : UserStable (Stalled l).
Proof.
  split; unfold Stalled; intros;
    cbn [inflight phase trace set_trace set_tx_requests set_heap set_tx_active
         set_abort_timers set_tx_errored set_tx_error] in *; try assumption.
  - rewrite progress_other; [assumption | destruct e; try discriminate; reflexivity].
  - rewrite progress_other; [assumption | reflexivity].
Qed.

Section Stall.
Context `{Collaborators}.

(** With no statement in flight on a started transaction, a turn keeps
    every property that the code of callers and handlers keeps and that
    the transaction's "error" event and WebSQL's error callback keep. *)
Lemma quiet_fire (I : State -> Prop) (l : list Event) (lb : Label) (s s' : State) :
  UserStable I ->
  (forall e s, I s -> I (set_trace (trace s ++ [EvTxError e]) s)) ->
  (forall s, I s -> I (set_phase Failed s)) ->
  fire lb s = Some s' -> Stalled l s -> I s -> I s'.
Proof.
  intros Hus Htx Hfailed Hf (Hin & Hp1 & Hp2 & Hl) HI.
  destruct lb; simpl in Hf.
  - destruct (phase s); try discriminate; congruence.
  - destruct (phase s); try discriminate; congruence.
  - destruct (phase s); try discriminate. rewrite Hin in Hf. discriminate.
  - assert (I (turn (transactionError e) (set_phase Failed s))) as Hgoal.
    { apply (user_turn _ Hus); [| apply Hfailed, HI].
      apply (user_transactionError _ Hus). exact Htx. }
    destruct (phase s); try discriminate; inversion Hf; subst; exact Hgoal.
  - destruct (abort_timers s) as [| n] eqn:Hn; inversion Hf; subst.
    apply (user_turn _ Hus); [apply (user_callback _ Hus); reflexivity |].
    apply (us_timers Hus), HI.
  - inversion Hf; subst.
    apply (user_turn _ Hus); [apply (user_run_actions _ Hus) | exact HI].
Qed.

Lemma stalled_tx_error (l : list Event) (e : Exn) (s : State) :
  Stalled l s -> Stalled l (set_trace (trace s ++ [EvTxError e]) s).
Proof.
  intros (? & ? & ? & Hx). repeat split; try assumption. cbn [trace set_trace].
  rewrite progress_other; [exact Hx | reflexivity].
Qed.

Lemma stalled_failed (l : list Event) (s : State) :
  Stalled l s -> Stalled l (set_phase Failed s).
Proof.
  intros (? & ? & ? & Hx). repeat split; try assumption; cbn [phase set_phase]; discriminate.
Qed.

Lemma stalled_fire (l : list Event) (lb : Label) (s s' : State) :
  fire lb s = Some s' -> Stalled l s -> Stalled l s'.
Proof.
  intros Hf HS.
  apply (quiet_fire (Stalled l) l lb s s' (stalled_user_stable l)
           (stalled_tx_error l) (stalled_failed l) Hf HS HS).
Qed.

Lemma quiet_run (I : State -> Prop) (l : list Event) (sched : list Label) (s s' : State) :
  UserStable I ->
  (forall e s, I s -> I (set_trace (trace s ++ [EvTxError e]) s)) ->
  (forall s, I s -> I (set_phase Failed s)) ->
  run sched s = Some s' -> Stalled l s -> I s -> I s'.
Proof.
  intros Hus Htx Hfailed. revert s.
  induction sched as [| lb sched IH]; simpl; intros s Hr HS HI.
  - inversion Hr; subst; exact HI.
  - destruct (fire lb s) as [s1 |] eqn:Hf; [| discriminate].
    apply (IH s1 Hr).
    + apply (stalled_fire l lb s s1 Hf HS).
    + apply (quiet_fire I l lb s s1 Hus Htx Hfailed Hf HS HI).
Qed.

Lemma stalled_run (l : list Event) (sched : list Label) (s s' : State) :
  run sched s = Some s' -> Stalled l s -> Stalled l s'.
Proof.
  intros Hr HS.
  apply (quiet_run (Stalled l) l sched s s' (stalled_user_stable l)
           (stalled_tx_error l) (stalled_failed l) Hr HS HS).
Qed.

(** X8: A queued procedure that returns without issuing a statement and
    without calling [success] or [error] stops the queue for good: the
    scheduler has called it and waits; whatever happens afterwards, no
    further procedure is called, no request gets an event and the
    transaction never completes. *)
Theorem idle_procedure_stalls_transaction
    (s : State) (q : Entry) (db' : Backend) :
  phase s = Open ->
  inflight s = None ->
  tx_requests s !! cl_i s = Some q ->
  e_op q (backend s) = (db', SIdle) ->
  executeNextRequest s = (Ok tt, set_backend db' (calling q s)) /\
  forall sched s2,
    run sched (set_backend db' (calling q s)) = Some s2 ->
    progress (trace s2) = progress (trace s) ++ [EvOp (cl_i s) (e_req q)].
Proof.
  intros Hph Hin Hq Hop.
  assert (executeNextRequest s = (Ok tt, set_backend db' (calling q s))) as Hex.
  { rewrite (executeNextRequest_steps s q Hq).
    unfold try_catch, op_body. cbn [backend calling set_trace set_cl_q].
    rewrite Hop. reflexivity. }
  split; [exact Hex |].
  intros sched s2 Hrun.
  apply (stalled_run _ sched _ s2 Hrun).
  unfold Stalled, calling.
  cbn [inflight phase trace set_backend set_trace set_cl_q].
  rewrite Hph. repeat split; try assumption; try discriminate.
  unfold progress. rewrite filter_app, filter_cons_True by reflexivity. reflexivity.
Qed.

End Stall.

(** ** The transaction-level error path *)

Lemma inflight_user_stable (c : option Completion) : UserStable (fun s => inflight s = c).
Proof. split; intros; simpl; assumption. Qed.

Lemma index_user_stable (i : nat) : UserStable (fun s => cl_i s = i).
Proof. split; intros; simpl; assumption. Qed.

Lemma phase_user_stable (p : Phase) : UserStable (fun s => phase s = p).
Proof. split; intros; simpl; assumption. Qed.

Lemma entry_user_stable (q : option Entry) : UserStable (fun s => cl_q s = q).
Proof. split; intros; simpl; assumption. Qed.

Section ErrorPath.
Context `{Collaborators}.

(** X9: The first error on an active transaction always aborts it.
    [transactionError] logs the error and fires "error" on the
    transaction; then, whether the handlers returned or threw, the
    transaction is inactive and errored and a timer for the "abort" event
    is pending.  From then on the transaction stays inactive and never
    fires "complete". *)
Theorem transaction_error_always_aborts (err : Exn) (s : State) :
  tx_errored s = false ->
  tx_active s = true ->
  let s' := (transactionError err s).2 in
  tx_active s' = false /\
  tx_errored s' = true /\
  (exists rest, trace s' = trace s ++ EvLogError err :: EvTxError err :: rest) /\
  (exists s'' rest, fire LAbortTimer s' = Some s'' /\
                    trace s'' = trace s' ++ EvAbort :: rest) /\
  (forall sched s2, run sched s' = Some s2 ->
     tx_active s2 = false /\ completions (trace s2) = completions (trace s')).
Proof.
  intros He Ha s'.
  set (s1 := set_tx_error (Some err)
               (set_tx_errored true (set_trace (trace s ++ [EvLogError err]) s))).
  set (s2 := set_trace (trace s1 ++ [EvTxError err]) s1).
  set (rest_of := run_actions (tx_onerror s) >> callback (EvDbError err) (db_onerror s)).
  assert (transactionError err s = try_finally rest_of abort s2) as Hte.
  { unfold transactionError.
    cbv beta iota delta [bind emit modify get try_finally callback].
    cbn [tx_errored tx_active set_trace set_tx_errored tx_onerror db_onerror].
    rewrite He, Ha. reflexivity. }
  assert (inv (ext (trace s2)) rest_of) as Hext.
  { subst rest_of. pose proof (ext_stable (trace s2)) as Hst.
    apply inv_bind; [apply (stable_run_actions _ Hst) | intros _].
    apply (stable_callback _ Hst). reflexivity. }
  assert (inv (fun x => tx_errored x = true) rest_of) as Herr.
  { subst rest_of. pose proof errored_stable as Hst.
    apply inv_bind; [apply (stable_run_actions _ Hst) | intros _].
    apply (stable_callback _ Hst). reflexivity. }
  pose proof (inv_state _ rest_of s2 Hext) as Hext2.
  pose proof (inv_state _ rest_of s2 Herr eq_refl) as Herr2.
  destruct Hext2 as [rest Hrest]; [exists []; rewrite app_nil_r; reflexivity |].
  assert (s' = set_abort_timers (S (abort_timers (rest_of s2).2))
                 (set_tx_active false (rest_of s2).2)) as Hs'.
  { subst s'. rewrite Hte. unfold try_finally.
    destruct (rest_of s2) as [r s3]. reflexivity. }
  assert (tx_active s' = false) as Hact by (rewrite Hs'; reflexivity).
  split; [exact Hact |]. split; [| split; [| split]].
  - rewrite Hs'. exact Herr2.
  - exists rest. rewrite Hs'. cbn [trace set_abort_timers set_tx_active].
    rewrite Hrest. subst s2 s1. cbn [trace set_trace set_tx_error set_tx_errored].
    rewrite <- !app_assoc. reflexivity.
  - destruct (callback_fires EvAbort (tx_onabort s')
                (set_abort_timers (abort_timers (rest_of s2).2) s')) as [r1 Hr1].
    destruct (turn_grows (callback EvAbort (tx_onabort s'))
                (set_abort_timers (abort_timers (rest_of s2).2) s')) as [r2 Hr2].
    eexists. exists (r1 ++ r2). split.
    + unfold fire. rewrite Hs' at 1. cbn [abort_timers set_abort_timers]. reflexivity.
    + rewrite Hr2, Hr1. cbn [trace set_abort_timers]. rewrite <- app_assoc. reflexivity.
  - intros sched s3 Hrun.
    apply (stable_run _ (inactive_with_stable (completions (trace s'))) sched s' s3 Hrun).
    split; [exact Hact | reflexivity].
Qed.

(** X10: A "success" handler that throws fails the transaction.  The request
    has been marked done and its event fired; the exception leaves the
    statement callback, so WebSQL stops: the index does not move, no
    statement is in flight, and whatever happens afterwards no further
    procedure is called, no request gets an event and the transaction
    never completes. *)
Theorem throwing_success_handler_stops_queue
    (v : Value) (s : State) (q : Entry) (e : Exn) (s1 : State) :
  phase s = Open ->
  inflight s = Some (CSuccess v None) ->
  cl_q s = Some q ->
  let s0 := mark_success v (set_inflight None s) q in
  run_actions (handler onsuccess (e_req q) s0) s0 = (Throw e, s1) ->
  fire LStatement s = Some (set_phase (Faulted e) s1) /\
  cl_i s1 = cl_i s /\
  inflight s1 = None /\
  forall sched s2,
    run sched (set_phase (Faulted e) s1) = Some s2 ->
    progress (trace s2) = progress (trace s) ++ [EvSuccess (e_req q) v].
Proof.
  intros Hph Hin Hq s0 Hthrow.
  assert (cl_i s1 = cl_i s) as Hi.
  { pose proof (inv_state _ (run_actions (handler onsuccess (e_req q) s0)) s0
                  (user_run_actions _ (index_user_stable (cl_i s)) _) eq_refl) as Hx.
    rewrite Hthrow in Hx. exact Hx. }
  assert (inflight s1 = None) as Hin1.
  { pose proof (inv_state _ (run_actions (handler onsuccess (e_req q) s0)) s0
                  (user_run_actions _ (inflight_user_stable None) _) eq_refl) as Hx.
    rewrite Hthrow in Hx. exact Hx. }
  assert (phase s1 = Open) as Hph1.
  { pose proof (inv_state _ (run_actions (handler onsuccess (e_req q) s0)) s0
                  (user_run_actions _ (phase_user_stable Open) _)) as Hx.
    rewrite Hthrow in Hx. apply Hx. exact Hph. }
  assert (Stalled (progress (trace s) ++ [EvSuccess (e_req q) v]) s1) as Hst.
  { pose proof (inv_state _ (run_actions (handler onsuccess (e_req q) s0)) s0
                  (user_run_actions _ (stalled_user_stable
                     (progress (trace s) ++ [EvSuccess (e_req q) v])) _)) as Hx.
    rewrite Hthrow in Hx. apply Hx.
    unfold Stalled. subst s0. unfold mark_success.
    cbn [inflight phase trace set_trace set_heap set_inflight].
    rewrite Hph. repeat split; try discriminate.
    unfold progress. rewrite filter_app, filter_cons_True by reflexivity. reflexivity. }
  split; [| split; [exact Hi | split; [exact Hin1 |]]].
  - unfold fire. rewrite Hph, Hin. cbn [deliver]. unfold websql_turn.
    rewrite (success_steps v (set_inflight None s) q Hq). fold s0.
    unfold bind at 1. rewrite Hthrow. reflexivity.
  - intros sched s2 Hrun.
    apply (stalled_run _ sched _ s2 Hrun).
    destruct Hst as (? & ? & ? & ?).
    unfold Stalled. cbn [inflight phase trace set_phase].
    repeat split; try assumption; discriminate.
Qed.

(** X11: An operation that fails stops the queue.  When the statement callback
    of the running operation calls the error continuation, "error" fires
    on the operation's request and the transaction is errored; the index
    is not advanced, so whatever the handlers do and whatever happens
    afterwards, no further procedure is called, no other request gets an
    event and the transaction never completes. *)
Theorem failed_operation_stops_queue
    (err : Exn) (s : State) (q : Entry) (sched : list Label) (s2 : State) :
  phase s = Open ->
  inflight s = Some (CError err) ->
  cl_q s = Some q ->
  run (LStatement :: sched) s = Some s2 ->
  progress (trace s2) = progress (trace s) ++ [EvError (e_req q) err] /\
  tx_errored s2 = true /\
  cl_i s2 = cl_i s.
Proof.
  intros Hph Hin Hq Hrun.
  cbn [run fire] in Hrun. rewrite Hph, Hin in Hrun. cbn [deliver] in Hrun.
  set (s0 := set_inflight None s) in *.
  set (l := progress (trace s) ++ [EvError (e_req q) err]).
  assert (cl_q s0 = Some q) as Hq0 by exact Hq.
  pose proof (stalled_user_stable l) as Hus.
  assert (Stalled l (mark_error err s0 q)) as Hst0.
  { unfold Stalled, mark_error. subst s0.
    cbn [inflight phase trace set_trace set_heap set_inflight]. rewrite Hph.
    repeat split; try discriminate.
    unfold progress. rewrite filter_app, filter_cons_True by reflexivity. reflexivity. }
  assert (inv (Stalled l) (transactionError err)) as Hte
    by apply (user_transactionError _ Hus), stalled_tx_error.
  pose proof (inv_try_finally (Stalled l) _ _
                (user_run_actions _ Hus (handler onerror (e_req q) (mark_error err s0 q)))
                Hte (mark_error err s0 q) Hst0) as Hst1.
  pose proof (inv_try_finally (fun x => cl_i x = cl_i s) _ _
                (user_run_actions _ (index_user_stable (cl_i s))
                   (handler onerror (e_req q) (mark_error err s0 q)))
                (user_transactionError _ (index_user_stable (cl_i s)) err
                   (fun _ _ Hx => Hx))
                (mark_error err s0 q) eq_refl) as Hi1.
  pose proof (transactionError_sets_errored err) as Herr.
  rewrite <- (error_steps err s0 q Hq0) in Hst1, Hi1.
  assert (tx_errored (error err s0).2 = true) as He1.
  { rewrite (error_steps err s0 q Hq0). unfold try_finally.
    destruct (run_actions _ _) as [r s1].
    specialize (Herr s1). destruct (transactionError err s1) as [[[] | x] s3];
      destruct r; exact Herr. }
  assert (Stalled l (websql_turn (error err) s0) /\
          tx_errored (websql_turn (error err) s0) = true /\
          cl_i (websql_turn (error err) s0) = cl_i s) as (Hst2 & He2 & Hi2).
  { unfold websql_turn. destruct (error err s0) as [[[] | x] s1]; cbn [snd] in *.
    - split; [exact Hst1 | split; [exact He1 | exact Hi1]].
    - split; [| split; [exact He1 | exact Hi1]].
      destruct Hst1 as (? & ? & ? & ?).
      repeat split; try assumption; cbn [phase set_phase]; discriminate. }
  pose proof (stalled_run l sched _ s2 Hrun Hst2) as (_ & _ & _ & Hl).
  split; [exact Hl | split].
  - apply (stable_run _ errored_stable sched _ s2 Hrun He2).
  - apply (quiet_run (fun x => cl_i x = cl_i s) l sched
             (websql_turn (error err) s0) s2 (index_user_stable (cl_i s))
             (fun _ _ Hx => Hx) (fun _ Hx => Hx) Hrun Hst2 Hi2).
Qed.

(** X12: A [get] that finds no row delivers its success twice when the first
    delivery throws.  The zero-row branch calls [success()] inside a [try]
    whose [catch] swallows the exception, and [success(value)] follows:
    when the request's "success" handler throws, the event has fired once,
    the exception is dropped, and the event fires on the request a second
    time, its handler running again from the state the first run left. *)
Theorem get_without_row_delivers_success_twice
    (s : State) (q : Entry) (e : Exn) (s1 : State) :
  phase s = Open ->
  inflight s = Some get_nothing ->
  cl_q s = Some q ->
  let s0 := mark_success VUndefined (set_inflight None s) q in
  run_actions (handler onsuccess (e_req q) s0) s0 = (Throw e, s1) ->
  fire LStatement s = Some (websql_turn (success VUndefined None) s1) /\
  (exists rest1, trace s1 = trace s ++ EvSuccess (e_req q) VUndefined :: rest1) /\
  (exists rest2, trace (websql_turn (success VUndefined None) s1)
                 = trace s1 ++ EvSuccess (e_req q) VUndefined :: rest2).
Proof.
  intros Hph Hin Hq s0 Hthrow.
  assert (cl_q s1 = Some q) as Hq1.
  { pose proof (inv_state _ (run_actions (handler onsuccess (e_req q) s0)) s0
                  (user_run_actions _ (entry_user_stable (Some q)) _)) as Hx.
    rewrite Hthrow in Hx. apply Hx. exact Hq. }
  assert (success VUndefined None (set_inflight None s) = (Throw e, s1)) as Hfirst.
  { rewrite (success_steps VUndefined (set_inflight None s) q Hq). fold s0.
    unfold bind at 1. rewrite Hthrow. reflexivity. }
  split; [| split].
  - unfold fire. rewrite Hph, Hin. unfold get_nothing. cbn [deliver].
    unfold websql_turn, try_catch. rewrite Hfirst. reflexivity.
  - destruct (trace_grows (run_actions (handler onsuccess (e_req q) s0)) s0
                (stable_run_actions _ (ext_stable _) _)) as [rest Hrest].
    rewrite Hthrow in Hrest. cbn [snd] in Hrest. exists rest. rewrite Hrest.
    subst s0. unfold mark_success. cbn [trace set_trace set_heap set_inflight].
    rewrite <- app_assoc. reflexivity.
  - destruct (success_fires VUndefined s1 q Hq1) as [rest Hrest].
    unfold websql_turn. destruct (success VUndefined None s1) as [[[] | x] s2];
      cbn [snd] in Hrest.
    + exists rest. exact Hrest.
    + exists rest. exact Hrest.
Qed.

End ErrorPath.

(** * The store catalogue *)

Section CatalogueFacts.
Context `{Collaborators} `{Schema}.

Lemma load_no_indexes : load_indexes (VObj []) = (∅, []).
Proof. reflexivity. Qed.

Lemma sys_row_properties (store : ObjectStore) :
  row_properties (sys_row store)
  = {| sp_name := os_name store;
       sp_keyPath := JSON_stringify (os_keyPath store);
       sp_autoInc := VStr (if os_autoIncrement store then "true" else "false");
       sp_indexList := "{}" |}.
Proof. reflexivity. Qed.

Lemma parse_autoInc_text (b : bool) :
  parse_autoInc (VStr (if b then "true" else "false")) = b.
Proof. destruct b; reflexivity. Qed.

Lemma clone_same (store : ObjectStore) :
  JSON_parse (JSON_stringify (os_keyPath store)) = Ok (os_keyPath store) ->
  JSON_stringify (VBool (os_autoIncrement store))
  = (if os_autoIncrement store then "true" else "false") ->
  JSON_parse "{}" = Ok (VObj []) ->
  clone store = Ok store.
Proof.
  intros Hkp Hb Hobj. unfold clone, IDBObjectStore_new, parse_keyPath.
  cbn [sp_keyPath sp_indexList sp_name sp_autoInc].
  rewrite Hkp, Hobj, Hb, parse_autoInc_text. destruct store; reflexivity.
Qed.

(** X13: A clone has the name of the store and shares its indexes.  When
    [JSON] reads back what it writes for the key path and for the
    auto-increment flag, the clone has the store's key path and flag too:
    it is equal to the store. *)
Theorem clone_preserves_store (store : ObjectStore) :
  (forall store', clone store = Ok store' ->
     os_name store' = os_name store /\
     os_indexes store' = os_indexes store /\
     os_indexNames store' = os_indexNames store) /\
  (JSON_parse (JSON_stringify (os_keyPath store)) = Ok (os_keyPath store) ->
   JSON_stringify (VBool (os_autoIncrement store))
   = (if os_autoIncrement store then "true" else "false") ->
   JSON_parse "{}" = Ok (VObj []) ->
   clone store = Ok store).
Proof.
  split.
  - intros store'. unfold clone, IDBObjectStore_new. cbn [sp_keyPath sp_indexList sp_name].
    destruct (parse_keyPath _) as [kp | e]; [| discriminate].
    destruct (JSON_parse "{}") as [l | e]; [| discriminate].
    intros Hx. inversion Hx; subst. repeat split; reflexivity.
  - apply clone_same.
Qed.

(** X14: The row [createObjectStore] writes into [__sys__] gives the store
    back: when [JSON] reads back what it writes for the key path, the
    constructor applied to the row builds a store with the same name, key
    path and auto-increment flag, and with no index. *)
Theorem created_store_reads_back (store : ObjectStore) :
  JSON_parse (JSON_stringify (os_keyPath store)) = Ok (os_keyPath store) ->
  JSON_parse "{}" = Ok (VObj []) ->
  IDBObjectStore_new (row_properties (sys_row store))
  = Ok {| os_name := os_name store;
          os_keyPath := os_keyPath store;
          os_autoIncrement := os_autoIncrement store;
          os_indexes := ∅;
          os_indexNames := [] |}.
Proof.
  intros Hkp Hobj. rewrite sys_row_properties.
  unfold IDBObjectStore_new, parse_keyPath.
  cbn [sp_keyPath sp_indexList sp_name sp_autoInc].
  rewrite Hkp, Hobj, parse_autoInc_text. reflexivity.
Qed.

(** X15: [objectStore] hands out the database's store.  On an active
    transaction, for a store of the database that the transaction was
    opened for (any store of the database, in a version-change
    transaction), it returns a clone, which is equal to the store when
    [JSON] reads back what it writes.  On an inactive transaction it throws
    [InvalidStateError], whatever the name.  It never changes the
    transaction. *)
Theorem objectStore_gives_database_store
    (d : Database) (storeNames : list string) (nm : string) (more : list string)
    (s : State) :
  (tx_active s = false ->
   objectStore d storeNames (nm :: more) s
   = (Throw (DOMException "InvalidStateError"), s)) /\
  (forall store,
     tx_active s = true ->
     nm ∈ storeNames \/ tx_mode s = VERSION_CHANGE ->
     db_objectStores d !! nm = Some (Some store) ->
     JSON_parse (JSON_stringify (os_keyPath store)) = Ok (os_keyPath store) ->
     JSON_stringify (VBool (os_autoIncrement store))
     = (if os_autoIncrement store then "true" else "false") ->
     JSON_parse "{}" = Ok (VObj []) ->
     objectStore d storeNames (nm :: more) s = (Ok store, s)) /\
  (forall args, (objectStore d storeNames args s).2 = s).
Proof.
  split; [| split].
  - intros Ha. unfold objectStore. cbv beta iota delta [bind get]. rewrite Ha. reflexivity.
  - intros store Ha Hin Hst Hkp Hb Hobj.
    unfold objectStore. cbv beta iota delta [bind get]. rewrite Ha. cbn [negb].
    assert (negb (bool_decide (nm ∈ storeNames))
            && match tx_mode s with VERSION_CHANGE => false | _ => true end = false) as ->.
    { destruct Hin as [Hin | Hvc].
      - rewrite (bool_decide_eq_true_2 _ Hin). reflexivity.
      - rewrite Hvc. apply andb_false_r. }
    rewrite Hst. unfold lift. rewrite (clone_same store Hkp Hb Hobj). reflexivity.
  - intros [| nm' more']; [reflexivity |].
    unfold objectStore. cbv beta iota delta [bind get].
    destruct (negb (tx_active s)); [reflexivity |].
    destruct (negb (bool_decide (nm' ∈ storeNames)) && _); [reflexivity |].
    destruct (db_objectStores d !! nm') as [[store |] |]; reflexivity.
Qed.

(** ** Creating and deleting a store *)

Lemma filter_names_absent (nm : string) (rows : list (gmap string string)) :
  existsb (row_has_name nm) rows = false ->
  filter (fun r => row_has_name nm r = true) rows = [].
Proof. apply filter_absent. Qed.





(** X17: Deleting a store that [__sys__] does not know stops the transaction.
    The first statement of the procedure finds no row, and its callback
    calls neither [success] nor [failure]: the database is untouched, and
    once the scheduler has called the procedure no further procedure is
    called, no request gets an event and the transaction never completes,
    whatever happens afterwards. *)
Theorem delete_unknown_store_never_resolves
    (store : ObjectStore) (s : State) (q : Entry) (sys : Table) :
  phase s = Open ->
  inflight s = None ->
  tx_requests s !! cl_i s = Some q ->
  e_op q = deleteObjectStoreProc store ->
  tables (backend s) !! "__sys__" = Some sys ->
  existsb (row_has_name (os_name store)) (t_rows sys) = false ->
  deleteObjectStoreProc store (backend s) = (backend s, SIdle) /\
  executeNextRequest s = (Ok tt, calling q s) /\
  forall sched s2,
    run sched (executeNextRequest s).2 = Some s2 ->
    progress (trace s2) = progress (trace s) ++ [EvOp (cl_i s) (e_req q)].
Proof.
  intros Hph Hin Hq Hop Hsys Hrow.
  assert (deleteObjectStoreProc store (backend s) = (backend s, SIdle)) as Hidle.
  { unfold deleteObjectStoreProc, select_sys. rewrite Hsys.
    rewrite (filter_names_absent _ _ Hrow). reflexivity. }
  assert (executeNextRequest s = (Ok tt, calling q s)) as Hex.
  { rewrite (executeNextRequest_steps s q Hq).
    unfold try_catch, op_body. cbn [backend calling set_trace set_cl_q].
    rewrite Hop, Hidle. reflexivity. }
  split; [exact Hidle | split; [exact Hex |]].
  intros sched s2 Hrun. rewrite Hex in Hrun.
  apply (stalled_run _ sched _ s2 Hrun).
  unfold Stalled, calling.
  cbn [inflight phase trace set_backend set_trace set_cl_q snd].
  rewrite Hph. repeat split; try assumption; try discriminate.
  unfold progress. rewrite filter_app, filter_cons_True by reflexivity. reflexivity.
Qed.


(** X19: [__createObjectStore] and [__deleteObjectStore] update the database
    object before they check the transaction.  Without a version-change
    transaction both throw [InvalidStateError] and leave the transaction
    as it is, yet the store is already registered, or already set to
    [undefined].  On an active version-change transaction each queues
    exactly one procedure. *)
Theorem schema_calls_update_database_first
    (d : Database) (tx : option State) (store : ObjectStore) :
  let created := createObjectStore d tx store in
  let deleted := deleteObjectStore d tx store in
  db_objectStores created.1 !! os_name store = Some (Some store) /\
  db_objectStoreNames created.1 = db_objectStoreNames d ++ [os_name store] /\
  db_objectStores deleted.1 !! os_name store = Some None /\
  ((forall s, tx = Some s -> tx_mode s <> VERSION_CHANGE) ->
   created.2 = (Throw (DOMException "InvalidStateError"), tx) /\
   deleted.2 = (Throw (DOMException "InvalidStateError"), tx)) /\
  (forall s, tx = Some s -> tx_mode s = VERSION_CHANGE -> tx_active s = true ->
     created.2
     = (Ok tt, Some (queued (createObjectStoreProc store) (length (heap s)) s)) /\
     deleted.2
     = (Ok tt, Some (queued (deleteObjectStoreProc store) (length (heap s)) s))).
Proof.
  intros created deleted. subst created deleted.
  unfold createObjectStore, deleteObjectStore. cbn [fst snd db_objectStores db_objectStoreNames].
  split; [apply lookup_insert_eq |]. split; [reflexivity |].
  split; [apply lookup_insert_eq |]. split.
  - intros Hmode. unfold on_version_transaction, assertVersionChange.
    destruct tx as [s |]; [| split; reflexivity].
    specialize (Hmode s eq_refl). destruct (tx_mode s); try congruence; split; reflexivity.
  - intros s -> Hmode Ha. unfold on_version_transaction, assertVersionChange.
    rewrite Hmode, !(addToTransactionQueue_active _ s Ha). split; reflexivity.
Qed.

End CatalogueFacts.

(** * "complete" comes last *)

Lemma snoc_or_nil {A : Type} (l : list A) : l = [] \/ exists l' x, l = l' ++ [x].
Proof.
  induction l as [| y l IH]; [left; reflexivity | right].
  destruct IH as [-> | (l' & x & ->)].
  - exists [], y. reflexivity.
  - exists (y :: l'), x. reflexivity.
Qed.

Lemma settled_snoc_other (tr : list Event) (e : Event) :
  e <> EvComplete ->
  complete_when_settled tr -> complete_when_settled (tr ++ [e]).
Proof.
  intros He Htr pre post Heq.
  destruct (snoc_or_nil post) as [-> | (post' & x & ->)].
  - apply app_inj_tail in Heq as [_ Hx]. congruence.
  - change (pre ++ EvComplete :: post' ++ [x]) with (pre ++ (EvComplete :: post') ++ [x]) in Heq.
    rewrite app_assoc in Heq. apply app_inj_tail in Heq as [Hx _].
    apply (Htr pre post' Hx).
Qed.

Lemma settled_snoc_complete (tr : list Event) :
  settled (fifo tr) = true ->
  complete_when_settled tr -> complete_when_settled (tr ++ [EvComplete]).
Proof.
  intros Hs Htr pre post Heq.
  destruct (snoc_or_nil post) as [-> | (post' & x & ->)].
  - apply app_inj_tail in Heq as [Hx _]. subst pre. exact Hs.
  - change (pre ++ EvComplete :: post' ++ [x]) with (pre ++ (EvComplete :: post') ++ [x]) in Heq.
    rewrite app_assoc in Heq. apply app_inj_tail in Heq as [Hx _].
    apply (Htr pre post' Hx).
Qed.

Lemma fifo_ok_before (tr : list Event) (e : Event) :
  f_ok (fifo (tr ++ [e])) = true -> f_ok (fifo tr) = true.
Proof.
  rewrite fifo_snoc. destruct e; cbn [fifo_step f_ok]; try tauto;
    intros Hok; repeat (apply andb_prop in Hok as [Hok _]); exact Hok.
Qed.

(** No more procedures have been called than requests were queued. *)
Lemma fifo_started_le (tr : list Event) :
  f_ok (fifo tr) = true -> (f_started (fifo tr) <= length (f_enq (fifo tr)))%nat.
Proof.
  induction tr as [| e tr IH] using rev_ind; [intros _; cbn; lia |].
  intros Hok. specialize (IH (fifo_ok_before tr e Hok)).
  rewrite fifo_snoc in *. destruct e; cbn [fifo_step f_ok f_started f_enq] in *;
    try exact IH.
  - rewrite length_app. cbn [length]. lia.
  - apply andb_prop in Hok as [_ Hx]. apply bool_decide_eq_true_1 in Hx.
    apply lookup_lt_Some in Hx. lia.
Qed.

Lemma timely_user_stable (ph : Phase) G : UserStable (Timely ph G).
Proof.
  pose proof (core_user_stable ph G) as Hc.
  split; unfold Timely.
  - intros e s He [HC HJ]. split; [apply (us_event Hc), HC; exact He |].
    cbn [trace set_trace]. apply settled_snoc_other; [| exact HJ].
    destruct e; discriminate.
  - intros r p a s Ha [HC HJ]. split; [apply (us_push Hc); assumption |].
    cbn [trace set_trace set_tx_requests]. apply settled_snoc_other; [discriminate | exact HJ].
  - intros h s [HC HJ]. split; [apply (us_heap Hc), HC | exact HJ].
  - intros s [HC HJ]. split; [apply (us_inactive Hc), HC | exact HJ].
  - intros n s [HC HJ]. split; [apply (us_timers Hc), HC | exact HJ].
  - intros s [HC HJ]. split; [apply (us_errored Hc), HC | exact HJ].
  - intros e s [HC HJ]. split; [apply (us_error Hc), HC | exact HJ].
Qed.

Lemma timely_weaken (ph : Phase) (G G' : nat -> bool -> nat -> Prop) (s : State) :
  (forall st res i, G st res i -> G' st res i) ->
  Timely ph G s -> Timely ph G' s.
Proof. intros HGG [HC HJ]. split; [apply (core_weaken ph G G'); assumption | exact HJ]. Qed.

Section Timely.
Context `{Collaborators}.

Lemma timely_transactionError (ph : Phase) G (err : Exn) :
  inv (Timely ph G) (transactionError err).
Proof.
  apply (user_transactionError _ (timely_user_stable ph G)).
  intros e s [HC HJ]. split.
  - apply core_quiet; [reflexivity | discriminate | exact HC].
  - cbn [trace set_trace]. apply settled_snoc_other; [discriminate | exact HJ].
Qed.

Lemma timely_error (ph : Phase) G (err : Exn) :
  (forall st res i, G st res i -> G st true i) ->
  inv (Timely ph G) (error err).
Proof.
  intros Hup s [HC HJ].
  pose proof (timely_user_stable ph G) as Hus.
  destruct (cl_q s) as [q |] eqn:Hq.
  - rewrite (error_steps err s q Hq).
    apply (inv_try_finally (Timely ph G) _ _
             (user_run_actions _ Hus _) (timely_transactionError ph G err)).
    split; [apply core_mark_error; assumption |].
    unfold mark_error. cbn [trace set_trace set_heap].
    apply settled_snoc_other; [discriminate | exact HJ].
  - rewrite (error_null err s Hq).
    apply (inv_try_finally (Timely ph G) _ _
             (inv_throw _ TypeError) (timely_transactionError ph G err)).
    split; assumption.
Qed.

Lemma timely_op_body (ph : Phase) (q : Entry) (s0 : State) :
  inv (Timely ph Rest) (op_body q s0).
Proof.
  unfold op_body. destruct (e_op q (backend s0)) as [db' outcome].
  apply inv_bind; [apply inv_modify; intros s HC; exact HC | intros _].
  destruct outcome.
  - apply inv_throw.
  - apply timely_error, rest_up.
  - apply inv_modify. intros s HC. exact HC.
  - apply inv_ret.
Qed.

(** At the end of a pass on an active transaction the queue is
    settled. *)
Lemma ready_is_settled (ph : Phase) (s : State) :
  Core ph Ready s ->
  tx_active s = true ->
  (length (tx_requests s) <= cl_i s)%nat ->
  settled (fifo (trace s)) = true.
Proof.
  intros (Hph & Hok & Hl & Hcur & HG & Hz & He) Ha Hle.
  assert (~ drained s) as Hnd by (intros [_ Hx]; congruence).
  destruct Hl as [Hl | Hl]; [| contradiction].
  destruct HG as [[Hi Hres] | HG]; [| contradiction].
  pose proof (fifo_started_le _ Hok) as Hst.
  assert (length (f_enq (fifo (trace s))) = length (tx_requests s)) as Hlen
    by (rewrite <- Hl; apply length_map).
  unfold settled. rewrite Hres, andb_true_r.
  apply bool_decide_eq_true_2. lia.
Qed.

Lemma timely_executeNextRequest (ph : Phase) :
  ~ early ph ->
  hoare (Timely ph Ready) executeNextRequest
    (fun _ => Timely ph Rest) (fun _ => Timely ph Rest).
Proof.
  intros Hph s [HC HJ].
  pose proof (timely_user_stable ph Rest) as Hus.
  destruct (tx_requests s !! cl_i s) as [q |] eqn:Hq.
  - rewrite (executeNextRequest_steps s q Hq).
    apply (inv_try_catch (Timely ph Rest) _ _ (timely_op_body ph q (calling q s))
             (fun e => timely_error ph Rest e rest_up)).
    split; [apply core_calling; assumption |].
    unfold calling. cbn [trace set_trace set_cl_q].
    apply settled_snoc_other; [discriminate | exact HJ].
  - apply lookup_ge_None in Hq. rewrite (executeNextRequest_drained s Hq).
    destruct (tx_active s) eqn:Ha.
    + pose proof (ready_is_settled ph s HC Ha Hq) as Hset.
      set (s1 := set_tx_active false (set_tx_requests [] s)).
      assert (Timely ph Rest (set_trace (trace s1 ++ [EvComplete]) s1)) as H1.
      { split.
        - apply core_quiet; [reflexivity | discriminate |].
          apply (core_drain ph Ready Rest s HC).
        - cbn [trace set_trace]. apply settled_snoc_complete; assumption. }
      assert (inv (Timely ph Rest)
                (run_actions (tx_oncomplete s1) >>
                 callback EvInternalComplete (tx_internal_oncomplete s1))) as Hrest.
      { apply inv_bind; [apply (user_run_actions _ Hus) | intros _].
        apply (user_callback_with _ Hus). intros s2 [HC2 HJ2]. split.
        - apply core_quiet; [reflexivity | discriminate | exact HC2].
        - cbn [trace set_trace]. apply settled_snoc_other; [discriminate | exact HJ2]. }
      specialize (Hrest _ H1).
      unfold transactionFinished, try_catch.
      change ((let* s := get in
               callback EvComplete (tx_oncomplete s) >>
               callback EvInternalComplete (tx_internal_oncomplete s)) s1)
        with ((run_actions (tx_oncomplete s1) >>
               callback EvInternalComplete (tx_internal_oncomplete s1))
                (set_trace (trace s1 ++ [EvComplete]) s1)).
      destruct ((run_actions (tx_oncomplete s1) >>
                 callback EvInternalComplete (tx_internal_oncomplete s1))
                  (set_trace (trace s1 ++ [EvComplete]) s1)) as [[[] | e] s2].
      * exact Hrest.
      * cbv beta iota delta [bind modify throw]. apply (us_errored Hus), Hrest.
    + split; [apply (core_drain_inactive ph Ready Rest s Ha HC) | exact HJ].
Qed.

Lemma timely_success (ph : Phase) (v : Value) (r : option nat) :
  ~ early ph ->
  inv (Timely ph Rest) (success v r).
Proof.
  intros Hph.
  assert (forall s, Timely ph Rest s ->
            match success v None s with
            | (Ok _, s') => Timely ph Rest s'
            | (Throw _, s') => Timely ph Rest s'
            end) as Hnone.
  { intros s [HC HJ]. destruct (cl_q s) as [q |] eqn:Hq.
    - rewrite (success_steps v s q Hq).
      eapply (hoare_bind (Timely ph Mid) _ _ (fun _ => Timely ph Mid)).
      + eapply hoare_post; [| | apply (user_run_actions _ (timely_user_stable ph Mid))].
        * intros a s1 H1. exact H1.
        * intros e s1 H1. apply (timely_weaken ph Mid Rest); [| exact H1].
          intros st res i [Hs _]. right. exact Hs.
      + intros _. eapply (hoare_bind _ _ _ (fun _ => Timely ph Ready)).
        * apply hoare_modify. intros s1 [(Hp & Hok & Hl & Hcur & HG & Hz & He) HJ1].
          split; [| exact HJ1].
          unfold Core, drained in *.
          cbn [trace set_cl_i phase tx_requests cl_q cl_i tx_active].
          core_split; try assumption.
          destruct HG as [[Hs Hres] | HG]; [left | right; exact HG].
          split; [symmetry; exact Hs | exact Hres].
        * intros _. apply timely_executeNextRequest, Hph.
      + split; [apply core_mark_success; assumption |].
        unfold mark_success. cbn [trace set_trace set_heap].
        apply settled_snoc_other; [discriminate | exact HJ].
    - rewrite (success_null v None s Hq). split; assumption. }
  intros s HT. destruct r as [r |]; [| apply Hnone, HT].
  destruct HT as [HC HJ]. destruct (cl_q s) as [q |] eqn:Hq.
  - rewrite (success_rebind v r s q Hq). apply Hnone.
    split; [apply core_rebind; assumption |].
    cbn [trace set_trace set_cl_q]. apply settled_snoc_other; [discriminate | exact HJ].
  - rewrite (success_null v (Some r) s Hq). split; assumption.
Qed.

Lemma timely_deliver (ph : Phase) (c : Completion) :
  ~ early ph ->
  inv (Timely ph Rest) (deliver c).
Proof.
  intros Hph. induction c; simpl.
  - apply timely_success, Hph.
  - apply timely_error, rest_up.
  - apply inv_throw.
  - apply inv_try_catch; [exact IHc1 | intros _; exact IHc2].
Qed.

Lemma timely_self (ph : Phase) G (s : State) :
  Timely ph G s -> Timely (phase s) G s.
Proof. intros [HC HJ]. split; [apply (core_self ph), HC | exact HJ]. Qed.

Lemma timely_set_phase (ph ph' : Phase) G (s : State) :
  ~ early ph' ->
  Timely ph G s -> Timely ph' G (set_phase ph' s).
Proof.
  intros Hph' [HC HJ]. split; [apply (core_set_phase ph); assumption | exact HJ].
Qed.

Lemma timely_turn (m : M unit) (s : State) :
  (forall ph, inv (Timely ph Rest) m) ->
  Timely (phase s) Rest s -> Timely (phase (turn m s)) Rest (turn m s).
Proof.
  intros Hm HT. apply (timely_self (phase s)).
  apply (user_turn _ (timely_user_stable (phase s) Rest) m s (Hm _) HT).
Qed.

Lemma timely_websql_turn (m : M unit) (s : State) :
  ~ early (phase s) ->
  inv (Timely (phase s) Rest) m ->
  Timely (phase s) Rest s ->
  Timely (phase (websql_turn m s)) Rest (websql_turn m s).
Proof.
  intros Hph Hm HT. unfold websql_turn.
  specialize (Hm s HT). destruct (m s) as [[[] | e] s1].
  - apply (timely_self (phase s)), Hm.
  - cbn [phase set_phase].
    apply (timely_set_phase (phase s)); [apply not_early_faulted | exact Hm].
Qed.

Lemma timely_fire (l : Label) (s s' : State) :
  fire l s = Some s' ->
  Timely (phase s) Rest s -> Timely (phase s') Rest s'.
Proof.
  destruct l as [| | | e | | script]; cbn [fire]; intros Hf HT.
  - pose proof HT as [HC HJ].
    pose proof (consistent_fire LExecuteRequests s s' Hf HC) as HC'.
    split; [exact HC' |].
    destruct (phase s); inversion Hf; subst.
    unfold turn, executeRequests. rewrite run_bind_get.
    destruct (tx_running s); exact HJ.
  - destruct (phase s) eqn:Hph; inversion Hf; subst.
    set (s2 := set_cl_i 0%nat (set_cl_q None (set_phase Open s))).
    assert (Timely Open Ready s2) as H2.
    { destruct HT as [(_ & Hok & Hl & Hcur & HG & Hz & He) HJ]. split; [| exact HJ].
      assert (f_started (fifo (trace s)) = 0%nat) as Hs
        by (apply He; right; reflexivity).
      destruct (Hz Hs) as [Hn Hres].
      unfold Core, drained in *. subst s2.
      cbn [trace set_phase set_cl_q set_cl_i phase tx_requests cl_q cl_i tx_active].
      core_split; try assumption.
      - reflexivity.
      - left. split; [symmetry; exact Hs | exact Hres].
      - intros Hx. destruct (not_early_open Hx). }
    pose proof (timely_executeNextRequest Open not_early_open s2 H2) as Hex.
    unfold websql_turn.
    change (transactionCallback (set_phase Open s)) with (executeNextRequest s2).
    destruct (executeNextRequest s2) as [[[] | e] s3].
    + apply (timely_self Open), Hex.
    + cbn [phase set_phase].
      apply (timely_set_phase Open); [apply not_early_faulted | exact Hex].
  - destruct (phase s) eqn:Hph; try discriminate.
    destruct (inflight s) as [c |]; inversion Hf; subst.
    apply timely_websql_turn.
    + cbn [phase set_inflight]. rewrite Hph. apply not_early_open.
    + apply timely_deliver. cbn [phase set_inflight]. rewrite Hph. apply not_early_open.
    + cbn [phase set_inflight]. rewrite Hph. exact HT.
  - assert (Timely (phase (turn (transactionError e) (set_phase Failed s))) Rest
              (turn (transactionError e) (set_phase Failed s))) as Hgoal.
    { apply timely_turn.
      - intros ph. apply timely_transactionError.
      - cbn [phase set_phase].
        apply (timely_set_phase (phase s)); [apply not_early_failed | exact HT]. }
    destruct (phase s); try discriminate; inversion Hf; subst; exact Hgoal.
  - destruct (abort_timers s) as [| n] eqn:Hn; inversion Hf; subst.
    apply timely_turn.
    + intros ph. apply user_callback; [apply timely_user_stable | reflexivity].
    + exact HT.
  - inversion Hf; subst. apply timely_turn; [| exact HT].
    intros ph. apply user_run_actions, timely_user_stable.
Qed.

Lemma timely_run (sched : list Label) (s s' : State) :
  run sched s = Some s' ->
  Timely (phase s) Rest s -> Timely (phase s') Rest s'.
Proof.
  revert s. induction sched as [| l sched IH]; simpl; intros s Hr HT.
  - inversion Hr; subst; exact HT.
  - destruct (fire l s) as [s1 |] eqn:Hf; [| discriminate].
    apply (IH s1 Hr). apply (timely_fire l s s1 Hf HT).
Qed.

(** X20: "complete" fires only when every operation queued so far has run.
    In every run of a transaction, whatever the procedures, the callers
    and the handlers do: at each point of the trace where "complete"
    fires, every request enqueued before that point has had its procedure
    called, and the request of the last procedure called has had its
    "success" or "error" event. *)
Theorem complete_fires_after_every_operation
    (mode : Mode) (db : Backend)
    (onabort onerror oncomplete internal_oncomplete dberror : list Action)
    (sched : list Label) (s : State) (pre post : list Event) :
  run sched (new_transaction mode db onabort onerror oncomplete
               internal_oncomplete dberror) = Some s ->
  trace s = pre ++ EvComplete :: post ->
  f_started (fifo pre) = length (f_enq (fifo pre)) /\
  f_resolved (fifo pre) = true /\
  in_order pre = true.
Proof.
  intros Hrun Htr.
  set (s0 := new_transaction mode db onabort onerror oncomplete internal_oncomplete dberror)
    in *.
  assert (Timely (phase s0) Rest s0) as H0.
  { split; [apply consistent_new |].
    intros pre0 post0 Hx. cbn in Hx. destruct pre0; discriminate. }
  destruct (timely_run sched s0 s Hrun H0) as [HC HJ].
  specialize (HJ pre post Htr). unfold settled in HJ.
  apply andb_prop in HJ as [Hst Hres]. apply bool_decide_eq_true_1 in Hst.
  split; [exact Hst | split; [exact Hres |]].
  destruct HC as (_ & Hok & _). unfold in_order. rewrite Htr in Hok.
  clear -Hok. revert Hok. generalize (EvComplete :: post). intros l.
  induction l as [| e l IH] using rev_ind; [rewrite app_nil_r; tauto |].
  rewrite app_assoc. intros Hok. apply IH, (fifo_ok_before _ e Hok).
Qed.

End Timely.

(** * Read-only transactions *)

Lemma facade_script_cons (a : Action) (l : list Action) :
  facade_script (a :: l) = true -> facade_only a = true /\ facade_script l = true.
Proof. unfold facade_script. cbn [forallb]. apply andb_prop. Qed.

Lemma facade_only_request (c : Call) (hs he : list Action) :
  facade_only (ARequest c hs he) = true ->
  is_facade c = true /\ facade_script hs = true /\ facade_script he = true.
Proof.
  cbn [facade_only]. unfold facade_script. intros Hx.
  apply andb_prop in Hx as [Hx He]. apply andb_prop in Hx as [Hc Hs]. auto.
Qed.

Lemma facade_new_request : facade_request new_request.
Proof. split; reflexivity. Qed.

Ltac ro_split :=
  split; [| split; [| split; [| split; [| split; [| split; [| split; [| split; [| split]]]]]]]].

Section ReadOnly.
Context `{Collaborators}.
Variable db : Backend.

Lemma reads_only_get (st : Store) (k : string) : reads_only (objectStoreGet st k).
Proof.
  intros d. unfold objectStoreGet.
  destruct (select_by_key d (name st) k) as [[| row rows] ? | ?]; try reflexivity.
  destruct (Sca_decode _); reflexivity.
Qed.

Lemma reads_only_count (st : Store) (key : Value) : reads_only (objectStoreCount st key).
Proof.
  intros d. unfold objectStoreCount.
  destruct (if is_undefined key then _ else _); reflexivity.
Qed.

Lemma ro_run_call (c : Call) :
  is_facade c = true -> inv (ReadOnly db) (run_call c).
Proof.
  intros Hc s HR.
  pose proof HR as (Hm & Hdb & Hq & Hcur & Hh & H1 & H2 & H3 & H4 & H5).
  destruct (run_call_outcome c s) as [(e & _ & ->) | [(_ & ->) | (_ & Hrun)]].
  - exact HR.
  - unfold ReadOnly. cbn [tx_mode backend tx_requests cl_q heap tx_onabort tx_onerror
      tx_oncomplete tx_internal_oncomplete db_onerror set_heap].
    ro_split; try assumption.
    apply Forall_app. split; [exact Hh | repeat constructor].
  - rewrite Hrun. unfold ReadOnly, queued.
    cbn [tx_mode backend tx_requests cl_q heap tx_onabort tx_onerror
      tx_oncomplete tx_internal_oncomplete db_onerror set_heap set_trace set_tx_requests].
    ro_split; try assumption.
    + apply Forall_app. split; [exact Hq |]. constructor; [| constructor]. cbn [e_op].
      destruct c as [st args | st args | st args | st args | st | st args | p];
        try discriminate;
        try (match type of Hrun with
             | run_call ?c s = _ =>
                 destruct (read_only_rejects c s Hm eq_refl) as (e & _ & Hx);
                 rewrite Hx in Hrun; discriminate
             end).
      * apply reads_only_get.
      * apply reads_only_count.
    + apply Forall_app. split; [exact Hh | repeat constructor].
Qed.

Lemma ro_install (r : nat) (hs he : list Action) :
  facade_script hs = true -> facade_script he = true ->
  inv (ReadOnly db) (install r hs he).
Proof.
  intros Hs He. unfold install. apply inv_modify.
  intros s (Hm & Hdb & Hq & Hcur & Hh & H1 & H2 & H3 & H4 & H5).
  unfold ReadOnly. cbn [tx_mode backend tx_requests cl_q heap tx_onabort tx_onerror
    tx_oncomplete tx_internal_oncomplete db_onerror set_heap].
  ro_split; try assumption.
  apply Forall_alter; [exact Hh |]. intros rq _ _. split; assumption.
Qed.

Lemma ro_abort : inv (ReadOnly db) abort.
Proof. unfold abort. repeat inv_step; assumption. Qed.

Lemma ro_run_action (a : Action) :
  facade_only a = true -> inv (ReadOnly db) (run_action a).
Proof.
  destruct a as [c hs he | | e]; cbn [run_action]; intros Ha.
  - apply facade_only_request in Ha as (Hc & Hs & He).
    apply inv_bind; [apply ro_run_call, Hc | intros r; apply ro_install; assumption].
  - apply ro_abort.
  - apply inv_throw.
Qed.

Lemma ro_run_actions (l : list Action) :
  facade_script l = true -> inv (ReadOnly db) (run_actions l).
Proof.
  induction l as [| a l IH]; cbn [run_actions]; intros Hl.
  - apply inv_ret.
  - apply facade_script_cons in Hl as [Ha Hl].
    apply inv_bind; [apply ro_run_action, Ha | intros _; apply IH, Hl].
Qed.

Lemma ro_event (e : Event) (s : State) :
  ReadOnly db s -> ReadOnly db (set_trace (trace s ++ [e]) s).
Proof. intros HR. exact HR. Qed.

Lemma ro_callback (e : Event) (h : list Action) :
  facade_script h = true -> inv (ReadOnly db) (callback e h).
Proof.
  intros Hh. unfold callback, emit.
  apply inv_bind; [apply inv_modify; intros s HR; exact HR | intros _].
  apply ro_run_actions, Hh.
Qed.

Lemma ro_transactionFinished : inv (ReadOnly db) transactionFinished.
Proof.
  unfold transactionFinished. apply inv_try_catch.
  - apply hoare_get. intros s0 s [HR ->].
    pose proof HR as (_ & _ & _ & _ & _ & _ & _ & H3 & H4 & _).
    exact (inv_bind (ReadOnly db) _ _ (ro_callback EvComplete _ H3)
             (fun _ => ro_callback EvInternalComplete _ H4) s0 HR).
  - intros e. apply inv_bind; [| intros _; apply inv_throw].
    apply inv_modify. intros s HR. exact HR.
Qed.

Lemma ro_transactionError (err : Exn) : inv (ReadOnly db) (transactionError err).
Proof.
  unfold transactionError.
  apply inv_bind; [apply inv_modify; intros s HR; exact HR | intros _].
  apply hoare_get. intros s0 s [HR ->].
  pose proof HR as (_ & _ & _ & _ & _ & _ & H2 & _ & _ & H5).
  assert (inv (ReadOnly db)
            (if tx_errored s0 then ret tt
             else
               modify (set_tx_errored true) >>
               (if negb (tx_active s0) then throw err
                else
                  try_finally
                    (modify (set_tx_error (Some err)) >>
                     callback (EvTxError err) (tx_onerror s0) >>
                     callback (EvDbError err) (db_onerror s0))
                    abort))) as Hinv.
  { destruct (tx_errored s0); [apply inv_ret |].
    apply inv_bind; [apply inv_modify; intros s HR'; exact HR' | intros _].
    destruct (negb (tx_active s0)); [apply inv_throw |].
    apply inv_try_finally; [| apply ro_abort].
    apply inv_bind; [apply inv_modify; intros s HR'; exact HR' | intros _].
    apply inv_bind; [apply ro_callback, H2 | intros _; apply ro_callback, H5]. }
  exact (Hinv s0 HR).
Qed.

Lemma ro_handler (sel : Request -> list Action) (r : nat) (s : State) :
  sel = onsuccess \/ sel = onerror ->
  ReadOnly db s -> facade_script (handler sel r s) = true.
Proof.
  intros Hsel (_ & _ & _ & _ & Hh & _). unfold handler.
  destruct (heap s !! r) as [rq |] eqn:Hr; [| reflexivity].
  destruct (proj1 (Forall_lookup _ _) Hh r rq Hr) as [Hs He].
  destruct Hsel as [-> | ->]; assumption.
Qed.

Lemma ro_mark_error (err : Exn) (s : State) (q : Entry) :
  ReadOnly db s -> ReadOnly db (mark_error err s q).
Proof.
  intros (Hm & Hdb & Hq & Hcur & Hh & H1 & H2 & H3 & H4 & H5).
  unfold ReadOnly, mark_error.
  cbn [tx_mode backend tx_requests cl_q heap tx_onabort tx_onerror
    tx_oncomplete tx_internal_oncomplete db_onerror set_heap set_trace].
  ro_split; try assumption.
  apply Forall_alter; [exact Hh |]. intros rq _ Hrq. exact Hrq.
Qed.

Lemma ro_mark_success (v : Value) (s : State) (q : Entry) :
  ReadOnly db s -> ReadOnly db (mark_success v s q).
Proof.
  intros (Hm & Hdb & Hq & Hcur & Hh & H1 & H2 & H3 & H4 & H5).
  unfold ReadOnly, mark_success.
  cbn [tx_mode backend tx_requests cl_q heap tx_onabort tx_onerror
    tx_oncomplete tx_internal_oncomplete db_onerror set_heap set_trace].
  ro_split; try assumption.
  apply Forall_alter; [exact Hh |]. intros rq _ Hrq. exact Hrq.
Qed.

Lemma ro_error (err : Exn) : inv (ReadOnly db) (error err).
Proof.
  intros s HR. destruct (cl_q s) as [q |] eqn:Hq.
  - rewrite (error_steps err s q Hq).
    apply (inv_try_finally (ReadOnly db) _ _
             (ro_run_actions _ (ro_handler onerror (e_req q) _ (or_intror eq_refl)
                                  (ro_mark_error err s q HR)))
             (ro_transactionError err)).
    apply ro_mark_error, HR.
  - rewrite (error_null err s Hq).
    apply (inv_try_finally (ReadOnly db) _ _
             (inv_throw _ TypeError) (ro_transactionError err)).
    exact HR.
Qed.

Lemma ro_op_body (q : Entry) (s0 : State) :
  reads_only (e_op q) -> backend s0 = db ->
  inv (ReadOnly db) (op_body q s0).
Proof.
  intros Hq Hdb. unfold op_body. pose proof (Hq (backend s0)) as Hsame.
  destruct (e_op q (backend s0)) as [db' outcome]. cbn [fst] in Hsame.
  apply inv_bind.
  - apply inv_modify. intros s (Hm & Hb & Hrest).
    split; [exact Hm | split; [| exact Hrest]]. cbn [backend set_backend]. congruence.
  - intros _. destruct outcome.
    + apply inv_throw.
    + apply ro_error.
    + apply inv_modify. intros s HR. exact HR.
    + apply inv_ret.
Qed.

Lemma ro_executeNextRequest : inv (ReadOnly db) executeNextRequest.
Proof.
  intros s HR. pose proof HR as (Hm & Hdb & Hq & Hcur & Hh & H1 & H2 & H3 & H4 & H5).
  destruct (tx_requests s !! cl_i s) as [q |] eqn:Hlook.
  - rewrite (executeNextRequest_steps s q Hlook).
    pose proof (proj1 (Forall_lookup _ _) Hq _ _ Hlook) as Hpure.
    apply (inv_try_catch (ReadOnly db) _ _ (ro_op_body q (calling q s) Hpure Hdb)
             (fun e => ro_error e)).
    unfold ReadOnly, calling.
    cbn [tx_mode backend tx_requests cl_q heap tx_onabort tx_onerror
      tx_oncomplete tx_internal_oncomplete db_onerror set_cl_q set_trace].
    ro_split; try assumption.
    intros q' Hx. inversion Hx; subst. exact Hpure.
  - apply lookup_ge_None in Hlook. rewrite (executeNextRequest_drained s Hlook).
    assert (ReadOnly db (set_tx_requests [] s)) as Hempty.
    { unfold ReadOnly.
      cbn [tx_mode backend tx_requests cl_q heap tx_onabort tx_onerror
        tx_oncomplete tx_internal_oncomplete db_onerror set_tx_requests].
      ro_split; try assumption. constructor. }
    destruct (tx_active s).
    + apply ro_transactionFinished. exact Hempty.
    + exact Hempty.
Qed.

Lemma ro_success (v : Value) (r : option nat) : inv (ReadOnly db) (success v r).
Proof.
  assert (forall s, ReadOnly db s ->
            match success v None s with
            | (Ok _, s') => ReadOnly db s'
            | (Throw _, s') => ReadOnly db s'
            end) as Hnone.
  { intros s HR. destruct (cl_q s) as [q |] eqn:Hq.
    - rewrite (success_steps v s q Hq).
      refine (inv_bind (ReadOnly db) _ _
                (ro_run_actions _ (ro_handler onsuccess (e_req q) _ (or_introl eq_refl)
                                     (ro_mark_success v s q HR)))
                (fun _ => inv_bind (ReadOnly db) _ _ _ (fun _ => ro_executeNextRequest))
                _ (ro_mark_success v s q HR)).
      apply inv_modify. intros s1 H1. exact H1.
    - rewrite (success_null v None s Hq). exact HR. }
  intros s HR. destruct r as [r |]; [| apply Hnone, HR].
  destruct (cl_q s) as [q |] eqn:Hq.
  - rewrite (success_rebind v r s q Hq). apply Hnone.
    destruct HR as (Hm & Hdb & Hqs & Hcur & Hh & H1 & H2 & H3 & H4 & H5).
    unfold ReadOnly.
    cbn [tx_mode backend tx_requests cl_q heap tx_onabort tx_onerror
      tx_oncomplete tx_internal_oncomplete db_onerror set_cl_q set_trace].
    ro_split; try assumption.
    intros q' Hx. inversion Hx; subst. cbn [e_op]. apply (Hcur q Hq).
  - rewrite (success_null v (Some r) s Hq). exact HR.
Qed.

Lemma ro_deliver (c : Completion) : inv (ReadOnly db) (deliver c).
Proof.
  induction c; simpl.
  - apply ro_success.
  - apply ro_error.
  - apply inv_throw.
  - apply inv_try_catch; [exact IHc1 | intros _; exact IHc2].
Qed.

Lemma ro_turn (m : M unit) (s : State) :
  inv (ReadOnly db) m -> ReadOnly db s -> ReadOnly db (turn m s).
Proof.
  intros Hm HR. unfold turn. specialize (Hm s HR).
  destruct (m s) as [[[] | e] s']; exact Hm.
Qed.

Lemma ro_websql_turn (m : M unit) (s : State) :
  inv (ReadOnly db) m -> ReadOnly db s -> ReadOnly db (websql_turn m s).
Proof.
  intros Hm HR. unfold websql_turn. specialize (Hm s HR).
  destruct (m s) as [[[] | e] s']; exact Hm.
Qed.

Lemma ro_fire (l : Label) (s s' : State) :
  facade_label l = true ->
  fire l s = Some s' -> ReadOnly db s -> ReadOnly db s'.
Proof.
  destruct l as [| | | e | | script]; cbn [fire facade_label]; intros Hl Hf HR.
  - destruct (phase s); inversion Hf; subst.
    apply ro_turn; [| exact HR].
    unfold executeRequests. repeat inv_step; assumption.
  - destruct (phase s); inversion Hf; subst.
    apply ro_websql_turn; [| exact HR].
    unfold transactionCallback.
    apply inv_bind; [apply inv_modify | intros _].
    { intros s1 (Hm & Hdb & Hq & Hcur & Hrest).
      split; [exact Hm | split; [exact Hdb | split; [exact Hq | split; [| exact Hrest]]]].
      intros q Hx. discriminate. }
    apply inv_bind; [apply inv_modify; intros s1 H1; exact H1 | intros _].
    apply ro_executeNextRequest.
  - destruct (phase s); try discriminate.
    destruct (inflight s) as [c |]; inversion Hf; subst.
    apply ro_websql_turn; [apply ro_deliver | exact HR].
  - assert (ReadOnly db (turn (transactionError e) (set_phase Failed s))) as Hgoal
      by (apply ro_turn; [apply ro_transactionError | exact HR]).
    destruct (phase s); try discriminate; inversion Hf; subst; exact Hgoal.
  - destruct (abort_timers s) as [| n] eqn:Hn; inversion Hf; subst.
    apply ro_turn; [| exact HR].
    apply ro_callback. destruct HR as (_ & _ & _ & _ & _ & H1 & _). exact H1.
  - inversion Hf; subst. apply ro_turn; [apply ro_run_actions, Hl | exact HR].
Qed.

Lemma ro_run (sched : list Label) (s s' : State) :
  forallb facade_label sched = true ->
  run sched s = Some s' -> ReadOnly db s -> ReadOnly db s'.
Proof.
  revert s. induction sched as [| l sched IH]; cbn [run forallb]; intros s Hl Hr HR.
  - inversion Hr; subst; exact HR.
  - apply andb_prop in Hl as [Hl Hrest].
    destruct (fire l s) as [s1 |] eqn:Hf; [| discriminate].
    apply (IH s1 Hrest Hr). apply (ro_fire l s s1 Hl Hf HR).
Qed.

(** X21: A read-only transaction never changes the database.  When the
    callers and the handlers reach the transaction through the façade
    only ([add], [put], [get], [delete], [clear], [count], [abort]), the
    writes are all refused with [ReadOnlyError] before anything is
    queued, every procedure that does get queued only reads, and the
    database is, after any run, the one the transaction started on. *)
Theorem read_only_transaction_never_writes
    (onabort onerror oncomplete internal_oncomplete dberror : list Action)
    (sched : list Label) (s : State) :
  facade_script onabort = true ->
  facade_script onerror = true ->
  facade_script oncomplete = true ->
  facade_script internal_oncomplete = true ->
  facade_script dberror = true ->
  forallb facade_label sched = true ->
  run sched (new_transaction READ_ONLY db onabort onerror oncomplete
               internal_oncomplete dberror) = Some s ->
  backend s = db /\
  Forall (fun e => reads_only (e_op e)) (tx_requests s).
Proof.
  intros H1 H2 H3 H4 H5 Hsched Hrun.
  assert (ReadOnly db (new_transaction READ_ONLY db onabort onerror oncomplete
                         internal_oncomplete dberror)) as H0.
  { unfold ReadOnly, new_transaction.
    cbn [tx_mode backend tx_requests cl_q heap tx_onabort tx_onerror
      tx_oncomplete tx_internal_oncomplete db_onerror].
    ro_split; try assumption; try reflexivity; try constructor.
    intros q Hx. discriminate. }
  destruct (ro_run sched _ s Hsched Hrun H0) as (_ & Hdb & Hq & _).
  split; assumption.
Qed.

End ReadOnly.

(** * A transaction whose operations all succeed *)

Lemma outcomes_app (l1 l2 : list Proc) (db : Backend) :
  outcomes (l1 ++ l2) db
  = match outcomes l1 db with
    | Some (v1, d1) =>
        match outcomes l2 d1 with
        | Some (v2, d2) => Some (v1 ++ v2, d2)
        | None => None
        end
    | None => None
    end.
Proof.
  revert db. induction l1 as [| p l1 IH]; intros db; cbn [outcomes app].
  - destruct (outcomes l2 db) as [[v2 d2] |]; reflexivity.
  - destruct (p db) as [db1 [e | e | [v [r |] | e | e | a b] |]]; try reflexivity.
    rewrite IH. destruct (outcomes l1 db1) as [[v1 d1] |]; [| reflexivity].
    destruct (outcomes l2 d1) as [[v2 d2] |]; reflexivity.
Qed.

Lemma outcomes_length (ps : list Proc) (db db' : Backend) (vs : list Value) :
  outcomes ps db = Some (vs, db') -> length vs = length ps.
Proof.
  revert db vs. induction ps as [| p ps IH]; intros db vs; cbn [outcomes].
  - intros Hx. inversion Hx. reflexivity.
  - destruct (p db) as [db1 [e | e | [v [r |] | e | e | a b] |]]; try discriminate.
    destruct (outcomes ps db1) as [[vs1 d1] |] eqn:Ho; [| discriminate].
    intros Hx. inversion Hx; subst. cbn [length]. f_equal. apply (IH db1 vs1 Ho).
Qed.

(** The operation at position [i] of a queue that succeeds. *)
Lemma outcomes_at (ps : list Proc) (db db' : Backend) (vs : list Value)
    (i : nat) (p : Proc) :
  outcomes ps db = Some (vs, db') ->
  ps !! i = Some p ->
  exists v d d',
    vs !! i = Some v /\
    outcomes (take i ps) db = Some (take i vs, d) /\
    p d = (d', SIssued (CSuccess v None)) /\
    outcomes (take (S i) ps) db = Some (take (S i) vs, d').
Proof.
  revert db vs i. induction ps as [| p0 ps IH]; intros db vs i Ho Hp; [discriminate |].
  cbn [outcomes] in Ho.
  destruct (p0 db) as [db1 out] eqn:Hp0.
  destruct out as [e | e | [v0 [r |] | e | e | a b] |]; try discriminate.
  destruct (outcomes ps db1) as [[vs1 d1] |] eqn:Ho1; [| discriminate].
  inversion Ho; subst; clear Ho.
  destruct i as [| i].
  - cbn in Hp. inversion Hp; subst. exists v0, db, db1.
    cbn [take outcomes lookup]. rewrite Hp0. repeat split; reflexivity.
  - cbn in Hp. destruct (IH db1 vs1 i Ho1 Hp) as (v & d & d' & Hv & H1 & H2 & H3).
    exists v, d, d'. split; [exact Hv |]. split; [| split; [exact H2 |]].
    + cbn [take outcomes]. rewrite Hp0, H1. reflexivity.
    + change (take (S (S i)) (p0 :: ps)) with (p0 :: take (S i) ps).
      change (take (S (S i)) (v0 :: vs1)) with (v0 :: take (S i) vs1).
      cbn [outcomes]. rewrite Hp0, H3. reflexivity.
Qed.

Lemma enqueue_events_S (n : nat) :
  enqueue_events (S n) = enqueue_events n ++ [EvEnqueue n].
Proof. unfold enqueue_events. rewrite seq_S, map_app. reflexivity. Qed.

Lemma replicate_snoc {A : Type} (n : nat) (x : A) :
  replicate n x ++ [x] = replicate (S n) x.
Proof. induction n as [| n IH]; [reflexivity |]. cbn. rewrite IH. reflexivity. Qed.

(** The request of the operation at position [i] becomes done. *)
Lemma heap_done (vs : list Value) (i n : nat) (v : Value) :
  vs !! i = Some v ->
  (i < n)%nat ->
  alter (fun rq => {| readyState := Done; result := v; rq_error := None;
                      onsuccess := onsuccess rq; onerror := onerror rq |}) i
    (map done_with (take i vs) ++ replicate (n - i) new_request)
  = map done_with (take (S i) vs) ++ replicate (n - S i) new_request.
Proof.
  intros Hv Hlt. pose proof (lookup_lt_Some _ _ _ Hv) as Hi.
  assert (length (map done_with (take i vs)) = i) as Hlen
    by (rewrite length_map, length_take; lia).
  rewrite alter_app_r_alt by lia. rewrite Hlen, Nat.sub_diag.
  replace (n - i)%nat with (S (n - S i)) by lia.
  rewrite (take_S_r vs i v Hv), map_app, <- app_assoc. reflexivity.
Qed.

Lemma heap_pending (vs : list Value) (i n : nat) :
  (i <= length vs)%nat -> (i < n)%nat ->
  (map done_with (take i vs) ++ replicate (n - i) new_request) !! i = Some new_request.
Proof.
  intros Hi Hlt.
  assert (length (map done_with (take i vs)) = i) as Hlen
    by (rewrite length_map, length_take; lia).
  rewrite lookup_app_r by lia. rewrite Hlen, Nat.sub_diag.
  replace (n - i)%nat with (S (n - S i)) by lia. reflexivity.
Qed.

Section Completion.
Context `{Collaborators}.

(** A call that returns, on a waiting transaction. *)
Lemma waiting_call (pre : list Proc) (db : Backend) (c : Call) (s s' : State) :
  Waiting pre db s ->
  run_action (plain c) s = (Ok tt, s') ->
  Waiting (pre ++ [procedure_of c]) db s'.
Proof.
  intros (Ha & Hph & Hrun & Hc1 & Hc2 & Hreq & Hheap & Hdb & Htr) Hcall.
  unfold plain in Hcall. cbn [run_action] in Hcall. unfold bind in Hcall.
  destruct (run_call_outcome c s) as [(e & _ & Hx) | [(Hx & _) | (_ & Hx)]].
  - rewrite Hx in Hcall. discriminate.
  - congruence.
  - rewrite Hx in Hcall. unfold install, modify in Hcall.
    inversion Hcall; subst s'; clear Hcall.
    unfold Waiting, queued.
    cbn [tx_active phase tx_running tx_oncomplete tx_internal_oncomplete tx_requests
         heap backend trace set_heap set_trace set_tx_requests].
    repeat (split; [assumption |]). split; [| split; [| split; [exact Hdb |]]].
    + rewrite Hreq, imap_app. cbn [imap]. rewrite Nat.add_0_r.
      rewrite Hheap, length_replicate. reflexivity.
    + rewrite Hheap, length_replicate, length_app. cbn [length].
      rewrite Nat.add_1_r, <- replicate_snoc.
      rewrite alter_app_r_alt by (rewrite length_replicate; lia).
      rewrite length_replicate, Nat.sub_diag. reflexivity.
    + rewrite Htr, length_app. cbn [length]. rewrite Nat.add_1_r, enqueue_events_S.
      rewrite Hheap, length_replicate. reflexivity.
Qed.

Lemma waiting_script (cs : list Call) (pre : list Proc) (db : Backend) (s s' : State) :
  Waiting pre db s ->
  run_actions (map plain cs) s = (Ok tt, s') ->
  Waiting (pre ++ map procedure_of cs) db s'.
Proof.
  revert pre s. induction cs as [| c cs IH]; intros pre s HW Hrun.
  - cbn in Hrun. inversion Hrun; subst. rewrite app_nil_r. exact HW.
  - cbn [map run_actions] in Hrun. unfold bind in Hrun.
    destruct (run_action (plain c) s) as [[[] | e] s1] eqn:Hc; [| discriminate].
    pose proof (waiting_call pre db c s s1 HW Hc) as HW1.
    specialize (IH _ _ HW1 Hrun). rewrite <- app_assoc in IH. exact IH.
Qed.

Lemma entry_for_lookup (ps : list Proc) (i : nat) :
  imap entry_for ps !! i = entry_for i <$> ps !! i.
Proof. apply list_lookup_imap. Qed.

(** [executeNextRequest] calls the procedure at the index, which issues
    its statement. *)
Lemma executeNextRequest_issues (ps : list Proc) (i : nat) (p : Proc) (v : Value)
    (d' : Backend) (s : State) :
  tx_requests s = imap entry_for ps ->
  cl_i s = i ->
  ps !! i = Some p ->
  p (backend s) = (d', SIssued (CSuccess v None)) ->
  executeNextRequest s
  = (Ok tt, set_inflight (Some (CSuccess v None))
              (set_backend d' (calling (entry_for i p) s))).
Proof.
  intros Hreq Hi Hp Hrun.
  rewrite (executeNextRequest_steps s (entry_for i p)).
  - unfold try_catch, op_body. cbn [backend calling set_trace set_cl_q e_op entry_for].
    rewrite Hrun. reflexivity.
  - rewrite Hreq, Hi, entry_for_lookup, Hp. reflexivity.
Qed.

(** At the end of the queue it completes the transaction. *)
Lemma executeNextRequest_finishes (ps : list Proc) (s : State) :
  tx_requests s = imap entry_for ps ->
  (length ps <= cl_i s)%nat ->
  tx_active s = true ->
  tx_oncomplete s = [] -> tx_internal_oncomplete s = [] ->
  executeNextRequest s
  = (Ok tt, set_trace (trace s ++ [EvComplete; EvInternalComplete])
              (set_tx_active false (set_tx_requests [] s))).
Proof.
  intros Hreq Hi Ha H1 H2.
  rewrite executeNextRequest_drained.
  - rewrite Ha, transactionFinished_plain by assumption. reflexivity.
  - rewrite Hreq, length_imap. exact Hi.
Qed.

(** The transaction starts: the first procedure is called, or an empty
    queue completes. *)
Lemma completion_starts (ps : list Proc) (vs : list Value) (db db' : Backend) (s : State) :
  outcomes ps db = Some (vs, db') ->
  Waiting ps db s ->
  exists s', run [LExecuteRequests; LTransaction] s = Some s' /\
             match ps with
             | [] => Completed (length ps) vs db' s'
             | _ :: _ => InFlight ps vs db 0 s'
             end.
Proof.
  intros Ho (Ha & Hph & Hrun & Hc1 & Hc2 & Hreq & Hheap & Hdb & Htr).
  set (s1 := set_phase Opening (set_tx_running true s)).
  assert (fire LExecuteRequests s = Some s1) as Hf1.
  { cbn [fire]. rewrite Hph. unfold turn, executeRequests. rewrite run_bind_get, Hrun.
    reflexivity. }
  set (s2 := set_cl_i 0%nat (set_cl_q None (set_phase Open s1))).
  assert (fire LTransaction s1 = Some (websql_turn (fun _ => executeNextRequest s2) s2))
    as Hf2 by reflexivity.
  cbn [run]. rewrite Hf1, Hf2. unfold websql_turn.
  destruct ps as [| p ps'].
  - cbn in Ho. inversion Ho; subst.
    rewrite (executeNextRequest_finishes [] s2 Hreq (Nat.le_refl _) Ha Hc1 Hc2).
    eexists. split; [reflexivity |]. unfold Completed.
    cbn [tx_active backend heap trace set_trace set_tx_active set_tx_requests s2 s1
         set_cl_i set_cl_q set_phase set_tx_running].
    rewrite Htr, Hheap. repeat split; reflexivity.
  - destruct (outcomes_at (p :: ps') db db' vs 0 p Ho eq_refl)
      as (v & d & d' & Hv & H0 & Hp & H1).
    cbn in H0. inversion H0; subst d.
    rewrite (executeNextRequest_issues (p :: ps') 0 p v d' s2 Hreq eq_refl eq_refl).
    2:{ cbn [backend s2 s1 set_cl_i set_cl_q set_phase set_tx_running].
        rewrite Hdb. exact Hp. }
    eexists. split; [reflexivity |]. unfold InFlight, calling.
    cbn [tx_active phase tx_oncomplete tx_internal_oncomplete tx_requests heap cl_i cl_q
         inflight backend trace set_inflight set_backend set_trace set_cl_q s2 s1 set_cl_i
         set_phase set_tx_running].
    split; [exact Ha |]. split; [reflexivity |]. split; [exact Hc1 |].
    split; [exact Hc2 |]. split; [exact Hreq |].
    split; [rewrite Hheap, Nat.sub_0_r; reflexivity |].
    split; [reflexivity |].
    split; [exists p, v; split; [reflexivity | split; [exact Hv | split; reflexivity]] |].
    split; [exact H1 |].
    rewrite Htr. reflexivity.
Qed.

(** WebSQL answers the statement in flight: the operation succeeds and
    the next procedure is called on the database the operation left, or
    the transaction completes. *)
Lemma completion_step (ps : list Proc) (vs : list Value) (db db' : Backend)
    (i : nat) (s : State) :
  outcomes ps db = Some (vs, db') ->
  InFlight ps vs db i s ->
  exists s', fire LStatement s = Some s' /\
             match ps !! S i with
             | Some _ => InFlight ps vs db (S i) s'
             | None => Completed (length ps) vs db' s'
             end.
Proof.
  intros Ho (Ha & Hph & Hc1 & Hc2 & Hreq & Hheap & Hi & (p & v & Hp & Hv & Hq & Hfl)
             & Hdb & Htr).
  pose proof (outcomes_length _ _ _ _ Ho) as Hlen.
  pose proof (lookup_lt_Some _ _ _ Hp) as Hlt.
  set (sb := set_inflight None s).
  assert (fire LStatement s = Some (websql_turn (success v None) sb)) as ->.
  { cbn [fire]. rewrite Hph, Hfl. reflexivity. }
  unfold websql_turn. rewrite (success_steps v sb (entry_for i p) Hq).
  cbn [e_req entry_for].
  assert (heap (mark_success v sb (entry_for i p))
          = map done_with (take (S i) vs) ++ replicate (length ps - S i) new_request)
    as Hheap1.
  { unfold mark_success. cbn [heap set_trace set_heap sb set_inflight e_req entry_for].
    rewrite Hheap. apply heap_done; assumption. }
  assert (handler onsuccess i (mark_success v sb (entry_for i p)) = []) as ->.
  { unfold handler. rewrite Hheap1.
    assert (length (map done_with (take (S i) vs)) = S i) as Hl
      by (rewrite length_map, length_take; lia).
    rewrite lookup_app_l by lia.
    rewrite list_lookup_fmap, (take_S_r vs i v Hv), lookup_app_r, length_take
      by (rewrite length_take; lia).
    replace (i - i `min` length vs)%nat with 0%nat by lia. reflexivity. }
  cbn [run_actions].
  set (sc := set_cl_i (S (cl_i (mark_success v sb (entry_for i p))))
               (mark_success v sb (entry_for i p))).
  assert ((ret tt >> modify (fun s => set_cl_i (S (cl_i s)) s) >> executeNextRequest)
            (mark_success v sb (entry_for i p)) = executeNextRequest sc) as -> by reflexivity.
  assert (trace sc = enqueue_events (length ps) ++ pass_events 0 (take (S i) vs)) as Htc.
  { subst sc. unfold mark_success.
    cbn [trace set_trace set_heap set_cl_i sb set_inflight e_req entry_for].
    rewrite Htr, (pass_events_take_S vs i v Hv), <- !app_assoc. reflexivity. }
  assert (cl_i sc = S i) as Hic by (subst sc; cbn; rewrite Hi; reflexivity).
  assert (heap sc = map done_with (take (S i) vs)
                    ++ replicate (length ps - S i) new_request) as Hhc by exact Hheap1.
  assert (backend sc = backend s) as Hbc by reflexivity.
  destruct (ps !! S i) as [p' |] eqn:Hp'.
  - destruct (outcomes_at ps db db' vs (S i) p' Ho Hp') as (v' & d & d' & Hv' & H0 & Hrun & H1).
    assert (d = backend s) as -> by congruence.
    rewrite (executeNextRequest_issues ps (S i) p' v' d' sc Hreq Hic Hp').
    2:{ rewrite Hbc. exact Hrun. }
    eexists. split; [reflexivity |]. unfold InFlight, calling.
    cbn [tx_active phase tx_oncomplete tx_internal_oncomplete tx_requests heap cl_i cl_q
         inflight backend trace set_inflight set_backend set_trace set_cl_q].
    split; [exact Ha |]. split; [exact Hph |]. split; [exact Hc1 |]. split; [exact Hc2 |].
    split; [exact Hreq |]. split; [exact Hhc |]. split; [exact Hic |].
    split; [exists p', v'; split; [exact Hp' | split; [exact Hv' | split; reflexivity]] |].
    split; [exact H1 |].
    rewrite Htc, Hic, <- app_assoc. reflexivity.
  - apply lookup_ge_None in Hp'.
    assert (length ps <= cl_i sc)%nat as Hend by lia.
    rewrite (executeNextRequest_finishes ps sc Hreq Hend Ha Hc1 Hc2).
    eexists. split; [reflexivity |]. unfold Completed.
    cbn [tx_active backend heap trace set_trace set_tx_active set_tx_requests].
    rewrite Hhc, Htc, Hbc.
    rewrite !take_ge in * by lia.
    replace (length ps - S i)%nat with 0%nat by lia. cbn [replicate].
    rewrite app_nil_r, <- app_assoc.
    split; [reflexivity |]. split; [congruence |]. split; reflexivity.
Qed.

(** One answer per operation still to run brings the transaction to its
    end. *)
Lemma completion_finishes (n : nat) (ps : list Proc) (vs : list Value)
    (db db' : Backend) (i : nat) (s : State) :
  outcomes ps db = Some (vs, db') ->
  (n + i = length ps)%nat ->
  InFlight ps vs db i s ->
  exists s', run (repeat LStatement n) s = Some s' /\ Completed (length ps) vs db' s'.
Proof.
  intros Ho. revert i s. induction n as [| n IH]; intros i s Hn HR.
  - destruct HR as (_ & _ & _ & _ & _ & _ & _ & (p & v & Hp & _) & _).
    apply lookup_lt_Some in Hp. lia.
  - destruct (completion_step ps vs db db' i s Ho HR) as (s1 & Hf & Hnext).
    cbn [repeat run]. rewrite Hf.
    destruct (ps !! S i) as [p' |] eqn:Hp'.
    + apply (IH (S i) s1); [lia | exact Hnext].
    + apply lookup_ge_None in Hp'.
      assert (n = 0%nat) as -> by lia.
      exists s1. split; [reflexivity | exact Hnext].
Qed.

(** A script of calls that all return, whose procedures all succeed. *)
Lemma completion_runs (mode : Mode) (db db' : Backend) (cs : list Call)
    (vs : list Value) (s1 : State) :
  run_actions (map plain cs) (new_transaction mode db [] [] [] [] []) = (Ok tt, s1) ->
  outcomes (map procedure_of cs) db = Some (vs, db') ->
  exists s,
    run (LCaller (map plain cs) :: pass_schedule (length cs))
      (new_transaction mode db [] [] [] [] []) = Some s /\
    Completed (length cs) vs db' s.
Proof.
  intros Hscript Ho.
  set (s0 := new_transaction mode db [] [] [] [] []) in *.
  assert (Waiting [] db s0) as H0 by (repeat split; reflexivity).
  pose proof (waiting_script cs [] db s0 s1 H0 Hscript) as HW.
  rewrite app_nil_l in HW.
  destruct (completion_starts _ vs db db' s1 Ho HW) as (s2 & Hrun2 & Hs2).
  assert (run (LCaller (map plain cs) :: pass_schedule (length cs)) s0
          = run (repeat LStatement (length cs)) s2) as ->.
  { unfold pass_schedule.
    change (LCaller (map plain cs) :: [LExecuteRequests; LTransaction]
              ++ repeat LStatement (length cs))
      with ([LCaller (map plain cs)]
              ++ [LExecuteRequests; LTransaction] ++ repeat LStatement (length cs)).
    rewrite run_app.
    assert (run [LCaller (map plain cs)] s0 = Some s1) as ->
      by (cbn [run fire]; unfold turn; rewrite Hscript; reflexivity).
    rewrite run_app, Hrun2. reflexivity. }
  rewrite <- (length_map procedure_of cs) in *.
  destruct (map procedure_of cs) as [| p ps'] eqn:Hps.
  - exists s2. split; [reflexivity | exact Hs2].
  - apply (completion_finishes (length (p :: ps')) (p :: ps') vs db db' 0 s2 Ho);
      [lia | exact Hs2].
Qed.


(** A key that [__validateKey] has let through is valid. *)
Lemma validateKey_given_valid (st : Store) (value key : Value) :
  validateKey st value key = Ok tt ->
  is_undefined (given_key st value key) = false ->
  Key_valid (given_key st value key) = true.
Proof.
  unfold validateKey, given_key, Key_validate.
  destruct (truthy (keyPath st)).
  - destruct (negb (is_undefined key)); [discriminate |].
    destruct (is_object value); [| discriminate].
    intros Hv Hk. rewrite Hk in Hv.
    destruct (Key_valid (Key_getValue value (keyPath st))); [reflexivity | discriminate].
  - intros Hv Hk. rewrite Hk in Hv.
    destruct (Key_valid key); [reflexivity | discriminate].
Qed.

Lemma add_call_queues (st : Store) (value key : Value) (s : State) :
  validateKey st value key = Ok tt ->
  tx_mode s <> READ_ONLY ->
  tx_active s = true ->
  run_call (MAdd st [value; key]) s
  = (Ok (length (heap s)),
     queued (procedure_of (MAdd st [value; key])) (length (heap s)) s).
Proof.
  intros Hcheck Hm Ha.
  destruct (run_call_outcome (MAdd st [value; key]) s) as [(e & _ & Hx) | [(Hx & _) | (_ & Hx)]];
    [| congruence | exact Hx].
  exfalso. revert Hx. cbn [run_call]. unfold add.
  change (arg 0 [value; key]) with value. change (arg 1 [value; key]) with key.
  cbn [length Nat.eqb]. unfold bind at 1, lift. rewrite Hcheck.
  unfold bind at 1, assertWritable. unfold bind at 1, get.
  destruct (tx_mode s); [congruence | |];
    (unfold ret at 1; fold (addToTransactionQueue (objectStoreAdd st value key) VUndefined);
     rewrite (addToTransactionQueue_active _ s Ha); discriminate).
Qed.

Lemma get_call_queues (st : Store) (key : Value) (s : State) :
  Key_validate key = Ok tt ->
  tx_active s = true ->
  run_call (MGet st [key]) s
  = (Ok (length (heap s)),
     queued (procedure_of (MGet st [key])) (length (heap s)) s).
Proof.
  intros Hcheck Ha.
  destruct (run_call_outcome (MGet st [key]) s) as [(e & _ & Hx) | [(Hx & _) | (_ & Hx)]];
    [| congruence | exact Hx].
  exfalso. revert Hx. cbn [run_call]. unfold get_.
  change (arg 0 [key]) with key.
  cbn [length Nat.eqb]. unfold bind at 1, lift. rewrite Hcheck.
  rewrite (addToTransactionQueue_active _ s Ha); discriminate.
Qed.

Lemma script_add_get (st : Store) (value key : Value) (mode : Mode) (db : Backend) :
  validateKey st value key = Ok tt ->
  is_undefined (given_key st value key) = false ->
  mode <> READ_ONLY ->
  exists s1,
    run_actions (map plain [MAdd st [value; key]; MGet st [given_key st value key]])
      (new_transaction mode db [] [] [] [] []) = (Ok tt, s1).
Proof.
  intros Hcheck Hpk Hm.
  pose proof (validateKey_given_valid st value key Hcheck Hpk) as Hvalid.
  set (s0 := new_transaction mode db [] [] [] [] []).
  assert (tx_active s0 = true) as Ha0 by reflexivity.
  assert (tx_mode s0 <> READ_ONLY) as Hm0 by exact Hm.
  pose proof (add_call_queues st value key s0 Hcheck Hm0 Ha0) as H1.
  set (sa := queued (procedure_of (MAdd st [value; key])) (length (heap s0)) s0) in *.
  set (sb := snd (install (length (heap s0)) [] [] sa)).
  assert (tx_active sb = true) as Hab by reflexivity.
  assert (Key_validate (given_key st value key) = Ok tt) as Hkv
    by (unfold Key_validate; rewrite Hvalid; reflexivity).
  pose proof (get_call_queues st (given_key st value key) sb Hkv Hab) as H2.
  eexists.
  cbn [map run_actions]. unfold plain. cbn [run_action].
  unfold bind at 1. unfold bind at 1. rewrite H1.
  change (install (length (heap s0)) [] [] sa) with (Ok tt, sb).
  cbv beta iota.
  unfold bind at 1. unfold bind at 1. rewrite H2.
  unfold install at 1, modify. cbv beta iota. unfold bind, ret. reflexivity.
Qed.

(** X23: A record added and read back in one transaction.  On a read-write
    transaction the caller adds a record that passes the key check, under
    a key found in the call that no row has, and then gets that key.
    Once WebSQL has answered the two statements, the request of [add]
    holds the key and the request of [get] holds the record, both as the
    value codec reads them back, and the transaction has completed. *)
Theorem add_then_get_in_one_transaction
    (st : Store) (value key pk' : Value) (db : Backend) (t : Table) :
  index_names_ok st ->
  tables db !! name st = Some t ->
  validateKey st value key = Ok tt ->
  let pk := given_key st value key in
  is_undefined pk = false ->
  existsb (row_has_key (Key_encode pk false)) (t_rows t) = false ->
  Sca_decode (Sca_encode pk) = Ok pk' ->
  let record := decoded (Sca_encode value) in
  exists s,
    run [LCaller [plain (MAdd st [value; key]); plain (MGet st [pk])];
         LExecuteRequests; LTransaction; LStatement; LStatement]
      (new_transaction READ_WRITE db [] [] [] [] []) = Some s /\
    tx_active s = false /\
    heap s = [done_with pk'; done_with record] /\
    trace s = [EvEnqueue 0; EvEnqueue 1;
               EvOp 0 0; EvSuccess 0 pk';
               EvOp 1 1; EvSuccess 1 record;
               EvComplete; EvInternalComplete].
Proof.
  intros Hok Ht Hcheck pk Hpk Hfresh Hdec record.
  pose proof (validateKey_given_valid st value key Hcheck Hpk) as Hvalid. fold pk in Hvalid.
  destruct (objectStoreAdd_inserts st value key db t Hok Ht Hpk Hvalid Hfresh)
    as (db' & Hadd & Ht').
  fold pk in Hadd, Ht'.
  set (row := <["value" := Sca_encode value]> (paramMap st value pk)) in *.
  assert (row !! "key" = Some (Key_encode pk false)) as Hrow
    by (subst row; rewrite (row_key st _ _ _ Hok), Hpk; reflexivity).
  pose proof (found_after db' (name st) _ _ _ row Ht' Hfresh Hrow) as Hfound.
  assert (outcomes (map procedure_of [MAdd st [value; key]; MGet st [pk]]) db
          = Some ([pk'; record], db')) as Ho.
  { cbn [map procedure_of outcomes].
    change (arg 0 [value; key]) with value. change (arg 1 [value; key]) with key.
    change (arg 0 [pk]) with pk.
    rewrite Hadd. unfold insert_completion. rewrite Hdec.
    rewrite (objectStoreGet_rows st _ db' _ Ht'), Hfound.
    subst row. rewrite row_value. reflexivity. }
  assert (READ_WRITE <> READ_ONLY) as Hmode by discriminate.
  destruct (script_add_get st value key READ_WRITE db Hcheck Hpk Hmode) as [s1 Hscript].
  fold pk in Hscript.
  destruct (completion_runs READ_WRITE db db' _ _ s1 Hscript Ho) as (s & Hrun & HC).
  exists s. split; [exact Hrun |].
  destruct HC as (Ha & _ & Hheap & Htr). repeat split; assumption.
Qed.

End Completion.

(** ** Errors that come after the end of a transaction *)

Lemma closed_user_stable (n m : nat) : UserStable (Closed n m).
Proof.
  split; unfold Closed; intros;
    cbn [tx_active tx_errored trace set_trace set_tx_requests set_heap set_tx_active
         set_abort_timers set_tx_errored set_tx_error] in *.
  - destruct H0 as (? & ? & ? & ?). repeat split; try assumption.
    + rewrite terminal_other; [assumption | destruct e; try discriminate; reflexivity].
    + rewrite completions_snoc. destruct e; try discriminate; cbn; lia.
  - destruct H0 as (? & ? & ? & ?). congruence.
  - assumption.
  - destruct H as (? & ? & ? & ?). repeat split; assumption.
  - assumption.
  - destruct H as (? & ? & ? & ?). repeat split; assumption.
  - assumption.
Qed.

Section Closed.
Context `{Collaborators}.

Lemma closed_sched (n m : nat) : Sched (Closed n m).
Proof.
  split.
  - apply closed_user_stable.
  - intros e s He (? & ? & ? & ?). unfold Closed. cbn [tx_active tx_errored trace set_trace].
    repeat split; try assumption.
    + rewrite terminal_other; [assumption | destruct e; try discriminate; reflexivity].
    + rewrite completions_snoc. destruct e; try discriminate; cbn; lia.
  - intros err s HC. pose proof HC as (Ha & He & Ht & Hc).
    rewrite transactionError_noop by exact He. cbn [snd fst].
    apply (us_event (closed_user_stable n m)); [reflexivity | exact HC].
  - intros s (Ha & _) Ha'. congruence.
  - intros s HC _. exact HC.
  - intros s HC. exact HC.
  - intros q s HC. exact HC.
  - intros i s HC. exact HC.
  - intros db s HC. exact HC.
  - intros c s HC. exact HC.
  - intros p s HC. exact HC.
Qed.

Lemma closed_run (n m : nat) (sched : list Label) (s s' : State) :
  run sched s = Some s' -> Closed n m s -> Closed n m s'.
Proof. intros Hrun. apply (sched_run _ (closed_sched n m) sched s s' Hrun). Qed.


(** X26: An error that WebSQL reports after the transaction has completed is
    thrown, not delivered.  On a transaction that is inactive and not
    errored, [webSqlError] logs the error, marks the transaction errored
    and throws the error out of the callback: the transaction's "error"
    does not fire, its [error] property is not set and no "abort" is
    scheduled.  Whatever happens afterwards, "error" never fires on the
    transaction and no further "complete" does. *)
Theorem late_websql_error_is_thrown (s : State) (err : Exn) :
  tx_active s = false ->
  tx_errored s = false ->
  phase s = Open ->
  let s' := set_trace (trace s ++ [EvLogError err; EvUncaught err])
              (set_tx_errored true (set_phase Failed s)) in
  fire (LWebSqlError err) s = Some s' /\
  tx_error s' = tx_error s /\
  abort_timers s' = abort_timers s /\
  forall sched s2,
    run sched s' = Some s2 ->
    tx_errored s2 = true /\
    terminal (trace s2) = terminal (trace s) /\
    completions (trace s2) = completions (trace s).
Proof.
  intros Ha He Hph s'.
  assert (fire (LWebSqlError err) s = Some s') as Hf.
  { cbn [fire]. rewrite Hph. unfold turn, transactionError.
    unfold bind at 1, emit, modify at 1. unfold bind at 1, get.
    cbn [tx_errored tx_active set_trace set_phase]. rewrite He, Ha.
    unfold bind, modify, throw. cbn [negb].
    subst s'. cbn [trace set_trace set_tx_errored]. rewrite <- app_assoc. reflexivity. }
  split; [exact Hf |]. split; [reflexivity |]. split; [reflexivity |].
  intros sched s2 Hrun.
  assert (Closed (terminal (trace s)) (completions (trace s)) s') as HC.
  { subst s'. unfold Closed. cbn [tx_active tx_errored trace set_trace set_tx_errored set_phase].
    split; [exact Ha |]. split; [reflexivity |].
    unfold terminal, completions. rewrite !filter_app. cbn. rewrite !app_nil_r.
    split; reflexivity. }
  destruct (closed_run _ _ sched s' s2 Hrun HC) as (? & ? & ? & ?).
  repeat split; assumption.
Qed.

End Closed.

(** * Concrete runs *)

(** C2 (the code at the failing input): the sequence lookup uses [LIKE],
    so for the store ["a_"] it also returns the row of ["ab"]; with two
    rows the generated key is 1, although the store's own sequence is 5.
    Starting from empty stores, the second record added to ["a_"] gets the
    key 1 again and the insert fails. *)
Theorem generated_key_restarts_when_names_match :
  select_sequence_like db_two_sequences "a_"
  = SqlOk [("a_", 5); ("ab", 3)] db_two_sequences /\
  getNextAutoIncKey st_a_ db_two_sequences = CallSuccess 1 /\
  option_map trace
    (run (H:=toy)
       [LCaller three_adds; LExecuteRequests; LTransaction;
        LStatement; LStatement; LStatement; LAbortTimer] tx0)
  = Some [EvEnqueue 0; EvEnqueue 1; EvEnqueue 2;
          EvOp 0 0; EvSuccess 0 (VNum 1);
          EvOp 1 1; EvSuccess 1 (VNum 1);
          EvOp 2 2; EvError 2 (DOMError "ConstraintError");
          EvLogError (DOMError "ConstraintError");
          EvTxError (DOMError "ConstraintError");
          EvDbError (DOMError "ConstraintError"); EvAbort].
Proof. repeat split; vm_compute; reflexivity. Qed.

(** C4 (counterexample): the caller queues two reads and calls [abort()]
    before the transaction starts.  The transaction is inactive and
    neither read has started, yet both procedures run and both requests
    get their "success" event. *)
Lemma abort_leaves_queued_operations_running :
  let s1 := turn (run_actions (H:=toy) two_gets_then_abort) tx0 in
  tx_active s1 = false /\
  trace s1 = [EvEnqueue 0; EvEnqueue 1] /\
  option_map trace
    (run (H:=toy)
       [LExecuteRequests; LTransaction; LStatement; LStatement; LAbortTimer] s1)
  = Some [EvEnqueue 0; EvEnqueue 1;
          EvOp 0 0; EvSuccess 0 VUndefined;
          EvOp 1 1; EvSuccess 1 VUndefined; EvAbort].
Proof. repeat split; vm_compute; reflexivity. Qed.

(** C5 (the code at the failing input): [abort()] has no guard.  Called
    after the transaction completed, it fires "abort" after "complete";
    called by the transaction's "error" handler, it makes "abort" fire
    twice. *)
Theorem abort_fires_second_terminal_event :
  option_map trace
    (run (H:=toy) [LExecuteRequests; LTransaction; LCaller [AAbort]; LAbortTimer] tx0)
  = Some [EvComplete; EvInternalComplete; EvAbort] /\
  option_map trace
    (run (H:=toy)
       [LCaller two_adds_same_key; LExecuteRequests; LTransaction;
        LStatement; LStatement; LAbortTimer; LAbortTimer] tx_abort_on_error)
  = Some [EvEnqueue 0; EvEnqueue 1;
          EvOp 0 0; EvSuccess 0 (VNum 1);
          EvOp 1 1; EvError 1 (DOMError "ConstraintError");
          EvLogError (DOMError "ConstraintError");
          EvTxError (DOMError "ConstraintError");
          EvDbError (DOMError "ConstraintError"); EvAbort; EvAbort].
Proof. split; vm_compute; reflexivity. Qed.

Lemma add_put_validate_key_before_enqueue_witness :
  (add (H:=toy) st_people [VObj [("id", VNum 5)]; VNum 7] tx0
   = (Throw (DOMException "DataError"), tx0)) /\
  (put (H:=toy) st_people [VObj []] tx0 = (Throw (DOMException "DataError"), tx0)) /\
  (add (H:=toy) st_notes [VStr "x"] tx0 = (Throw (DOMException "DataError"), tx0)).
Proof.
  pose proof (add_put_validate_key_before_enqueue (H:=toy) st_people
                [VObj [("id", VNum 5)]; VNum 7] tx0 ltac:(discriminate)) as (H1 & _ & _).
  pose proof (add_put_validate_key_before_enqueue (H:=toy) st_people
                [VObj []] tx0 ltac:(discriminate)) as (_ & H2 & _).
  pose proof (add_put_validate_key_before_enqueue (H:=toy) st_notes
                [VStr "x"] tx0 ltac:(discriminate)) as (_ & _ & H3).
  split; [| split].
  - apply H1; reflexivity.
  - apply (H2 eq_refl eq_refl eq_refl eq_refl).
  - apply (H3 eq_refl eq_refl).
Defined.

Lemma keypath_store_rejects_non_object_witness :
  add (H:=toy) st_people_auto [VNum 3] tx0 = (Throw (DOMException "DataError"), tx0) /\
  put (H:=toy) st_people_auto [VNull] tx0 = (Throw (DOMException "DataError"), tx0).
Proof.
  split.
  - apply (keypath_store_rejects_non_object (H:=toy) st_people_auto [VNum 3] tx0);
      [discriminate | reflexivity | reflexivity].
  - apply (keypath_store_rejects_non_object (H:=toy) st_people_auto [VNull] tx0);
      [discriminate | reflexivity | reflexivity].
Defined.

Lemma put_replaces_where_add_conflicts_witness :
  objectStoreAdd (H:=toy) st_notes (VStr "y") (VNum 1) db_one_note
  = (db_one_note, SIssued (CError (DOMError "ConstraintError"))) /\
  exists db' c,
    objectStorePut (H:=toy) st_notes (VStr "y") (VNum 1) db_one_note = (db', SIssued c) /\
    completion_errors c = [].
Proof.
  destruct (put_replaces_where_add_conflicts (H:=toy) st_notes (VStr "y") (VNum 1)
              db_one_note
              (mkTable false
                 [{["key" := toy_encode (VNum 1); "value" := toy_encode (VStr "x")]}])
              ltac:(constructor) eq_refl eq_refl eq_refl)
    as (_ & (db' & c & Hput & _ & Hc) & _ & _ & Hadd).
  split.
  - apply Hadd. reflexivity.
  - exists db', c. split; [exact Hput | exact Hc].
Defined.

Lemma get_resolves_with_value_or_nothing_witness :
  exists c rest,
    objectStoreGet (H:=toy) st_notes (toy_encode (VNum 1)) db_one_note
    = (db_one_note, SIssued c) /\
    trace (deliver (H:=toy) c (tx_running_get new_request)).2
    = EvSuccess 0 (VStr "x") :: rest.
Proof.
  destruct (get_resolves_with_value_or_nothing (H:=toy) st_notes (toy_encode (VNum 1))
              db_one_note (tx_running_get new_request)
              (mkEntry (objectStoreGet (H:=toy) st_notes (toy_encode (VNum 1))) VUndefined 0)
              eq_refl)
    as (c & Hc & rest & Hrest).
  exists c, rest. split; [exact Hc | exact Hrest].
Defined.

Lemma error_continuation_reaches_transaction_error_witness :
  tx_errored (error (H:=toy) (SqlError "disk full") (tx_running_get rq_throwing)).2 = true /\
  exists mid rest,
    trace (error (H:=toy) (SqlError "disk full") (tx_running_get rq_throwing)).2
    = EvError 0 (SqlError "disk full") :: mid ++ EvLogError (SqlError "disk full") :: rest.
Proof.
  destruct (error_continuation_reaches_transaction_error (H:=toy) (SqlError "disk full")
              (tx_running_get rq_throwing)
              (mkEntry (objectStoreGet (H:=toy) st_notes (toy_encode (VNum 1))) VUndefined 0)
              rq_throwing eq_refl eq_refl)
    as (_ & (mid & rest & Htr) & Herr).
  split; [exact Herr |]. exists mid, rest. exact Htr.
Defined.

Lemma abort_marks_inactive_and_defers_event_witness :
  tx_active (abort tx0).2 = false /\
  forall s2,
    run (H:=toy) [LExecuteRequests; LTransaction] (abort tx0).2 = Some s2 ->
    completions (trace s2) = 0%nat.
Proof.
  destruct (abort_marks_inactive_and_defers_event (H:=toy) tx0)
    as (_ & Ha & _ & _ & _ & _ & _ & Hlater).
  split; [exact Ha |].
  intros s2 Hrun. destruct (Hlater _ s2 Hrun) as (_ & Hc & _). exact Hc.
Defined.

Lemma enqueue_window_witness :
  tx_active (executeNextRequest (H:=toy) tx0).2 = false /\
  exists s' rest,
    run (H:=toy) [LCaller [ARequest (MRaw (objectStoreClear st_notes)) [] []]; LStatement]
      (set_inflight (Some (CSuccess VUndefined None)) (tx_running_get new_request))
    = Some s' /\
    trace s' = [EvEnqueue 1; EvSuccess 0 VUndefined; EvOp 1 1] ++ rest.
Proof.
  destruct (enqueue_window (H:=toy) tx0 ltac:(simpl; lia)) as (Ha & _ & Hpass).
  split; [exact Ha |].
  destruct (Hpass (set_inflight (Some (CSuccess VUndefined None)) (tx_running_get new_request))
              (mkEntry (objectStoreGet (H:=toy) st_notes (toy_encode (VNum 1))) VUndefined 0)
              new_request VUndefined (objectStoreClear st_notes) [] []
              eq_refl eq_refl eq_refl eq_refl eq_refl eq_refl eq_refl)
    as (s' & rest & Hrun & Htr).
  exists s', rest. split; [exact Hrun | exact Htr].
Defined.

(** [in_order] tells the orders of execution apart. *)
Example in_order_accepts :
  in_order [EvEnqueue 0; EvEnqueue 1; EvOp 0 0; EvSuccess 0 VUndefined;
            EvOp 1 1; EvError 1 TypeError] = true.
Proof. reflexivity. Qed.

Example in_order_rejects :
  in_order [EvEnqueue 0; EvEnqueue 1; EvOp 0 0; EvOp 1 1] = false /\
  in_order [EvEnqueue 0; EvEnqueue 1; EvOp 0 1] = false /\
  in_order [EvEnqueue 0; EvEnqueue 1; EvOp 1 1] = false /\
  in_order [EvEnqueue 0; EvOp 0 0; EvSuccess 1 VUndefined] = false.
Proof. repeat split; reflexivity. Qed.

Lemma operations_run_in_enqueue_order_witness :
  exists s,
    run (H:=toy)
      [LCaller three_adds; LExecuteRequests; LTransaction;
       LStatement; LStatement; LStatement; LAbortTimer] tx0 = Some s /\
    in_order (trace s) = true.
Proof.
  assert (bool_decide
            (is_Some
               (run (H:=toy)
                  [LCaller three_adds; LExecuteRequests; LTransaction;
                   LStatement; LStatement; LStatement; LAbortTimer] tx0)) = true)
    as Hsome by (vm_compute; reflexivity).
  apply bool_decide_eq_true_1 in Hsome. destruct Hsome as [s Hrun].
  exists s. split; [exact Hrun |].
  destruct (operations_run_in_enqueue_order (H:=toy) READ_WRITE db0 [] [] [] [] [])
    as [Hsafe _].
  apply (Hsafe _ s Hrun).
Defined.

(** ** Concrete runs of the further properties *)

Lemma call_queues_one_or_nothing_witness :
  exists e, run_call (H:=toy) (MClear st_notes) tx_reader = (Throw e, tx_reader).
Proof.
  destruct (call_queues_one_or_nothing (H:=toy) (MClear st_notes) tx_reader)
    as [_ Hro].
  destruct (Hro eq_refl eq_refl) as (e & _ & He).
  exists e. exact He.
Defined.

Lemma add_then_get_round_trip_witness :
  exists db',
    objectStoreAdd (H:=toy) st_notes (VStr "y") (VNum 2) db_one_note
    = (db', SIssued (CSuccess (VNum 2) None)) /\
    objectStoreGet (H:=toy) st_notes (toy_encode (VNum 2)) db'
    = (db', SIssued (CSuccess (VStr "y") None)).
Proof.
  destruct (add_then_get_round_trip (H:=toy) st_notes (VStr "y") (VNum 2) db_one_note
              (mkTable false
                 [{["key" := toy_encode (VNum 1); "value" := toy_encode (VStr "x")]}])
              ltac:(constructor) eq_refl eq_refl eq_refl eq_refl)
    as (db' & Hadd & Hget & _).
  exists db'. split; [exact Hadd | exact Hget].
Defined.

Lemma put_then_get_returns_new_record_witness :
  exists db',
    objectStorePut (H:=toy) st_notes (VStr "y") (VNum 1) db_one_note
    = (db', SIssued (CSuccess (VNum 1) None)) /\
    objectStoreGet (H:=toy) st_notes (toy_encode (VNum 1)) db'
    = (db', SIssued (CSuccess (VStr "y") None)).
Proof.
  destruct (put_then_get_returns_new_record (H:=toy) st_notes (VStr "y") (VNum 1)
              db_one_note
              (mkTable false
                 [{["key" := toy_encode (VNum 1); "value" := toy_encode (VStr "x")]}])
              ltac:(constructor) eq_refl eq_refl eq_refl)
    as (db' & Hput & Hget & _).
  exists db'. split; [exact Hput | exact Hget].
Defined.

Lemma delete_then_get_finds_nothing_witness :
  exists db',
    objectStoreDelete st_notes (toy_encode (VNum 1)) db_one_note
    = (db', SIssued (CSuccess VUndefined None)) /\
    objectStoreGet (H:=toy) st_notes (toy_encode (VNum 1)) db' = (db', SIssued get_nothing).
Proof.
  destruct (delete_then_get_finds_nothing (H:=toy) st_notes (VNum 1) db_one_note
              (mkTable false
                 [{["key" := toy_encode (VNum 1); "value" := toy_encode (VStr "x")]}])
              eq_refl eq_refl)
    as (db' & Hdel & Hget & _).
  exists db'. split; [exact Hdel | exact Hget].
Defined.

Lemma clear_then_count_is_zero_witness :
  exists db',
    objectStoreClear st_notes db_one_note = (db', SIssued (CSuccess VUndefined None)) /\
    objectStoreCount (H:=toy) st_notes VUndefined db'
    = (db', SIssued (CSuccess (VNum 0) None)).
Proof.
  destruct (clear_then_count_is_zero (H:=toy) st_notes db_one_note
              (mkTable false
                 [{["key" := toy_encode (VNum 1); "value" := toy_encode (VStr "x")]}])
              eq_refl)
    as (db' & Hclear & Hcount & _).
  exists db'. split; [exact Hclear | exact Hcount].
Defined.


Lemma transaction_flags_only_move_one_way_witness :
  exists s',
    run (H:=toy) [LCaller [AAbort]; LExecuteRequests; LTransaction; LAbortTimer] tx0
    = Some s' /\
    tx_mode s' = READ_WRITE.
Proof.
  assert (bool_decide
            (is_Some
               (run (H:=toy) [LCaller [AAbort]; LExecuteRequests; LTransaction; LAbortTimer]
                  tx0)) = true) as Hsome by (vm_compute; reflexivity).
  apply bool_decide_eq_true_1 in Hsome. destruct Hsome as [s' Hrun].
  exists s'. split; [exact Hrun |].
  destruct (transaction_flags_only_move_one_way (H:=toy) _ tx0 s' Hrun)
    as (_ & _ & _ & Hmode).
  exact Hmode.
Defined.

Lemma idle_procedure_stalls_transaction_witness :
  exists s2,
    run (H:=toy) [LCaller [AAbort]; LAbortTimer]
      (set_backend db_empty (calling (mkEntry idle VUndefined 0) (tx_schema idle)))
    = Some s2 /\
    progress (trace s2) = [EvOp 0 0].
Proof.
  assert (bool_decide
            (is_Some
               (run (H:=toy) [LCaller [AAbort]; LAbortTimer]
                  (set_backend db_empty
                     (calling (mkEntry idle VUndefined 0) (tx_schema idle))))) = true)
    as Hsome by (vm_compute; reflexivity).
  apply bool_decide_eq_true_1 in Hsome. destruct Hsome as [s2 Hrun].
  exists s2. split; [exact Hrun |].
  destruct (idle_procedure_stalls_transaction (H:=toy) (tx_schema idle)
              (mkEntry idle VUndefined 0) db_empty eq_refl eq_refl eq_refl eq_refl)
    as [_ Hstall].
  apply (Hstall _ s2 Hrun).
Defined.

Lemma transaction_error_always_aborts_witness :
  tx_active (transactionError (H:=toy) (SqlError "disk full") tx0).2 = false /\
  tx_errored (transactionError (H:=toy) (SqlError "disk full") tx0).2 = true.
Proof.
  destruct (transaction_error_always_aborts (H:=toy) (SqlError "disk full") tx0
              eq_refl eq_refl)
    as (Ha & He & _).
  split; [exact Ha | exact He].
Defined.

Lemma throwing_success_handler_stops_queue_witness :
  let q := mkEntry (objectStoreGet (H:=toy) st_notes (toy_encode (VNum 1))) VUndefined 0 in
  let s := set_inflight (Some (CSuccess (VStr "x") None)) (tx_running_get rq_failing) in
  fire (H:=toy) LStatement s
  = Some (set_phase (Faulted TypeError)
            (mark_success (VStr "x") (set_inflight None s) q)).
Proof.
  intros q s.
  destruct (throwing_success_handler_stops_queue (H:=toy) (VStr "x") s q TypeError
              (mark_success (VStr "x") (set_inflight None s) q)
              eq_refl eq_refl eq_refl eq_refl)
    as (Hfire & _).
  exact Hfire.
Defined.

Lemma failed_operation_stops_queue_witness :
  exists s2,
    run (H:=toy) [LStatement; LAbortTimer]
      (set_inflight (Some (CError (SqlError "disk full"))) (tx_running_get new_request))
    = Some s2 /\
    progress (trace s2) = [EvError 0 (SqlError "disk full")] /\
    cl_i s2 = 0%nat.
Proof.
  assert (bool_decide
            (is_Some
               (run (H:=toy) [LStatement; LAbortTimer]
                  (set_inflight (Some (CError (SqlError "disk full")))
                     (tx_running_get new_request)))) = true)
    as Hsome by (vm_compute; reflexivity).
  apply bool_decide_eq_true_1 in Hsome. destruct Hsome as [s2 Hrun].
  exists s2. split; [exact Hrun |].
  destruct (failed_operation_stops_queue (H:=toy) (SqlError "disk full")
              (set_inflight (Some (CError (SqlError "disk full")))
                 (tx_running_get new_request))
              (mkEntry (objectStoreGet (H:=toy) st_notes (toy_encode (VNum 1))) VUndefined 0)
              [LAbortTimer] s2 eq_refl eq_refl eq_refl Hrun)
    as (Hp & _ & Hi).
  split; [exact Hp | exact Hi].
Defined.

Lemma get_without_row_delivers_success_twice_witness :
  let q := mkEntry (objectStoreGet (H:=toy) st_notes (toy_encode (VNum 1))) VUndefined 0 in
  let s := set_inflight (Some get_nothing) (tx_running_get rq_failing) in
  let s1 := mark_success VUndefined (set_inflight None s) q in
  fire (H:=toy) LStatement s
  = Some (websql_turn (success (H:=toy) VUndefined None) s1) /\
  exists rest,
    trace (websql_turn (success (H:=toy) VUndefined None) s1)
    = trace s1 ++ EvSuccess 0 VUndefined :: rest.
Proof.
  intros q s s1.
  destruct (get_without_row_delivers_success_twice (H:=toy) s q TypeError s1
              eq_refl eq_refl eq_refl eq_refl)
    as (Hfire & _ & Hsecond).
  split; [exact Hfire | exact Hsecond].
Defined.

Lemma clone_preserves_store_witness :
  clone (H0:=toy_schema) os_books = Ok os_books.
Proof.
  destruct (clone_preserves_store (H0:=toy_schema) os_books) as [_ Hsame].
  apply Hsame; reflexivity.
Defined.

Lemma created_store_reads_back_witness :
  IDBObjectStore_new (H0:=toy_schema) (row_properties (sys_row (H0:=toy_schema) os_books))
  = Ok os_books.
Proof.
  apply (created_store_reads_back (H0:=toy_schema) os_books); reflexivity.
Defined.

Lemma objectStore_gives_database_store_witness :
  objectStore (H0:=toy_schema) dbo_books ["books"] ["books"] tx0 = (Ok os_books, tx0).
Proof.
  destruct (objectStore_gives_database_store (H0:=toy_schema) dbo_books ["books"] "books" []
              tx0) as (_ & Hgives & _).
  apply (Hgives os_books); try reflexivity.
  left. apply list_elem_of_singleton. reflexivity.
Defined.


Lemma delete_unknown_store_never_resolves_witness :
  deleteObjectStoreProc os_books db_empty = (db_empty, SIdle) /\
  exists s2,
    run (H:=toy) [LCaller [AAbort]; LAbortTimer]
      (executeNextRequest (H:=toy) (tx_schema (deleteObjectStoreProc os_books))).2
    = Some s2 /\
    progress (trace s2) = [EvOp 0 0].
Proof.
  destruct (delete_unknown_store_never_resolves (H:=toy) os_books
              (tx_schema (deleteObjectStoreProc os_books))
              (mkEntry (deleteObjectStoreProc os_books) VUndefined 0) (mkTable false [])
              eq_refl eq_refl eq_refl eq_refl eq_refl eq_refl)
    as (Hidle & _ & Hstall).
  split; [exact Hidle |].
  assert (bool_decide
            (is_Some
               (run (H:=toy) [LCaller [AAbort]; LAbortTimer]
                  (executeNextRequest (H:=toy)
                     (tx_schema (deleteObjectStoreProc os_books))).2)) = true)
    as Hsome by (vm_compute; reflexivity).
  apply bool_decide_eq_true_1 in Hsome. destruct Hsome as [s2 Hrun].
  exists s2. split; [exact Hrun | apply (Hstall _ s2 Hrun)].
Defined.


Lemma schema_calls_update_database_first_witness :
  db_objectStores (createObjectStore (H0:=toy_schema) dbo_none None os_books).1
    !! "books" = Some (Some os_books) /\
  (createObjectStore (H0:=toy_schema) dbo_none None os_books).2
  = (Throw (DOMException "InvalidStateError"), None).
Proof.
  destruct (schema_calls_update_database_first (H0:=toy_schema) dbo_none None
              os_books)
    as (Hreg & _ & _ & Hthrow & _).
  split; [exact Hreg |].
  destruct (Hthrow ltac:(discriminate)) as [Hc _]. exact Hc.
Defined.

Lemma complete_fires_after_every_operation_witness :
  let pre := [EvEnqueue 0; EvOp 0 0; EvSuccess 0 (VStr "x")] in
  f_started (fifo pre) = length (f_enq (fifo pre)) /\
  f_resolved (fifo pre) = true /\
  in_order pre = true.
Proof.
  assert (option_map trace
            (run (H:=toy)
               [LCaller [plain (MGet st_notes [VNum 1])];
                LExecuteRequests; LTransaction; LStatement]
               (new_transaction READ_WRITE db_one_note [] [] [] [] []))
          = Some ([EvEnqueue 0; EvOp 0 0; EvSuccess 0 (VStr "x")]
                  ++ EvComplete :: [EvInternalComplete])) as Htr
    by (vm_compute; reflexivity).
  destruct (run (H:=toy)
              [LCaller [plain (MGet st_notes [VNum 1])];
               LExecuteRequests; LTransaction; LStatement]
              (new_transaction READ_WRITE db_one_note [] [] [] [] []))
    as [s |] eqn:Hrun; [| discriminate].
  injection Htr as Htr.
  apply (complete_fires_after_every_operation (H:=toy) READ_WRITE db_one_note
           [] [] [] [] [] _ s [EvEnqueue 0; EvOp 0 0; EvSuccess 0 (VStr "x")]
           [EvInternalComplete] Hrun Htr).
Defined.

Lemma read_only_transaction_never_writes_witness :
  exists s,
    run (H:=toy) [LCaller reader_calls; LExecuteRequests; LTransaction; LStatement]
      tx_reader = Some s /\
    backend s = db_one_note.
Proof.
  assert (bool_decide
            (is_Some
               (run (H:=toy)
                  [LCaller reader_calls; LExecuteRequests; LTransaction; LStatement]
                  tx_reader)) = true) as Hsome by (vm_compute; reflexivity).
  apply bool_decide_eq_true_1 in Hsome. destruct Hsome as [s Hrun].
  exists s. split; [exact Hrun |].
  destruct (read_only_transaction_never_writes (H:=toy) db_one_note [] [] [] [] []
              [LCaller reader_calls; LExecuteRequests; LTransaction; LStatement] s
              eq_refl eq_refl eq_refl eq_refl eq_refl eq_refl Hrun)
    as [Hdb _].
  exact Hdb.
Defined.


Lemma add_then_get_in_one_transaction_witness :
  exists s,
    run (H:=toy)
      [LCaller [plain (MAdd st_notes [VStr "y"; VNum 2]); plain (MGet st_notes [VNum 2])];
       LExecuteRequests; LTransaction; LStatement; LStatement]
      (new_transaction READ_WRITE db_one_note [] [] [] [] []) = Some s /\
    heap s = [done_with (VNum 2); done_with (VStr "y")].
Proof.
  destruct (add_then_get_in_one_transaction (H:=toy) st_notes (VStr "y") (VNum 2) (VNum 2)
              db_one_note
              (mkTable false
                 [{["key" := toy_encode (VNum 1); "value" := toy_encode (VStr "x")]}])
              ltac:(constructor) eq_refl eq_refl eq_refl eq_refl eq_refl)
    as (s & Hrun & _ & Hheap & _).
  exists s. split; [exact Hrun | exact Hheap].
Defined.

Lemma complete_and_error_exclude_witness :
  exists s,
    run (H:=toy) [LCaller two_adds_same_key; LExecuteRequests; LTransaction;
                  LStatement; LStatement; LAbortTimer] tx_abort_on_error = Some s /\
    (terminal (trace s) <= 1)%nat.
Proof.
  assert (bool_decide
            (is_Some
               (run (H:=toy) [LCaller two_adds_same_key; LExecuteRequests; LTransaction;
                              LStatement; LStatement; LAbortTimer] tx_abort_on_error)) = true)
    as Hsome by (vm_compute; reflexivity).
  apply bool_decide_eq_true_1 in Hsome. destruct Hsome as [s Hrun].
  exists s. split; [exact Hrun |].
  apply (complete_and_error_exclude (H:=toy) READ_WRITE db0 [] [AAbort] [] [] [] _ s Hrun).
Defined.


Lemma late_websql_error_is_thrown_witness :
  fire (H:=toy) (LWebSqlError (SqlError "disk full")) tx_completed
  = Some (set_trace [EvComplete; EvInternalComplete;
                     EvLogError (SqlError "disk full"); EvUncaught (SqlError "disk full")]
            (set_tx_errored true (set_phase Failed tx_completed))).
Proof.
  destruct (late_websql_error_is_thrown (H:=toy) tx_completed (SqlError "disk full")
              eq_refl eq_refl eq_refl)
    as (Hfire & _).
  exact Hfire.
Defined.
